(** * Computer-Graphics lab programs: the clicker game core and the Bresenham line

    Two programs of the repository are embedded here:

    - [Project/main.cpp], the "UITS Pillar Builder" clicker game: its global
      game state, [processInput], [updateGameLogic], [updateBackgroundColor],
      [updateBoomAnimation], [resetGame], the scene table built by
      [createBuildingComponents] and the body of the driver loop of [main];
    - [Lab_report_06/src/main.cpp], the [Bresenham] line function.

    Conventions of the embedding.

    - A C++ [float] is a rational number ([Q]) and its arithmetic is exact:
      the development is about the control structure and the arithmetic of
      the programs, not about binary32 rounding.  Decimal literals such as
      [0.55f] are the rationals they denote; whole literals such as [1.0f]
      are written [1].  The properties of the game are therefore stated on
      the values a frame itself computes (the decayed opacities, the timer
      after its addition) or are invariants that rounding keeps, not on
      exact sums of frame times.
    - An [int] of [Bresenham] is an integer ([Z]); [loopChecked] is the same
      loop with every [int] operation checked against the 32-bit range, and
      [rasterChecked_exact] shows where the two agree.  The properties of
      [Bresenham] are stated on the machine run [rasterChecked], from the
      four [int]s the endpoints round to.
    - [std::sin] and [std::cos] are never evaluated.  The two places that
      call them (the shake of a collapsing piece and the background flash)
      record the argument of the call; see [TranslateShake] and [Flash].
    - Calls into OpenGL are output: a frame yields the list of
      [glClearColor]/[glClear] calls and the list of draw calls with the
      sequence of [glm] operations that built each model matrix.
    - Console output and shader set-up are left out.

    The definitions come first ([Float], [Clicker], [Line]), the properties
    after them ([FloatFacts], [ClickerProofs], [LineProofs]). *)

From Stdlib Require Import QArith Qround Lqa ZArith Lia List Bool String.
Import ListNotations.

(** ** Floats as exact rationals *)

Module Float.

Open Scope Q_scope.

(** [a < b] on floats. *)
Definition ltb (a b : Q) : bool := negb (Qle_bool b a).

(** [a >= b] on floats. *)
Definition geb (a b : Q) : bool := Qle_bool b a.

(** [std::max(a, b)] is [(a < b) ? b : a]. *)
Definition max (a b : Q) : Q := if ltb a b then b else a.

(** [std::min(a, b)] is [(b < a) ? b : a]. *)
Definition min (a b : Q) : Q := if ltb b a then b else a.

End Float.

(** ** The clicker game ([Project/main.cpp]) *)

Module Clicker.

Import Float.
Open Scope Q_scope.

(** *** Game constants *)

Definition OPACITY_FADE_RATE : Q := 0.2.
Definition OPACITY_GAIN_RATE : Q := 0.25.
Definition OPACITY_THRESHOLD : Q := 0.55.
Definition GAME_DURATION : Q := 10.
Definition BOOM_DURATION : Q := 2.5.

(** *** The array [float pillarOpacity[4]] *)

Record float4 := mkFloat4 { at0 : Q; at1 : Q; at2 : Q; at3 : Q }.

(** [v[i]] for [i] in [0..3]; the program only indexes with [i - 5] for
    [5 <= i <= 8]. *)
Definition get4 (v : float4) (i : nat) : Q :=
  match i with
  | 0%nat => at0 v
  | 1%nat => at1 v
  | 2%nat => at2 v
  | _ => at3 v
  end.

(** [for (int i = 0; i < 4; i++) v[i] = f(v[i]);] *)
Definition map4 (f : Q -> Q) (v : float4) : float4 :=
  mkFloat4 (f (at0 v)) (f (at1 v)) (f (at2 v)) (f (at3 v)).

(** [for (int i = 0; i < 4; i++) if (p(v[i])) { found = true; break; }] *)
Definition exists4 (p : Q -> bool) (v : float4) : bool :=
  p (at0 v) || p (at1 v) || p (at2 v) || p (at3 v).

(** *** Global state *)

Record Globals := mkGlobals {
  pillarOpacity : float4;
  gameTimer : Q;
  gameActive : bool;
  gameWon : bool;
  gameLost : bool;
  gameStatus : string;
  boomStarted : bool;
  boomTimer : Q;
  componentDisappeared : list bool;
  bgRed : Q;
  bgGreen : Q;
  bgBlue : Q
}.

(** Assignments to one global. *)

Definition set_pillarOpacity (v : float4) (g : Globals) : Globals :=
  mkGlobals v (gameTimer g) (gameActive g) (gameWon g) (gameLost g)
    (gameStatus g) (boomStarted g) (boomTimer g) (componentDisappeared g)
    (bgRed g) (bgGreen g) (bgBlue g).

Definition set_gameTimer (v : Q) (g : Globals) : Globals :=
  mkGlobals (pillarOpacity g) v (gameActive g) (gameWon g) (gameLost g)
    (gameStatus g) (boomStarted g) (boomTimer g) (componentDisappeared g)
    (bgRed g) (bgGreen g) (bgBlue g).

Definition set_gameActive (v : bool) (g : Globals) : Globals :=
  mkGlobals (pillarOpacity g) (gameTimer g) v (gameWon g) (gameLost g)
    (gameStatus g) (boomStarted g) (boomTimer g) (componentDisappeared g)
    (bgRed g) (bgGreen g) (bgBlue g).

Definition set_gameWon (v : bool) (g : Globals) : Globals :=
  mkGlobals (pillarOpacity g) (gameTimer g) (gameActive g) v (gameLost g)
    (gameStatus g) (boomStarted g) (boomTimer g) (componentDisappeared g)
    (bgRed g) (bgGreen g) (bgBlue g).

Definition set_gameLost (v : bool) (g : Globals) : Globals :=
  mkGlobals (pillarOpacity g) (gameTimer g) (gameActive g) (gameWon g) v
    (gameStatus g) (boomStarted g) (boomTimer g) (componentDisappeared g)
    (bgRed g) (bgGreen g) (bgBlue g).

Definition set_gameStatus (v : string) (g : Globals) : Globals :=
  mkGlobals (pillarOpacity g) (gameTimer g) (gameActive g) (gameWon g)
    (gameLost g) v (boomStarted g) (boomTimer g) (componentDisappeared g)
    (bgRed g) (bgGreen g) (bgBlue g).

Definition set_boomStarted (v : bool) (g : Globals) : Globals :=
  mkGlobals (pillarOpacity g) (gameTimer g) (gameActive g) (gameWon g)
    (gameLost g) (gameStatus g) v (boomTimer g) (componentDisappeared g)
    (bgRed g) (bgGreen g) (bgBlue g).

Definition set_boomTimer (v : Q) (g : Globals) : Globals :=
  mkGlobals (pillarOpacity g) (gameTimer g) (gameActive g) (gameWon g)
    (gameLost g) (gameStatus g) (boomStarted g) v (componentDisappeared g)
    (bgRed g) (bgGreen g) (bgBlue g).

Definition set_componentDisappeared (v : list bool) (g : Globals) : Globals :=
  mkGlobals (pillarOpacity g) (gameTimer g) (gameActive g) (gameWon g)
    (gameLost g) (gameStatus g) (boomStarted g) (boomTimer g) v
    (bgRed g) (bgGreen g) (bgBlue g).

Definition set_bg (r gr b : Q) (g : Globals) : Globals :=
  mkGlobals (pillarOpacity g) (gameTimer g) (gameActive g) (gameWon g)
    (gameLost g) (gameStatus g) (boomStarted g) (boomTimer g)
    (componentDisappeared g) r gr b.

(** *** The scene table *)

Record BuildingComponent := mkComponent {
  x : Q;
  y : Q;
  width : Q;
  height : Q;
  color : Q * Q * Q;
  disappearTime : Q
}.

(** [createBuildingComponents]: the 29 pieces in the order they are pushed. *)
Definition buildingComponents : list BuildingComponent :=
  [ (* main building bodies *)
    mkComponent (-3.0) 0.5 2.0 5.0 (0.8, 0.4, 0.2) 0.35;
    mkComponent 0.0 0.2 4.4 2.0 (0.8, 0.4, 0.2) 0.4;
    mkComponent 3.0 0.1 2.0 3.5 (0.8, 0.4, 0.2) 0.35;
    (* roofs *)
    mkComponent (-3.0) 2.8 2.2 0.5 (0.6, 0.3, 0.1) 0.32;
    mkComponent 3.0 1.95 2.2 0.5 (0.6, 0.3, 0.1) 0.32;
    (* pillars, indices 5-8 *)
    mkComponent (-1.2) (-1.3) 0.4 1.2 (0.5, 0.25, 0.1) 0.86;
    mkComponent 1.2 (-1.3) 0.4 1.2 (0.5, 0.25, 0.1) 0.87;
    mkComponent (-0.6) (-1.35) 0.25 1.1 (0.4, 0.2, 0.08) 0.88;
    mkComponent 0.6 (-1.35) 0.25 1.1 (0.4, 0.2, 0.08) 0.89;
    (* building 1 windows *)
    mkComponent (-3.4) 1.5 0.35 0.35 (0.2, 0.5, 0.8) 0.5;
    mkComponent (-3.0) 1.5 0.35 0.35 (0.2, 0.5, 0.8) 0.52;
    mkComponent (-3.4) 0.5 0.35 0.35 (0.2, 0.5, 0.8) 0.54;
    mkComponent (-3.0) 0.5 0.35 0.35 (0.2, 0.5, 0.8) 0.56;
    (* building 3 windows *)
    mkComponent 3.0 1.0 0.35 0.35 (0.2, 0.5, 0.8) 0.5;
    mkComponent 3.4 1.0 0.35 0.35 (0.2, 0.5, 0.8) 0.52;
    mkComponent 3.0 0.0 0.35 0.35 (0.2, 0.5, 0.8) 0.54;
    mkComponent 3.4 0.0 0.35 0.35 (0.2, 0.5, 0.8) 0.56;
    (* building 2 windows *)
    mkComponent (-1.2) 0.7 0.35 0.35 (0.2, 0.5, 0.8) 0.6;
    mkComponent 0.0 0.7 0.35 0.35 (0.2, 0.5, 0.8) 0.62;
    mkComponent 1.2 0.7 0.35 0.35 (0.2, 0.5, 0.8) 0.64;
    mkComponent (-1.2) (-0.1) 0.35 0.35 (0.2, 0.5, 0.8) 0.65;
    mkComponent 0.0 (-0.1) 0.35 0.35 (0.2, 0.5, 0.8) 0.67;
    mkComponent 1.2 (-0.1) 0.35 0.35 (0.2, 0.5, 0.8) 0.69;
    (* white gate *)
    mkComponent 0.0 (-1.95) 3.2 0.9 (1.0, 1.0, 1.0) 0.8;
    mkComponent (-1.3) (-1.95) 0.15 0.9 (1.0, 1.0, 1.0) 0.81;
    mkComponent (-0.6) (-1.95) 0.15 0.9 (1.0, 1.0, 1.0) 0.82;
    mkComponent 0.0 (-1.95) 0.15 0.9 (1.0, 1.0, 1.0) 0.83;
    mkComponent 0.6 (-1.95) 0.15 0.9 (1.0, 1.0, 1.0) 0.84;
    mkComponent 1.3 (-1.95) 0.15 0.9 (1.0, 1.0, 1.0) 0.85 ].

(** The globals after their initialisers and the [resize] in [main]. *)
Definition initialGlobals : Globals :=
  {| pillarOpacity := mkFloat4 1 1 1 1;
     gameTimer := 0;
     gameActive := true;
     gameWon := false;
     gameLost := false;
     gameStatus := "Keep Clicking!"%string;
     boomStarted := false;
     boomTimer := 0;
     componentDisappeared := repeat false (List.length buildingComponents);
     bgRed := 1;
     bgGreen := 1;
     bgBlue := 1 |}.

(** *** [resetGame] *)

Definition resetGame (g : Globals) : Globals :=
  let g := set_pillarOpacity (map4 (fun _ => 1) (pillarOpacity g)) g in
  let g := set_gameTimer 0 g in
  let g := set_gameActive true g in
  let g := set_gameWon false g in
  let g := set_gameLost false g in
  let g := set_gameStatus "Keep Clicking!"%string g in
  let g := set_boomStarted false g in
  let g := set_boomTimer 0 g in
  let g := set_bg 1 1 1 g in
  set_componentDisappeared (map (fun _ => false) (componentDisappeared g)) g.

(** *** [updateGameLogic] *)

(** Its first loop: every opacity fades by [OPACITY_FADE_RATE * deltaTime]
    and is clamped at 0 from below. *)
Definition decay (deltaTime : Q) (v : float4) : float4 :=
  map4 (fun p => max (p - OPACITY_FADE_RATE * deltaTime) 0) v.

Definition updateGameLogic (deltaTime : Q) (g : Globals) : Globals :=
  if negb (gameActive g) || boomStarted g then g
  else
    let g := set_pillarOpacity (decay deltaTime (pillarOpacity g)) g in
    let anyPillarFailed :=
      exists4 (fun p => ltb p OPACITY_THRESHOLD) (pillarOpacity g) in
    if anyPillarFailed then
      let g := set_gameActive false g in
      let g := set_gameLost true g in
      let g := set_gameStatus "LOST! Pillars collapsed!"%string g in
      let g := set_boomStarted true g in
      set_boomTimer 0 g
    else
      let g := set_gameTimer (gameTimer g + deltaTime) g in
      if geb (gameTimer g) GAME_DURATION then
        let g := set_gameActive false g in
        let g := set_gameWon true g in
        set_gameStatus "WON! Campus Saved!"%string g
      else g.

(** *** [updateBoomAnimation] *)

Definition updateBoomAnimation (deltaTime : Q) (g : Globals) : Globals :=
  let g := set_boomTimer (boomTimer g + deltaTime) g in
  if geb (boomTimer g) BOOM_DURATION then
    let g := set_boomStarted false g in
    set_boomTimer 0 g
  else g.

(** *** [updateBackgroundColor] *)

Definition avgOpacity (v : float4) : Q :=
  (at0 v + at1 v + at2 v + at3 v) / 4.

Definition updateBackgroundColor (g : Globals) : Globals :=
  let avgOpacity := avgOpacity (pillarOpacity g) in
  if negb (gameLost g) && gameActive g then
    let opacityRatio :=
      (avgOpacity - OPACITY_THRESHOLD) / (1 - OPACITY_THRESHOLD) in
    let opacityRatio := max opacityRatio 0 in
    set_bg 1 opacityRatio opacityRatio g
  else if gameLost g then set_bg 1 0.2 0.2 g
  else if gameWon g then set_bg 0.2 1 0.2 g
  else g.

(** *** [processInput] *)

(** The keys read by [glfwGetKey] in one frame, and the frame's [deltaTime]. *)
Record Input := mkInput {
  deltaTime : Q;
  keySpace : bool;
  keyR : bool;
  keyEscape : bool
}.

(** The globals together with the two function-local statics of
    [processInput] and the window's should-close flag. *)
Record Machine := mkMachine {
  globals : Globals;
  spacePressed : bool;
  rPressed : bool;
  windowShouldClose : bool
}.

Definition initialMachine : Machine :=
  {| globals := initialGlobals;
     spacePressed := false;
     rPressed := false;
     windowShouldClose := false |}.

Definition set_globals (g : Globals) (m : Machine) : Machine :=
  mkMachine g (spacePressed m) (rPressed m) (windowShouldClose m).

Definition set_spacePressed (v : bool) (m : Machine) : Machine :=
  mkMachine (globals m) v (rPressed m) (windowShouldClose m).

Definition set_rPressed (v : bool) (m : Machine) : Machine :=
  mkMachine (globals m) (spacePressed m) v (windowShouldClose m).

Definition set_windowShouldClose (v : bool) (m : Machine) : Machine :=
  mkMachine (globals m) (spacePressed m) (rPressed m) v.

(** The loop of the SPACE branch: every opacity gains [OPACITY_GAIN_RATE]
    and is clamped at 1 from above. *)
Definition boost (v : float4) : float4 :=
  map4 (fun p => min (p + OPACITY_GAIN_RATE) 1) v.

Definition processInput (inp : Input) (m : Machine) : Machine :=
  let m := if keyEscape inp then set_windowShouldClose true m else m in
  let m :=
    if keySpace inp then
      if negb (spacePressed m) && gameActive (globals m)
         && negb (boomStarted (globals m))
      then
        let m :=
          set_globals
            (set_pillarOpacity (boost (pillarOpacity (globals m))) (globals m))
            m in
        set_spacePressed true m
      else m
    else set_spacePressed false m in
  if keyR inp then
    if negb (rPressed m) then
      let m := set_globals (resetGame (globals m)) m in
      set_rPressed true m
    else m
  else set_rPressed false m.

(** *** Rendering: the body of the driver loop *)

(** One [glm] call on the model matrix.  [TranslateShake a b amount] is the
    call [glm::translate(model, vec3(sin(a) * amount, cos(b) * amount, 0))]. *)
Inductive Xform :=
| Translate (tx ty : Q)
| TranslateShake (sinArg cosArg amount : Q)
| Rotate (angle : Q)
| Scale (sx sy : Q).

(** One piece sent to the renderer: its index, the [glm] calls that built
    [model] from the identity, in program order, and [finalColor]. *)
Record DrawCall := mkDrawCall {
  index : nat;
  model : list Xform;
  finalColor : Q * Q * Q * Q
}.

(** [componentDisappeared[i] = v] *)
Fixpoint assign (i : nat) (v : bool) (flags : list bool) : list bool :=
  match flags, i with
  | [], _ => []
  | _ :: rest, O => v :: rest
  | b :: rest, S j => b :: assign j v rest
  end.

(** [finalColor] of piece [i]: opaque, except for a pillar while the round is
    active and no collapse runs. *)
Definition pieceColor (g : Globals) (i : nat) (comp : BuildingComponent)
  : Q * Q * Q * Q :=
  let '(r, gr, b) := color comp in
  if (5 <=? i)%nat && (i <=? 8)%nat && gameActive g && negb (boomStarted g)
  then (r, gr, b, get4 (pillarOpacity g) (i - 5))
  else (r, gr, b, 1).

(** One iteration of the drawing loop; [None] is a [continue]. *)
Definition drawComponent (i : nat) (comp : BuildingComponent) (g : Globals)
  : Globals * option DrawCall :=
  let timeSinceDisappear := boomTimer g - disappearTime comp in
  if ltb 0 timeSinceDisappear && boomStarted g then
    let disappearProgress := timeSinceDisappear / 0.5 in
    let disappearProgress := min disappearProgress 1 in
    if geb disappearProgress 1 then
      (set_componentDisappeared (assign i true (componentDisappeared g)) g,
       None)
    else
      let shakeAmount := (1 - disappearProgress) * 0.1 in
      let rotationAngle := disappearProgress * 3.14159 * 2 in
      let scaleAmount := 1 - disappearProgress * 0.8 in
      (g,
       Some (mkDrawCall i
               [ Translate (x comp) (y comp);
                 TranslateShake (boomTimer g * 20) (boomTimer g * 25)
                                shakeAmount;
                 Rotate rotationAngle;
                 Scale scaleAmount scaleAmount;
                 Scale (width comp) (height comp) ]
               (pieceColor g i comp)))
  else if negb (nth i (componentDisappeared g) false) then
    (g,
     Some (mkDrawCall i
             [ Translate (x comp) (y comp);
               Scale (width comp) (height comp) ]
             (pieceColor g i comp)))
  else (g, None).

(** [for (size_t i = 0; i < buildingComponents.size(); i++)], from index [i]
    over the remaining pieces. *)
Fixpoint drawLoop (i : nat) (comps : list BuildingComponent) (g : Globals)
  : Globals * list DrawCall :=
  match comps with
  | [] => (g, [])
  | comp :: rest =>
      let '(g1, call) := drawComponent i comp g in
      let '(g2, calls) := drawLoop (S i) rest g1 in
      (g2, match call with Some c => c :: calls | None => calls end)
  end.

(** A [glClearColor] followed by [glClear].  [Flash a] is the flash of the
    collapse, whose [flashIntensity] is [sin(a) * 0.5 + 0.5]. *)
Inductive ClearColor :=
| Plain (r g b : Q)
| Flash (sinArg : Q).

(** The colour of the flash for a given value of the sine. *)
Definition flashColor (sinValue : Q) : Q * Q * Q :=
  let flashIntensity := sinValue * 0.5 + 0.5 in
  (0.5 + flashIntensity * 0.5,
   0.2 + flashIntensity * 0.3,
   0.2 + flashIntensity * 0.3).

(** What one frame sends to the renderer. *)
Record FrameOut := mkFrameOut {
  clears : list ClearColor;
  draws : list DrawCall
}.

(** One iteration of [while (!glfwWindowShouldClose(window))]. *)
Definition frame (inp : Input) (m : Machine) : Machine * FrameOut :=
  let m := processInput inp m in
  let g := updateGameLogic (deltaTime inp) (globals m) in
  let g := updateBackgroundColor g in
  let g := if boomStarted g then updateBoomAnimation (deltaTime inp) g
           else g in
  let clear := Plain (bgRed g) (bgGreen g) (bgBlue g) in
  let clears :=
    if boomStarted g then [clear; Flash (boomTimer g * 6.28 * 5)]
    else [clear] in
  let '(g, calls) := drawLoop 0 buildingComponents g in
  (set_globals g m, mkFrameOut clears calls).

(** The driver loop over the inputs of successive frames; it stops at the
    first frame that finds the should-close flag set. *)
Fixpoint mainLoop (inputs : list Input) (m : Machine)
  : Machine * list FrameOut :=
  match inputs with
  | [] => (m, [])
  | inp :: rest =>
      if windowShouldClose m then (m, [])
      else
        let '(m1, out) := frame inp m in
        let '(m2, outs) := mainLoop rest m1 in
        (m2, out :: outs)
  end.

(** The machine after the frames of [inputs]. *)
Definition run (inputs : list Input) (m : Machine) : Machine :=
  fst (mainLoop inputs m).

(** The background a frame leaves on screen: its last clear. *)
Definition background (out : FrameOut) : option ClearColor :=
  last (map Some (clears out)) None.

(** The draw call of piece [i] in a frame, if it was drawn. *)
Definition drawnAs (i : nat) (out : FrameOut) : option DrawCall :=
  find (fun c => Nat.eqb (index c) i) (draws out).

(** *** Vocabulary of the specification *)

(** The tri-state outcome, read off the three flags. *)
Inductive Outcome := InProgress | Won | Lost.

Definition outcome (g : Globals) : option Outcome :=
  match gameActive g, gameWon g, gameLost g with
  | true, false, false => Some InProgress
  | false, true, false => Some Won
  | false, false, true => Some Lost
  | _, _, _ => None
  end.

(** All four opacities lie in [[0, 1]]. *)
Definition unitRange (v : float4) : Prop :=
  (0 <= at0 v /\ at0 v <= 1) /\ (0 <= at1 v /\ at1 v <= 1) /\
  (0 <= at2 v /\ at2 v <= 1) /\ (0 <= at3 v /\ at3 v <= 1).



(** Some pillar is strictly below [t]. *)
Definition anyBelow (t : Q) (v : float4) : Prop :=
  at0 v < t \/ at1 v < t \/ at2 v < t \/ at3 v < t.

(** Every pillar is at least [t]. *)
Definition allAtLeast (t : Q) (v : float4) : Prop :=
  t <= at0 v /\ t <= at1 v /\ t <= at2 v /\ t <= at3 v.

(** The globals of a frame when its drawing loop starts. *)
Definition beforeDraw (inp : Input) (m : Machine) : Globals :=
  let m := processInput inp m in
  let g := updateGameLogic (deltaTime inp) (globals m) in
  let g := updateBackgroundColor g in
  if boomStarted g then updateBoomAnimation (deltaTime inp) g else g.

(** No frame of [inputs] has a negative [deltaTime]. *)
Definition nonnegTicks (inputs : list Input) : Prop :=
  Forall (fun inp => 0 <= deltaTime inp) inputs.

(** This frame's R key press calls [resetGame]. *)
Definition resets (inp : Input) (m : Machine) : bool :=
  keyR inp && negb (rPressed m).

(** This frame's SPACE key press runs the boost loop. *)
Definition boosts (inp : Input) (m : Machine) : bool :=
  keySpace inp && negb (spacePressed m) && gameActive (globals m)
  && negb (boomStarted (globals m)).

(** The [glm] calls on the model of a piece that is [progress] of the way
    through its disappearance at collapse clock [clock]: translate to the
    centre, shake, rotate, scale uniformly, scale to the piece's size. *)
Definition dissolving (clock progress : Q) (comp : BuildingComponent)
  : list Xform :=
  [ Translate (x comp) (y comp);
    TranslateShake (clock * 20) (clock * 25) ((1 - progress) * 0.1);
    Rotate (progress * 3.14159 * 2);
    Scale (1 - progress * 0.8) (1 - progress * 0.8);
    Scale (width comp) (height comp) ].

(** What the drawing loop reads of piece [i]'s flag and of the collapse is
    consistent: a collapse runs only after the round ended, and a piece is
    flagged only after the round ended and, while the collapse still runs,
    only once its disappear window has passed. *)
Definition flagsConsistent (g : Globals) : Prop :=
  (boomStarted g = true -> gameActive g = false) /\
  (forall i comp,
      nth_error buildingComponents i = Some comp ->
      nth i (componentDisappeared g) false = true ->
      gameActive g = false /\
      (boomStarted g = true -> disappearTime comp + 0.5 <= boomTimer g)).

(** The drawing loop flags the piece and skips it: the collapse runs and the
    piece's progress, capped at 1, has reached 1. *)
Definition vanishes (g : Globals) (comp : BuildingComponent) : bool :=
  ltb 0 (boomTimer g - disappearTime comp) && boomStarted g
  && geb (min ((boomTimer g - disappearTime comp) / 0.5) 1) 1.

(** Piece [i] is drawn in none of the frames [outs]. *)
Definition neverDrawn (i : nat) (outs : list FrameOut) : Prop :=
  Forall (fun out => drawnAs i out = None) outs.

(** For each frame the loop runs, whether its SPACE key press ran the boost
    loop. *)
Fixpoint boostTrace (inputs : list Input) (m : Machine) : list bool :=
  match inputs with
  | [] => []
  | inp :: rest =>
      if windowShouldClose m then []
      else boosts inp m :: boostTrace rest (fst (frame inp m))
  end.

(** The boost as the specification words it: in a run from the initial
    state a frame runs the boost loop only on a rising edge of SPACE, that
    is when SPACE is down in that frame and was not down in the frame
    before it. *)
Definition specEdgeTriggered : Prop :=
  forall (inputs : list Input) (k : nat),
    nth k (boostTrace inputs initialMachine) false = true ->
    nth k (map keySpace inputs) false = true /\
    (k = 0%nat \/ nth (k - 1) (map keySpace inputs) false = false).

(** SPACE is down in every frame. *)
Definition held (inputs : list Input) : Prop :=
  Forall (fun inp => keySpace inp = true) inputs.

(** Colours, compared as rationals. *)
Definition colorEq (a b : Q * Q * Q) : Prop :=
  fst (fst a) == fst (fst b) /\ snd (fst a) == snd (fst b) /\
  snd a == snd b.

(** The blend of [a] and [b]: [a] at [f = 0], [b] at [f = 1]. *)
Definition mix (a b : Q * Q * Q) (f : Q) : Q * Q * Q :=
  (fst (fst a) + f * (fst (fst b) - fst (fst a)),
   snd (fst a) + f * (snd (fst b) - snd (fst a)),
   snd a + f * (snd b - snd a)).

(** The steady colour of a lost round. *)
Definition lostColor : Q * Q * Q := (1, 0.2, 0.2).

(** [b] is at least as bright as [a] in every channel. *)
Definition brighter (a b : Q * Q * Q) : Prop :=
  fst (fst a) <= fst (fst b) /\ snd (fst a) <= snd (fst b) /\
  snd a <= snd b.

(** [c] is a blend of [a] and [b]. *)
Definition between (a b c : Q * Q * Q) : Prop :=
  exists f : Q, 0 <= f <= 1 /\ colorEq c (mix a b f).

(** The flash as the specification words it: for some brighter variant of
    the lost colour, every colour of the flash is a blend of the lost colour
    and that variant. *)
Definition specFlash : Prop :=
  exists bright : Q * Q * Q,
    brighter lostColor bright /\
    forall sinValue : Q,
      -1 <= sinValue <= 1 -> between lostColor bright (flashColor sinValue).

(** A collapse runs only in a lost round. *)
Definition collapseMeansLost (g : Globals) : Prop :=
  boomStarted g = true -> gameLost g = true.

(** Frames that neither press R nor run time backwards. *)
Definition quietTicks (inputs : list Input) : Prop :=
  Forall (fun inp => keyR inp = false /\ 0 <= deltaTime inp) inputs.

(** The outcome after each prefix of a run from the initial state. *)
Definition outcomes (inputs : list Input) : list (option Outcome) :=
  map (fun k => outcome (globals (run (firstn k inputs) initialMachine)))
      (seq 0 (S (List.length inputs))).

(** *** Vocabulary of the further properties *)

(** How the globals of the state machine fit together: the three flags
    decode to an outcome; the round is won exactly when the timer has
    reached the round duration; a collapse runs only in a lost round and its
    clock is 0 when none runs; while the round is not lost every pillar is
    at the threshold or above; only a lost round has flagged pieces. *)
Definition roundConsistent (g : Globals) : Prop :=
  outcome g <> None /\
  (gameWon g = true <-> GAME_DURATION <= gameTimer g) /\
  (boomStarted g = true -> gameLost g = true) /\
  (boomStarted g = false -> boomTimer g = 0) /\
  (gameLost g = false -> allAtLeast OPACITY_THRESHOLD (pillarOpacity g)) /\
  (forall i comp,
      nth_error buildingComponents i = Some comp ->
      nth i (componentDisappeared g) false = true -> gameLost g = true).

(** The draw calls of the pieces [comps], numbered from [i], all at rest:
    translated to their centre and scaled to their size. *)
Fixpoint restingFrom (i : nat) (comps : list BuildingComponent)
                     (g : Globals) : list DrawCall :=
  match comps with
  | [] => []
  | comp :: rest =>
      mkDrawCall i [ Translate (x comp) (y comp);
                     Scale (width comp) (height comp) ]
                 (pieceColor g i comp)
      :: restingFrom (S i) rest g
  end.

(** The whole scene at rest. *)
Definition restingScene (g : Globals) : list DrawCall :=
  restingFrom 0 buildingComponents g.

(** Every piece of the scene is flagged. *)
Definition allFlagged (g : Globals) : Prop :=
  forall i comp,
    nth_error buildingComponents i = Some comp ->
    nth i (componentDisappeared g) false = true.

(** While a collapse runs, every piece whose disappear window has passed on
    the collapse clock is flagged. *)
Definition collapseFlagged (g : Globals) : Prop :=
  boomStarted g = true ->
  forall i comp,
    nth_error buildingComponents i = Some comp ->
    disappearTime comp + 0.5 <= boomTimer g ->
    nth i (componentDisappeared g) false = true.

(** The fields of the globals that describe the round itself. *)
Definition sameRound (g g' : Globals) : Prop :=
  pillarOpacity g' = pillarOpacity g /\ gameTimer g' = gameTimer g /\
  gameActive g' = gameActive g /\ gameWon g' = gameWon g /\
  gameLost g' = gameLost g /\ gameStatus g' = gameStatus g.

(** The R key as the frame before the next one read it: the key of the last
    frame of [inputs], or [before] when there is none. *)
Definition keyRBefore (before : bool) (inputs : list Input) : bool :=
  last (map keyR inputs) before.

(** Frames with neither SPACE nor R down and a non-negative [deltaTime]. *)
Definition idleTicks (inputs : list Input) : Prop :=
  Forall (fun inp => keySpace inp = false /\ keyR inp = false /\
                     0 <= deltaTime inp) inputs.

(** No pillar of [v] is higher than the same pillar of [w]. *)
Definition noHigher (v w : float4) : Prop :=
  at0 v <= at0 w /\ at1 v <= at1 w /\ at2 v <= at2 w /\ at3 v <= at3 w.

(** Every pillar is [t], as a number. *)
Definition allEqual (t : Q) (v : float4) : Prop :=
  at0 v == t /\ at1 v == t /\ at2 v == t /\ at3 v == t.

(** The alpha of the colour sent with a draw call. *)
Definition alpha (c : DrawCall) : Q := snd (finalColor c).

(** *** Sample runs *)

(** A frame of 2.4 seconds from the initial state: every opacity falls to
    0.52 and the collapse starts. *)
Definition collapsing : Machine :=
  run [mkInput 2.4 false false false] initialMachine.

(** A frame of 2.25 seconds from the initial state: every opacity is at the
    threshold. *)
Definition atThreshold : Machine :=
  run [mkInput 2.25 false false false] initialMachine.

(** Half-second frames. *)
Definition press : Input := mkInput 0.5 true false false.
Definition release : Input := mkInput 0.5 false false false.

(** Nineteen half-second frames that press and release SPACE in turn. *)
Definition tapping : list Input :=
  List.concat (repeat [press; release] 9) ++ [press].

(** The round is lost in the first frame; SPACE goes down in the second and
    stays down; R is pressed in the third. *)
Definition heldThroughReset : list Input :=
  [ mkInput 2.4 false false false;
    mkInput 0.05 true false false;
    mkInput 0.05 true true false;
    mkInput 0.05 true false false ].

(** The round is lost in the first frame; SPACE goes down in the second and
    stays down; R is pressed in the third, a frame of a second and a half. *)
Definition heldAcrossReset : list Input :=
  [ mkInput 2.4 false false false;
    mkInput 0.05 true false false;
    mkInput 1.5 true true false;
    mkInput 0.05 true false false ].

(** Six frames of one second each, no key pressed. *)
Definition sixSeconds : list Input :=
  repeat (mkInput 1 false false false) 6.

(** The frame after [atThreshold] that starts the collapse with the clock at
    0.6. *)
Definition crossing : Input := mkInput 0.6 false false false.

(** Unfold the assignments to single globals. *)
Ltac open_setters :=
  unfold set_pillarOpacity, set_gameTimer, set_gameActive, set_gameWon,
    set_gameLost, set_gameStatus, set_boomStarted, set_boomTimer,
    set_componentDisappeared, set_bg, set_globals, set_spacePressed,
    set_rPressed, set_windowShouldClose in *;
  cbn [pillarOpacity gameTimer gameActive gameWon gameLost gameStatus
       boomStarted boomTimer componentDisappeared bgRed bgGreen bgBlue
       globals spacePressed rPressed windowShouldClose negb] in *.

End Clicker.

(** ** The Bresenham line ([Lab_report_06/src/main.cpp]) *)

Module Line.

Open Scope Z_scope.

(** [int scale = 1000] *)
Definition scale : Z := 1000.

(** C's [round]: to the nearest integer, halfway cases away from zero. *)
Definition round (v : Q) : Z :=
  if Qle_bool 0 v then Qfloor (v + (1 # 2))%Q else Qceiling (v - (1 # 2))%Q.

(** The three floats pushed for the current position. *)
Definition vertex (x y : Z) : list Q :=
  [ (inject_Z x / inject_Z scale)%Q; (inject_Z y / inject_Z scale)%Q; 0%Q ].

(** The [while (true)] loop, with the iterations left as [fuel]; [None] means
    the fuel ran out before the [break].  [int] values are integers: the
    arithmetic of the loop is exact while it stays within the range of [int]
    (see [loopChecked]). *)
Fixpoint loop (fuel : nat) (dx dy sx sy X1 Y1 : Z) (err x y : Z)
              (pts : list Q) : option (list Q) :=
  match fuel with
  | O => None
  | S fuel =>
      let pts := pts ++ vertex x y in
      if (x =? X1) && (y =? Y1) then Some pts
      else
        let e2 := 2 * err in
        let '(err, x) := if e2 >? - dy then (err - dy, x + sx) else (err, x) in
        let '(err, y) := if e2 <? dx then (err + dx, y + sy) else (err, y) in
        loop fuel dx dy sx sy X1 Y1 err x y pts
  end.

(** [Bresenham(x0, y0, x1, y1)], given the number of loop iterations allowed. *)
Definition Bresenham (fuel : nat) (x0 y0 x1 y1 : Q) : option (list Q) :=
  let X0 := round (x0 * inject_Z scale) in
  let Y0 := round (y0 * inject_Z scale) in
  let X1 := round (x1 * inject_Z scale) in
  let Y1 := round (y1 * inject_Z scale) in
  let dx := Z.abs (X1 - X0) in
  let dy := Z.abs (Y1 - Y0) in
  let sx := if X0 <? X1 then 1 else -1 in
  let sy := if Y0 <? Y1 then 1 else -1 in
  let err := dx - dy in
  loop fuel dx dy sx sy X1 Y1 err X0 Y0 [].

(** *** The same loop on 32-bit [int]s *)

(** The values an [int] holds. *)
Definition inInt (v : Z) : bool := (- 2 ^ 31 <=? v) && (v <? 2 ^ 31).

(** An [int] operation whose result leaves the range is undefined behaviour:
    [None]. *)
Definition checked (v : Z) : option Z := if inInt v then Some v else None.

(** The result of the loop on machine integers. *)
Inductive Result :=
| Returned (pts : list Q)
| OutOfFuel
| Overflow.

Fixpoint loopChecked (fuel : nat) (dx dy sx sy X1 Y1 : Z) (err x y : Z)
                     (pts : list Q) : Result :=
  match fuel with
  | O => OutOfFuel
  | S fuel =>
      let pts := pts ++ vertex x y in
      if (x =? X1) && (y =? Y1) then Returned pts
      else
        match checked (2 * err), checked (- dy) with
        | Some e2, Some ndy =>
            let first :=
              if e2 >? ndy then
                match checked (err - dy), checked (x + sx) with
                | Some err, Some x => Some (err, x)
                | _, _ => None
                end
              else Some (err, x) in
            match first with
            | Some (err, x) =>
                let second :=
                  if e2 <? dx then
                    match checked (err + dx), checked (y + sy) with
                    | Some err, Some y => Some (err, y)
                    | _, _ => None
                    end
                  else Some (err, y) in
                match second with
                | Some (err, y) =>
                    loopChecked fuel dx dy sx sy X1 Y1 err x y pts
                | None => Overflow
                end
            | None => Overflow
            end
        | _, _ => Overflow
        end
  end.

(** [Bresenham] from the rounded endpoints on, on machine integers. *)
Definition rasterChecked (fuel : nat) (X0 Y0 X1 Y1 : Z) : Result :=
  match checked (X1 - X0), checked (Y1 - Y0) with
  | Some ddx, Some ddy =>
      match checked (Z.abs ddx), checked (Z.abs ddy) with
      | Some dx, Some dy =>
          let sx := if X0 <? X1 then 1 else -1 in
          let sy := if Y0 <? Y1 then 1 else -1 in
          match checked (dx - dy) with
          | Some err => loopChecked fuel dx dy sx sy X1 Y1 err X0 Y0 []
          | None => Overflow
          end
      | _, _ => Overflow
      end
  | _, _ => Overflow
  end.

(** The error term after [a] steps along x and [b] steps along y of a line
    with extents [dx] and [dy]. *)
Definition errAt (dx dy a b : Z) : Z := (b + 1) * dx - (a + 1) * dy.

(** The result of [loop] read as a result on machine integers. *)
Definition asResult (r : option (list Q)) : Result :=
  match r with
  | Some pts => Returned pts
  | None => OutOfFuel
  end.

(** Rounded coordinates for which no [int] of [Bresenham] overflows. *)
Definition small (v : Z) : Prop := - 2 ^ 28 <= v <= 2 ^ 28.

(** *** The positions the loop visits *)

(** [loop] with the integer position recorded instead of its three
    floats. *)
Fixpoint positions (fuel : nat) (dx dy sx sy X1 Y1 : Z) (err x y : Z)
  : option (list (Z * Z)) :=
  match fuel with
  | O => None
  | S fuel =>
      let here := (x, y) in
      if (x =? X1) && (y =? Y1) then Some [here]
      else
        let e2 := 2 * err in
        let '(err, x) := if e2 >? - dy then (err - dy, x + sx) else (err, x) in
        let '(err, y) := if e2 <? dx then (err + dx, y + sy) else (err, y) in
        option_map (cons here) (positions fuel dx dy sx sy X1 Y1 err x y)
  end.

(** The floats pushed for a list of positions. *)
Definition vertices (ps : list (Z * Z)) : list Q :=
  flat_map (fun p => vertex (fst p) (snd p)) ps.

(** The positions of [Bresenham] from the rounded endpoints on. *)
Definition raster (fuel : nat) (X0 Y0 X1 Y1 : Z) : option (list (Z * Z)) :=
  let dx := Z.abs (X1 - X0) in
  let dy := Z.abs (Y1 - Y0) in
  let sx := if X0 <? X1 then 1 else -1 in
  let sy := if Y0 <? Y1 then 1 else -1 in
  positions fuel dx dy sx sy X1 Y1 (dx - dy) X0 Y0.

(** The longer of the two extents of the line, in grid steps. *)
Definition extent (X0 Y0 X1 Y1 : Z) : Z :=
  Z.max (Z.abs (X1 - X0)) (Z.abs (Y1 - Y0)).

(** How far [a] steps along x and [b] steps along y are off the ideal line
    with extents [dx] and [dy]: the cross product of the position with the
    direction of the line. *)
Definition offAt (dx dy a b : Z) : Z := b * dx - a * dy.

(** The steps taken so far along the longer extent. *)
Definition major (dx dy a b : Z) : Z := if dy <=? dx then a else b.

(** A position of the walk from [(X0, Y0)]: within the extents of the line
    and off the ideal line by at most half the longer extent. *)
Definition onTrack (dx dy sx sy X0 Y0 : Z) (p : Z * Z) : Prop :=
  exists a b : Z,
    p = (X0 + sx * a, Y0 + sy * b) /\ 0 <= a <= dx /\ 0 <= b <= dy /\
    2 * Z.abs (offAt dx dy a b) <= Z.max dx dy.

(** The cross product of [p - (X0, Y0)] with the direction of the line from
    [(X0, Y0)] to [(X1, Y1)]: 0 on the ideal line. *)
Definition offLine (X0 Y0 X1 Y1 : Z) (p : Z * Z) : Z :=
  (X1 - X0) * (snd p - Y0) - (Y1 - Y0) * (fst p - X0).

(** The position is within half a grid step of the ideal line, measured
    along the shorter extent. *)
Definition nearLine (X0 Y0 X1 Y1 : Z) (p : Z * Z) : Prop :=
  2 * Z.abs (offLine X0 Y0 X1 Y1 p) <= extent X0 Y0 X1 Y1.

(** The position is in the bounding box of the two endpoints. *)
Definition inBox (X0 Y0 X1 Y1 : Z) (p : Z * Z) : Prop :=
  Z.min X0 X1 <= fst p <= Z.max X0 X1 /\
  Z.min Y0 Y1 <= snd p <= Z.max Y0 Y1.

(** Each position is one of the eight neighbours of the one before it. *)
Fixpoint connected (ps : list (Z * Z)) : Prop :=
  match ps with
  | p :: (q :: _) as rest =>
      Z.max (Z.abs (fst q - fst p)) (Z.abs (snd q - snd p)) = 1 /\
      connected rest
  | _ => True
  end.

(** The first and the last vertex of a point list. *)
Definition firstVertex (pts : list Q) : list Q := firstn 3 pts.

Definition lastVertex (pts : list Q) : list Q :=
  skipn (List.length pts - 3) pts.

(** The claim of termination as the specification has it, on machine
    integers: whatever [int]s the endpoints round to, the loop reaches
    [(X1, Y1)] and returns a list that starts with the start point and ends
    with the end point. *)
Definition specTerminates : Prop :=
  forall X0 Y0 X1 Y1 : Z,
    inInt X0 = true -> inInt Y0 = true ->
    inInt X1 = true -> inInt Y1 = true ->
    exists (fuel : nat) (pts : list Q),
      rasterChecked fuel X0 Y0 X1 Y1 = Returned pts /\
      firstVertex pts = vertex X0 Y0 /\ lastVertex pts = vertex X1 Y1.

End Line.

(** ** Facts about float comparison *)

Module FloatFacts.

Import Float.
Open Scope Q_scope.

Lemma ltb_lt (a b : Q) : ltb a b = true <-> a < b.
Proof.
  unfold ltb. rewrite negb_true_iff.
  split; intro H.
  - apply Qnot_le_lt. intro L. apply Qle_bool_iff in L. congruence.
  - destruct (Qle_bool b a) eqn:E; [|reflexivity].
    apply Qle_bool_iff in E. exfalso. apply (Qlt_not_le _ _ H E).
Qed.

Lemma ltb_ge (a b : Q) : ltb a b = false <-> b <= a.
Proof.
  unfold ltb. rewrite negb_false_iff. apply Qle_bool_iff.
Qed.

Lemma geb_le (a b : Q) : geb a b = true <-> b <= a.
Proof. apply Qle_bool_iff. Qed.

Lemma geb_lt (a b : Q) : geb a b = false <-> a < b.
Proof.
  unfold geb. split; intro H.
  - apply Qnot_le_lt. intro L. apply Qle_bool_iff in L. congruence.
  - destruct (Qle_bool b a) eqn:E; [|reflexivity].
    apply Qle_bool_iff in E. exfalso. apply (Qlt_not_le _ _ H E).
Qed.


Lemma max_lower (a b : Q) : b <= max a b.
Proof.
  unfold max. destruct (ltb a b) eqn:E.
  - apply Qle_refl.
  - now apply ltb_ge.
Qed.

Lemma max_upper (a b c : Q) : a <= c -> b <= c -> max a b <= c.
Proof. unfold max. now destruct (ltb a b). Qed.

Lemma min_upper (a b : Q) : min a b <= b.
Proof.
  unfold min. destruct (ltb b a) eqn:E.
  - apply Qle_refl.
  - now apply ltb_ge.
Qed.

Lemma min_lower (a b c : Q) : c <= a -> c <= b -> c <= min a b.
Proof. unfold min. now destruct (ltb b a). Qed.

Lemma min_left (a b : Q) : a <= b -> min a b = a.
Proof.
  intro H. unfold min. destruct (ltb b a) eqn:E; [|reflexivity].
  apply ltb_lt in E. exfalso. apply (Qlt_not_le _ _ E H).
Qed.

Lemma max_left_above (a b c : Q) : b < c -> c <= max a b -> max a b = a.
Proof.
  intros Hb Hc. unfold max in *. destruct (ltb a b) eqn:E; [|reflexivity].
  exfalso. apply (Qlt_not_le _ _ Hb Hc).
Qed.

End FloatFacts.

(** ** The clicker game: properties *)

Module ClickerProofs.

Import Float FloatFacts Clicker.
Open Scope Q_scope.

Lemma exists4_below (t : Q) (v : float4) :
  exists4 (fun p => ltb p t) v = true <-> anyBelow t v.
Proof.
  unfold exists4, anyBelow.
  rewrite !orb_true_iff, !ltb_lt. tauto.
Qed.

Lemma exists4_not_below (t : Q) (v : float4) :
  exists4 (fun p => ltb p t) v = false <-> allAtLeast t v.
Proof.
  unfold exists4, allAtLeast.
  rewrite !orb_false_iff, !ltb_ge. tauto.
Qed.

Lemma anyBelow_or_allAtLeast (t : Q) (v : float4) :
  anyBelow t v \/ allAtLeast t v.
Proof.
  destruct (exists4 (fun p => ltb p t) v) eqn:E.
  - left. now apply exists4_below.
  - right. now apply exists4_not_below.
Qed.

Lemma outcome_InProgress (g : Globals) :
  outcome g = Some InProgress <->
  gameActive g = true /\ gameWon g = false /\ gameLost g = false.
Proof.
  unfold outcome.
  destruct (gameActive g), (gameWon g), (gameLost g); split;
    try discriminate; intuition congruence.
Qed.

Lemma outcome_Lost (g : Globals) :
  outcome g = Some Lost <->
  gameActive g = false /\ gameWon g = false /\ gameLost g = true.
Proof.
  unfold outcome.
  destruct (gameActive g), (gameWon g), (gameLost g); split;
    try discriminate; intuition congruence.
Qed.

Lemma outcome_Won (g : Globals) :
  outcome g = Some Won <->
  gameActive g = false /\ gameWon g = true /\ gameLost g = false.
Proof.
  unfold outcome.
  destruct (gameActive g), (gameWon g), (gameLost g); split;
    try discriminate; intuition congruence.
Qed.

(** [updateGameLogic] on a tick that finds a pillar below the threshold. *)
Lemma updateGameLogic_lose (dt : Q) (g : Globals) :
  gameActive g = true -> boomStarted g = false ->
  anyBelow OPACITY_THRESHOLD (decay dt (pillarOpacity g)) ->
  updateGameLogic dt g =
  {| pillarOpacity := decay dt (pillarOpacity g);
     gameTimer := gameTimer g;
     gameActive := false;
     gameWon := gameWon g;
     gameLost := true;
     gameStatus := "LOST! Pillars collapsed!";
     boomStarted := true;
     boomTimer := 0;
     componentDisappeared := componentDisappeared g;
     bgRed := bgRed g;
     bgGreen := bgGreen g;
     bgBlue := bgBlue g |}.
Proof.
  intros Ha Hb Hany. apply exists4_below in Hany.
  unfold updateGameLogic. rewrite Ha, Hb. cbn [negb orb].
  cbn [set_pillarOpacity pillarOpacity].
  rewrite Hany. reflexivity.
Qed.

(** [updateGameLogic] on a tick that finds every pillar at the threshold or
    above. *)
Lemma updateGameLogic_survive (dt : Q) (g : Globals) :
  gameActive g = true -> boomStarted g = false ->
  allAtLeast OPACITY_THRESHOLD (decay dt (pillarOpacity g)) ->
  updateGameLogic dt g =
  let won := geb (gameTimer g + dt) GAME_DURATION in
  {| pillarOpacity := decay dt (pillarOpacity g);
     gameTimer := gameTimer g + dt;
     gameActive := negb won;
     gameWon := if won then true else gameWon g;
     gameLost := gameLost g;
     gameStatus := if won then "WON! Campus Saved!"%string else gameStatus g;
     boomStarted := false;
     boomTimer := boomTimer g;
     componentDisappeared := componentDisappeared g;
     bgRed := bgRed g;
     bgGreen := bgGreen g;
     bgBlue := bgBlue g |}.
Proof.
  intros Ha Hb Hall. apply exists4_not_below in Hall.
  unfold updateGameLogic. rewrite Ha, Hb. cbn [negb orb].
  cbn [set_pillarOpacity pillarOpacity].
  rewrite Hall. cbn.
  destruct (geb (gameTimer g + dt) GAME_DURATION); open_setters;
    now rewrite ?Ha, ?Hb.
Qed.

(** [updateGameLogic] does nothing once the round is over or while the
    collapse runs. *)
Lemma updateGameLogic_idle (dt : Q) (g : Globals) :
  gameActive g = false \/ boomStarted g = true -> updateGameLogic dt g = g.
Proof.
  intros [H|H]; unfold updateGameLogic; rewrite H; cbn;
    [reflexivity | now rewrite orb_true_r].
Qed.

(** C1. On a tick taken while the outcome is InProgress and no collapse
    runs, [updateGameLogic] first decays the four opacities; if one of them
    is then strictly below 0.55 the outcome becomes Lost and the collapse
    starts (flag set, clock 0) with the elapsed time left as it was and the
    won flag untouched, whatever the elapsed time would have become.  Hence
    no tick sets both the won and the lost flag. *)
Theorem updateGameLogic_lose_first (dt : Q) (g : Globals) :
  outcome g = Some InProgress -> boomStarted g = false ->
  let g' := updateGameLogic dt g in
  pillarOpacity g' = decay dt (pillarOpacity g) /\
  (anyBelow OPACITY_THRESHOLD (decay dt (pillarOpacity g)) ->
   outcome g' = Some Lost /\ boomStarted g' = true /\ boomTimer g' = 0 /\
   gameTimer g' = gameTimer g /\ gameWon g' = false) /\
  (outcome g' = Some Won ->
   allAtLeast OPACITY_THRESHOLD (decay dt (pillarOpacity g)) /\
   GAME_DURATION <= gameTimer g + dt) /\
  ~ (gameWon g' = true /\ gameLost g' = true).
Proof.
  intros Ho Hb. apply outcome_InProgress in Ho. destruct Ho as (Ha & Hw & Hl).
  cbv zeta.
  destruct (anyBelow_or_allAtLeast OPACITY_THRESHOLD
              (decay dt (pillarOpacity g))) as [Hany|Hall].
  - rewrite (updateGameLogic_lose dt g Ha Hb Hany). cbn.
    unfold outcome. cbn. rewrite Hw. cbn.
    repeat split; try reflexivity; try discriminate.
    intros [? ?]; discriminate.
  - rewrite (updateGameLogic_survive dt g Ha Hb Hall). cbn.
    split; [reflexivity|]. split; [|split].
    + intro Hany. exfalso. unfold anyBelow, allAtLeast in *.
      destruct Hall as (H0 & H1 & H2 & H3).
      destruct Hany as [H|[H|[H|H]]];
        eapply Qlt_not_le; eauto.
    + intro H. split; [exact Hall|].
      unfold outcome in H. cbn in H.
      destruct (geb (gameTimer g + dt) GAME_DURATION) eqn:E; cbn in H.
      * now apply geb_le in E.
      * rewrite Hw, Hl in H. discriminate.
    + rewrite Hl. intros [_ ?]; discriminate.
Qed.

(** *** What the drawing loop leaves of the globals *)

Lemma assign_length (i : nat) (v : bool) (flags : list bool) :
  List.length (assign i v flags) = List.length flags.
Proof.
  revert i. induction flags as [|b rest IH]; intros [|j]; cbn; auto.
Qed.

Lemma nth_assign_same (i : nat) (v : bool) (flags : list bool) :
  (i < List.length flags)%nat -> nth i (assign i v flags) false = v.
Proof.
  revert i. induction flags as [|b rest IH]; intros [|j] H; cbn in *;
    try lia; auto. apply IH. lia.
Qed.

Lemma nth_assign_other (i j : nat) (v : bool) (flags : list bool) :
  i <> j -> nth j (assign i v flags) false = nth j flags false.
Proof.
  revert i j. induction flags as [|b rest IH]; intros [|i] [|j] H; cbn;
    try congruence; auto.
Qed.

Lemma drawComponent_globals (i : nat) (comp : BuildingComponent)
      (g : Globals) :
  fst (drawComponent i comp g) =
  set_componentDisappeared
    (componentDisappeared (fst (drawComponent i comp g))) g.
Proof.
  unfold drawComponent.
  destruct (ltb 0 (boomTimer g - disappearTime comp) && boomStarted g).
  - destruct (geb (min ((boomTimer g - disappearTime comp) / 0.5) 1) 1);
      destruct g; reflexivity.
  - destruct (negb (nth i (componentDisappeared g) false));
      destruct g; reflexivity.
Qed.

Lemma drawLoop_globals (comps : list BuildingComponent) (i : nat)
      (g : Globals) :
  fst (drawLoop i comps g) =
  set_componentDisappeared
    (componentDisappeared (fst (drawLoop i comps g))) g.
Proof.
  revert i g. induction comps as [|comp rest IH]; intros i g; cbn.
  - destruct g; reflexivity.
  - pose proof (drawComponent_globals i comp g) as H1.
    destruct (drawComponent i comp g) as [g1 call]. cbn in H1.
    pose proof (IH (S i) g1) as H2.
    destruct (drawLoop (S i) rest g1) as [g2 calls]. cbn in *.
    rewrite H2, H1. reflexivity.
Qed.

Lemma frame_globals (inp : Input) (m : Machine) :
  globals (fst (frame inp m)) =
  set_componentDisappeared
    (componentDisappeared (globals (fst (frame inp m)))) (beforeDraw inp m).
Proof.
  unfold frame, beforeDraw.
  set (g := if boomStarted _ then _ else _).
  pose proof (drawLoop_globals buildingComponents 0 g) as H.
  destruct (drawLoop 0 buildingComponents g) as [g' calls]. cbn in *.
  exact H.
Qed.

Lemma frame_latches (inp : Input) (m : Machine) :
  spacePressed (fst (frame inp m)) = spacePressed (processInput inp m) /\
  rPressed (fst (frame inp m)) = rPressed (processInput inp m) /\
  windowShouldClose (fst (frame inp m)) =
  windowShouldClose (processInput inp m).
Proof.
  unfold frame.
  destruct (drawLoop 0 buildingComponents _) as [g' calls]. cbn. auto.
Qed.

Lemma run_nil (m : Machine) : run [] m = m.
Proof. reflexivity. Qed.

Lemma run_cons (inp : Input) (rest : list Input) (m : Machine) :
  run (inp :: rest) m =
  if windowShouldClose m then m else run rest (fst (frame inp m)).
Proof.
  unfold run. cbn. destruct (windowShouldClose m); [reflexivity|].
  destruct (frame inp m) as [m1 out]. cbn.
  destruct (mainLoop rest m1) as [m2 outs]. reflexivity.
Qed.

(** A property of the machine that holds at the start and that every frame
    whose input is [ok] keeps holds after every run over [ok] inputs. *)
Lemma run_invariant (ok : Input -> Prop) (P : Machine -> Prop) :
  (forall inp m, ok inp -> P m -> P (fst (frame inp m))) ->
  forall inputs m, Forall ok inputs -> P m -> P (run inputs m).
Proof.
  intros Hstep inputs. induction inputs as [|inp rest IH]; intros m Hok Hm.
  - exact Hm.
  - rewrite run_cons. destruct (windowShouldClose m); [exact Hm|].
    inversion Hok; subst. apply IH; [assumption|]. now apply Hstep.
Qed.

Lemma Forall_True {A : Type} (l : list A) : Forall (fun _ => True) l.
Proof. induction l; constructor; auto. Qed.

(** *** [processInput], effect by effect *)

Lemma processInput_globals (inp : Input) (m : Machine) :
  globals (processInput inp m) =
  let g :=
    if boosts inp m
    then set_pillarOpacity (boost (pillarOpacity (globals m))) (globals m)
    else globals m in
  if resets inp m then resetGame g else g.
Proof.
  destruct m as [g sp rp wc], inp as [dt ks kr ke].
  unfold processInput, boosts, resets.
  destruct ke, ks, sp, kr, rp; cbn -[boost resetGame]; open_setters;
    cbn -[boost resetGame];
    destruct (gameActive g), (boomStarted g); reflexivity.
Qed.

Lemma processInput_spacePressed (inp : Input) (m : Machine) :
  spacePressed (processInput inp m) =
  keySpace inp &&
  (spacePressed m
   || (gameActive (globals m) && negb (boomStarted (globals m)))).
Proof.
  destruct m as [g sp rp wc], inp as [dt ks kr ke].
  unfold processInput.
  destruct ke, ks, sp, kr, rp; cbn -[boost resetGame]; open_setters;
    cbn -[boost resetGame];
    destruct (gameActive g), (boomStarted g); reflexivity.
Qed.

Lemma processInput_rPressed (inp : Input) (m : Machine) :
  rPressed (processInput inp m) = keyR inp.
Proof.
  destruct m as [g sp rp wc], inp as [dt ks kr ke].
  unfold processInput.
  destruct ke, ks, sp, kr, rp; cbn -[boost resetGame]; open_setters;
    cbn -[boost resetGame];
    destruct (gameActive g), (boomStarted g); reflexivity.
Qed.

Lemma processInput_windowShouldClose (inp : Input) (m : Machine) :
  windowShouldClose (processInput inp m) =
  keyEscape inp || windowShouldClose m.
Proof.
  destruct m as [g sp rp wc], inp as [dt ks kr ke].
  unfold processInput.
  destruct ke, ks, sp, kr, rp; cbn -[boost resetGame]; open_setters;
    cbn -[boost resetGame];
    destruct (gameActive g), (boomStarted g); reflexivity.
Qed.

(** *** Opacities stay within the unit range *)

Lemma decay_component (dt p : Q) :
  0 <= dt -> 0 <= p <= 1 ->
  0 <= max (p - OPACITY_FADE_RATE * dt) 0 <= 1.
Proof.
  intros Hdt [H0 H1]. split.
  - apply (Qle_trans _ 0); [lra | apply max_lower].
  - apply max_upper; unfold OPACITY_FADE_RATE; lra.
Qed.

Lemma boost_component (p : Q) :
  0 <= p <= 1 -> 0 <= min (p + OPACITY_GAIN_RATE) 1 <= 1.
Proof.
  intros [H0 H1]. split.
  - apply min_lower; unfold OPACITY_GAIN_RATE; lra.
  - apply (Qle_trans _ 1); [apply min_upper | lra].
Qed.

Lemma decay_unitRange (dt : Q) (v : float4) :
  0 <= dt -> unitRange v -> unitRange (decay dt v).
Proof.
  intros Hdt (H0 & H1 & H2 & H3). unfold unitRange, decay, map4. cbn.
  repeat split; now apply decay_component.
Qed.

Lemma boost_unitRange (v : float4) : unitRange v -> unitRange (boost v).
Proof.
  intros (H0 & H1 & H2 & H3). unfold unitRange, boost, map4. cbn.
  repeat split; now apply boost_component.
Qed.

Lemma resetGame_unitRange (g : Globals) :
  unitRange (pillarOpacity (resetGame g)).
Proof. unfold unitRange. cbn. repeat split; lra. Qed.

Lemma processInput_unitRange (inp : Input) (m : Machine) :
  unitRange (pillarOpacity (globals m)) ->
  unitRange (pillarOpacity (globals (processInput inp m))).
Proof.
  intro H. rewrite processInput_globals. cbv zeta.
  destruct (resets inp m); [apply resetGame_unitRange|].
  destruct (boosts inp m); [|exact H].
  cbn. now apply boost_unitRange.
Qed.

Lemma updateGameLogic_opacity (dt : Q) (g : Globals) :
  pillarOpacity (updateGameLogic dt g) =
  if negb (gameActive g) || boomStarted g then pillarOpacity g
  else decay dt (pillarOpacity g).
Proof.
  unfold updateGameLogic.
  destruct (negb (gameActive g) || boomStarted g); [reflexivity|].
  cbn [set_pillarOpacity pillarOpacity].
  destruct (exists4 _ _); [reflexivity|].
  cbn [set_gameTimer gameTimer].
  destruct (geb _ _); reflexivity.
Qed.

Lemma updateBackgroundColor_frame (g : Globals) :
  updateBackgroundColor g =
  set_bg (bgRed (updateBackgroundColor g)) (bgGreen (updateBackgroundColor g))
         (bgBlue (updateBackgroundColor g)) g.
Proof.
  unfold updateBackgroundColor.
  destruct (negb (gameLost g) && gameActive g); [reflexivity|].
  destruct (gameLost g); [reflexivity|].
  destruct (gameWon g); [reflexivity|]. destruct g; reflexivity.
Qed.

Lemma updateBoomAnimation_frame (dt : Q) (g : Globals) :
  updateBoomAnimation dt g =
  set_boomStarted (boomStarted (updateBoomAnimation dt g))
    (set_boomTimer (boomTimer (updateBoomAnimation dt g)) g).
Proof.
  unfold updateBoomAnimation. cbn [set_boomTimer boomTimer].
  destruct (geb (boomTimer g + dt) BOOM_DURATION); destruct g; reflexivity.
Qed.

Lemma beforeDraw_opacity (inp : Input) (m : Machine) :
  pillarOpacity (beforeDraw inp m) =
  pillarOpacity (updateGameLogic (deltaTime inp)
                                 (globals (processInput inp m))).
Proof.
  unfold beforeDraw.
  set (g := updateGameLogic _ _).
  rewrite (updateBackgroundColor_frame g).
  set (c := updateBackgroundColor g).
  destruct (boomStarted (set_bg _ _ _ g)); [|reflexivity].
  rewrite updateBoomAnimation_frame. reflexivity.
Qed.

Lemma frame_opacity (inp : Input) (m : Machine) :
  pillarOpacity (globals (fst (frame inp m))) =
  pillarOpacity (updateGameLogic (deltaTime inp)
                                 (globals (processInput inp m))).
Proof.
  rewrite frame_globals. cbn [set_componentDisappeared pillarOpacity].
  apply beforeDraw_opacity.
Qed.

Lemma frame_unitRange (inp : Input) (m : Machine) :
  0 <= deltaTime inp ->
  unitRange (pillarOpacity (globals m)) ->
  unitRange (pillarOpacity (globals (fst (frame inp m)))).
Proof.
  intros Hdt H. rewrite frame_opacity, updateGameLogic_opacity.
  apply (processInput_unitRange inp) in H.
  destruct (negb _ || _); [exact H|]. now apply decay_unitRange.
Qed.

(** C2. Along every run of the game from its initial state in which no
    frame has a negative [deltaTime], whatever the SPACE and R keys do, the
    four pillar opacities are within [[0, 1]] after every frame; the decay
    step is [max (p - 0.2 * dt) 0] and the boost step is [min (p + 0.25) 1]
    on each opacity, and each keeps the range. *)
Theorem opacity_in_unit_range (inputs : list Input) :
  nonnegTicks inputs ->
  (forall k : nat,
      unitRange
        (pillarOpacity (globals (run (firstn k inputs) initialMachine)))) /\
  (forall dt v,
      decay dt v = map4 (fun p => max (p - 0.2 * dt) 0) v /\
      (0 <= dt -> unitRange v -> unitRange (decay dt v))) /\
  (forall v,
      boost v = map4 (fun p => min (p + 0.25) 1) v /\
      (unitRange v -> unitRange (boost v))).
Proof.
  intro Hdt. split; [|split].
  - intro k.
    apply (run_invariant (fun inp => 0 <= deltaTime inp)
             (fun m => unitRange (pillarOpacity (globals m)))).
    + intros inp m. apply frame_unitRange.
    + unfold nonnegTicks in *. apply Forall_forall. intros inp Hin.
      rewrite Forall_forall in Hdt. apply Hdt.
      rewrite <- (firstn_skipn k inputs). apply in_or_app. now left.
    + unfold unitRange. cbn. repeat split; lra.
  - intros dt v. split; [reflexivity|apply decay_unitRange].
  - intro v. split; [reflexivity|apply boost_unitRange].
Qed.

(** The theorem at a run of three frames: a boost, then two seconds of
    decay that end the round, then a reset. *)
Lemma opacity_in_unit_range_witness :
  nonnegTicks [mkInput 0.5 true false false; mkInput 2 false false false;
               mkInput 0.1 false true false] /\
  unitRange
    (pillarOpacity
       (globals
          (run [mkInput 0.5 true false false; mkInput 2 false false false;
                mkInput 0.1 false true false] initialMachine))).
Proof.
  assert (H : nonnegTicks
                [mkInput 0.5 true false false; mkInput 2 false false false;
                 mkInput 0.1 false true false]).
  { repeat constructor; cbn; lra. }
  split; [exact H|].
  exact (proj1 (opacity_in_unit_range _ H) 3%nat).
Defined.

(** *** Reset *)

Lemma drawComponent_length (i : nat) (comp : BuildingComponent)
      (g : Globals) :
  List.length (componentDisappeared (fst (drawComponent i comp g))) =
  List.length (componentDisappeared g).
Proof.
  unfold drawComponent.
  destruct (ltb 0 (boomTimer g - disappearTime comp) && boomStarted g).
  - destruct (geb (min ((boomTimer g - disappearTime comp) / 0.5) 1) 1);
      cbn; [apply assign_length | reflexivity].
  - destruct (negb (nth i (componentDisappeared g) false)); reflexivity.
Qed.

Lemma drawLoop_length (comps : list BuildingComponent) (i : nat)
      (g : Globals) :
  List.length (componentDisappeared (fst (drawLoop i comps g))) =
  List.length (componentDisappeared g).
Proof.
  revert i g. induction comps as [|comp rest IH]; intros i g; cbn.
  - reflexivity.
  - pose proof (drawComponent_length i comp g) as H1.
    destruct (drawComponent i comp g) as [g1 call]. cbn in H1.
    pose proof (IH (S i) g1) as H2.
    destruct (drawLoop (S i) rest g1) as [g2 calls]. cbn in *.
    congruence.
Qed.

Lemma updateGameLogic_flags (dt : Q) (g : Globals) :
  componentDisappeared (updateGameLogic dt g) = componentDisappeared g.
Proof.
  unfold updateGameLogic.
  destruct (negb (gameActive g) || boomStarted g); [reflexivity|].
  cbn [set_pillarOpacity pillarOpacity].
  destruct (exists4 _ _); [reflexivity|].
  cbn [set_gameTimer gameTimer].
  destruct (geb _ _); reflexivity.
Qed.

Lemma processInput_length (inp : Input) (m : Machine) :
  List.length (componentDisappeared (globals (processInput inp m))) =
  List.length (componentDisappeared (globals m)).
Proof.
  rewrite processInput_globals.
  destruct (resets inp m), (boosts inp m); cbn; rewrite ?length_map;
    reflexivity.
Qed.

Lemma beforeDraw_flags (inp : Input) (m : Machine) :
  componentDisappeared (beforeDraw inp m) =
  componentDisappeared (globals (processInput inp m)).
Proof.
  unfold beforeDraw.
  set (g := updateGameLogic _ _).
  rewrite (updateBackgroundColor_frame g).
  destruct (boomStarted (set_bg _ _ _ g)).
  - rewrite updateBoomAnimation_frame. cbn. apply updateGameLogic_flags.
  - cbn. apply updateGameLogic_flags.
Qed.

Lemma frame_length (inp : Input) (m : Machine) :
  List.length (componentDisappeared (globals (fst (frame inp m)))) =
  List.length (componentDisappeared (globals m)).
Proof.
  unfold frame. fold (beforeDraw inp m).
  pose proof (drawLoop_length buildingComponents 0 (beforeDraw inp m)) as H.
  destruct (drawLoop 0 buildingComponents (beforeDraw inp m)) as [g' calls].
  cbn in *. rewrite H, beforeDraw_flags. apply processInput_length.
Qed.

Lemma resetGame_eq (g : Globals) :
  resetGame g =
  {| pillarOpacity := mkFloat4 1 1 1 1;
     gameTimer := 0;
     gameActive := true;
     gameWon := false;
     gameLost := false;
     gameStatus := "Keep Clicking!";
     boomStarted := false;
     boomTimer := 0;
     componentDisappeared := map (fun _ => false) (componentDisappeared g);
     bgRed := 1;
     bgGreen := 1;
     bgBlue := 1 |}.
Proof. destruct g. reflexivity. Qed.

Lemma map_false_repeat (flags : list bool) :
  map (fun _ => false) flags = repeat false (List.length flags).
Proof.
  induction flags as [|b rest IH]; cbn; [reflexivity | now rewrite IH].
Qed.

Lemma resetGame_is_initial (g : Globals) :
  List.length (componentDisappeared g) = List.length buildingComponents ->
  resetGame g = initialGlobals.
Proof.
  intro H. rewrite resetGame_eq, map_false_repeat, H. reflexivity.
Qed.

(** C6. After any run of the game from its initial state (any ticks, key
    presses and collapse activity), [resetGame] yields exactly the globals
    the program starts with: opacities 1, timer 0, round active and neither
    won nor lost, default status message, no collapse and its clock 0, every
    disappeared flag false, white background. *)
Theorem resetGame_restores_initial (inputs : list Input) :
  resetGame (globals (run inputs initialMachine)) = initialGlobals /\
  initialGlobals =
  {| pillarOpacity := mkFloat4 1 1 1 1;
     gameTimer := 0;
     gameActive := true;
     gameWon := false;
     gameLost := false;
     gameStatus := "Keep Clicking!";
     boomStarted := false;
     boomTimer := 0;
     componentDisappeared := repeat false 29;
     bgRed := 1;
     bgGreen := 1;
     bgBlue := 1 |} /\
  outcome initialGlobals = Some InProgress.
Proof.
  split; [|split; reflexivity].
  apply resetGame_is_initial.
  apply (run_invariant (fun _ => True)
           (fun m => List.length (componentDisappeared (globals m)) =
                     List.length buildingComponents)).
  - intros inp m _ H. now rewrite frame_length.
  - apply Forall_True.
  - reflexivity.
Qed.

(** *** The frame as a whole *)

Lemma beforeDraw_eq (inp : Input) (m : Machine) :
  beforeDraw inp m =
  let g := updateGameLogic (deltaTime inp) (globals (processInput inp m)) in
  let c := updateBackgroundColor g in
  set_bg (bgRed c) (bgGreen c) (bgBlue c)
    (if boomStarted g then updateBoomAnimation (deltaTime inp) g else g).
Proof.
  unfold beforeDraw. cbv zeta.
  set (g := updateGameLogic _ _).
  pose proof (updateBackgroundColor_frame g) as E.
  set (c := updateBackgroundColor g) in *.
  remember (bgRed c) as r. remember (bgGreen c) as gr.
  remember (bgBlue c) as b. rewrite E.
  cbn [set_bg boomStarted].
  destruct (boomStarted g); [|reflexivity].
  unfold updateBoomAnimation. cbn [set_boomTimer boomTimer set_bg].
  destruct (geb (boomTimer g + deltaTime inp) BOOM_DURATION); reflexivity.
Qed.

Lemma frame_logic (inp : Input) (m : Machine) :
  globals (fst (frame inp m)) =
  let g := updateGameLogic (deltaTime inp) (globals (processInput inp m)) in
  let c := updateBackgroundColor g in
  set_componentDisappeared
    (componentDisappeared (globals (fst (frame inp m))))
    (set_bg (bgRed c) (bgGreen c) (bgBlue c)
       (if boomStarted g then updateBoomAnimation (deltaTime inp) g else g)).
Proof. rewrite frame_globals at 1. now rewrite beforeDraw_eq. Qed.

Lemma run_closed (inputs : list Input) (m : Machine) :
  windowShouldClose m = true -> run inputs m = m.
Proof.
  intro H. destruct inputs; [reflexivity|]. rewrite run_cons. now rewrite H.
Qed.

Lemma run_app (l1 l2 : list Input) (m : Machine) :
  run (l1 ++ l2) m = run l2 (run l1 m).
Proof.
  revert m. induction l1 as [|inp rest IH]; intro m; [reflexivity|].
  cbn [app]. rewrite !run_cons.
  destruct (windowShouldClose m) eqn:E; [|apply IH].
  now rewrite run_closed.
Qed.

Lemma run_snoc (l : list Input) (inp : Input) (m : Machine) :
  run (l ++ [inp]) m =
  if windowShouldClose (run l m) then run l m
  else fst (frame inp (run l m)).
Proof. rewrite run_app, run_cons. reflexivity. Qed.

(** The theorem at the initial state with a frame of three seconds, which
    brings every opacity to 0.4. *)
Lemma updateGameLogic_lose_first_witness :
  outcome (updateGameLogic 3 initialGlobals) = Some Lost /\
  boomStarted (updateGameLogic 3 initialGlobals) = true /\
  gameTimer (updateGameLogic 3 initialGlobals) = 0.
Proof.
  destruct (updateGameLogic_lose_first 3 initialGlobals eq_refl eq_refl)
    as (_ & H & _).
  destruct H as (Ho & Hb & _ & Ht & _).
  - left. vm_compute. reflexivity.
  - auto.
Defined.

(** *** The collapse clock and the Lost outcome *)

Lemma updateBoomAnimation_outcome (dt : Q) (g : Globals) :
  outcome (updateBoomAnimation dt g) = outcome g.
Proof. rewrite updateBoomAnimation_frame. reflexivity. Qed.

Lemma processInput_keeps_lost (inp : Input) (m : Machine) :
  outcome (globals m) = Some Lost -> resets inp m = false ->
  globals (processInput inp m) = globals m.
Proof.
  intros Ho Hr. apply outcome_Lost in Ho. destruct Ho as (Ha & _ & _).
  rewrite processInput_globals, Hr. unfold boosts. rewrite Ha.
  now rewrite andb_false_r.
Qed.

Lemma frame_keeps_lost (inp : Input) (m : Machine) :
  outcome (globals m) = Some Lost -> resets inp m = false ->
  outcome (globals (fst (frame inp m))) = Some Lost.
Proof.
  intros Ho Hr. rewrite frame_logic. cbv zeta.
  rewrite (processInput_keeps_lost inp m Ho Hr).
  rewrite updateGameLogic_idle
    by (left; apply outcome_Lost in Ho; tauto).
  destruct (boomStarted (globals m)).
  - rewrite updateBoomAnimation_frame. exact Ho.
  - exact Ho.
Qed.

(** C7. [updateBoomAnimation] adds [dt] to the collapse clock; when the sum
    reaches [BOOM_DURATION] (2.5) the collapse is switched off and its clock
    is 0 again.  It never changes the outcome, and a Lost round stays Lost
    over every frame that does not call [resetGame], hence over every run in
    which R is not pressed. *)
Theorem collapse_clock_and_lost (dt : Q) (inputs : list Input) (inp : Input)
        (m : Machine) :
  outcome (globals m) = Some Lost ->
  Forall (fun i => keyR i = false) inputs ->
  let g := globals m in
  (boomTimer g + dt < BOOM_DURATION ->
   boomTimer (updateBoomAnimation dt g) = boomTimer g + dt /\
   boomStarted (updateBoomAnimation dt g) = boomStarted g) /\
  (BOOM_DURATION <= boomTimer g + dt ->
   boomTimer (updateBoomAnimation dt g) = 0 /\
   boomStarted (updateBoomAnimation dt g) = false) /\
  outcome (updateBoomAnimation dt g) = Some Lost /\
  (resets inp m = false -> outcome (globals (fst (frame inp m))) = Some Lost)
  /\
  outcome (globals (run inputs m)) = Some Lost.
Proof.
  intros Ho Hr. cbv zeta. repeat split.
  - unfold updateBoomAnimation. cbn [set_boomTimer boomTimer].
    apply geb_lt in H. now rewrite H.
  - unfold updateBoomAnimation. cbn [set_boomTimer boomTimer].
    apply geb_lt in H. now rewrite H.
  - unfold updateBoomAnimation. cbn [set_boomTimer boomTimer].
    apply geb_le in H. now rewrite H.
  - unfold updateBoomAnimation. cbn [set_boomTimer boomTimer].
    apply geb_le in H. now rewrite H.
  - now rewrite updateBoomAnimation_outcome.
  - now apply frame_keeps_lost.
  - apply (run_invariant (fun i => keyR i = false)
             (fun m => outcome (globals m) = Some Lost)); auto.
    intros i m' Hi Hm. apply frame_keeps_lost; [exact Hm|].
    unfold resets. now rewrite Hi.
Qed.

(** *** The background colour *)




(** The theorem on the collapsing machine: a frame of 0.2 seconds takes the
    clock from 2.4 past 2.5, and three more frames leave the round lost. *)
Lemma collapse_clock_and_lost_witness :
  outcome (globals collapsing) = Some Lost /\
  boomTimer (updateBoomAnimation 0.2 (globals collapsing)) = 0 /\
  boomStarted (updateBoomAnimation 0.2 (globals collapsing)) = false /\
  outcome (globals (run [press; release; press] collapsing)) = Some Lost.
Proof.
  assert (Ho : outcome (globals collapsing) = Some Lost) by reflexivity.
  assert (Hr : Forall (fun i => keyR i = false) [press; release; press])
    by (repeat constructor).
  destruct (collapse_clock_and_lost 0.2 _ press collapsing Ho Hr)
    as (_ & Hend & _ & _ & Hrun).
  destruct Hend as [Ht Hb].
  - vm_compute. intro H. discriminate H.
  - auto.
Defined.


(** *** The drawing loop, piece by piece *)

Lemma drawComponent_fst (i : nat) (comp : BuildingComponent) (g : Globals) :
  fst (drawComponent i comp g) =
  if vanishes g comp
  then set_componentDisappeared (assign i true (componentDisappeared g)) g
  else g.
Proof.
  unfold drawComponent, vanishes.
  destruct (ltb 0 (boomTimer g - disappearTime comp) && boomStarted g);
    cbn [andb].
  - destruct (geb (min ((boomTimer g - disappearTime comp) / 0.5) 1) 1);
      reflexivity.
  - destruct (negb (nth i (componentDisappeared g) false)); reflexivity.
Qed.

Lemma drawComponent_snd (i : nat) (comp : BuildingComponent) (g : Globals) :
  snd (drawComponent i comp g) =
  let t := boomTimer g - disappearTime comp in
  if vanishes g comp then None
  else if ltb 0 t && boomStarted g
       then Some (mkDrawCall i (dissolving (boomTimer g) (min (t / 0.5) 1)
                                           comp)
                             (pieceColor g i comp))
       else if nth i (componentDisappeared g) false then None
            else Some (mkDrawCall i [ Translate (x comp) (y comp);
                                      Scale (width comp) (height comp) ]
                                  (pieceColor g i comp)).
Proof.
  unfold drawComponent, vanishes. cbv zeta.
  destruct (ltb 0 (boomTimer g - disappearTime comp) && boomStarted g);
    cbn [andb].
  - destruct (geb (min ((boomTimer g - disappearTime comp) / 0.5) 1) 1);
      reflexivity.
  - destruct (nth i (componentDisappeared g) false); reflexivity.
Qed.

Lemma drawComponent_index (i : nat) (comp : BuildingComponent) (g : Globals)
      (c : DrawCall) :
  snd (drawComponent i comp g) = Some c -> index c = i.
Proof.
  rewrite drawComponent_snd. cbv zeta.
  destruct (vanishes g comp); [discriminate|].
  destruct (ltb 0 _ && boomStarted g).
  - intro H. injection H as <-. reflexivity.
  - destruct (nth i (componentDisappeared g) false); [discriminate|].
    intro H. injection H as <-. reflexivity.
Qed.

Lemma drawComponent_flag_other (i j : nat) (comp : BuildingComponent)
      (g : Globals) :
  i <> j ->
  nth j (componentDisappeared (fst (drawComponent i comp g))) false =
  nth j (componentDisappeared g) false.
Proof.
  intro H. rewrite drawComponent_fst.
  destruct (vanishes g comp); [|reflexivity].
  cbn. now apply nth_assign_other.
Qed.

(** A draw call and a flag of piece [i] depend on the globals only through
    the collapse, the round and the piece's own flag. *)
Lemma drawComponent_ext (i : nat) (comp : BuildingComponent) (g : Globals)
      (flags : list bool) :
  nth i flags false = nth i (componentDisappeared g) false ->
  List.length flags = List.length (componentDisappeared g) ->
  snd (drawComponent i comp (set_componentDisappeared flags g)) =
  snd (drawComponent i comp g) /\
  nth i (componentDisappeared
           (fst (drawComponent i comp (set_componentDisappeared flags g))))
      false =
  nth i (componentDisappeared (fst (drawComponent i comp g))) false.
Proof.
  intros Hn Hl. split.
  - rewrite !drawComponent_snd. cbv zeta.
    unfold vanishes, pieceColor.
    cbn [set_componentDisappeared boomTimer boomStarted gameActive
         pillarOpacity componentDisappeared].
    rewrite Hn. reflexivity.
  - rewrite !drawComponent_fst. unfold vanishes.
    cbn [set_componentDisappeared boomTimer boomStarted
         componentDisappeared].
    destruct (ltb 0 _ && boomStarted g && geb _ 1); [|exact Hn].
    cbn [set_componentDisappeared componentDisappeared].
    destruct (Nat.lt_ge_cases i (List.length flags)) as [Hi|Hi].
    + rewrite !nth_assign_same; [reflexivity | lia | lia].
    + rewrite !nth_overflow; rewrite ?assign_length; auto; lia.
Qed.

Lemma drawLoop_indices (comps : list BuildingComponent) (start : nat)
      (g : Globals) :
  Forall (fun c => (start <= index c)%nat) (snd (drawLoop start comps g)).
Proof.
  revert start g. induction comps as [|comp rest IH]; intros start g; cbn.
  - constructor.
  - pose proof (drawComponent_index start comp g) as Hi.
    destruct (drawComponent start comp g) as [g1 call]. cbn in Hi.
    specialize (IH (S start) g1).
    destruct (drawLoop (S start) rest g1) as [g2 calls]. cbn in *.
    assert (Hrest : Forall (fun c => (start <= index c)%nat) calls).
    { eapply Forall_impl; [|exact IH]. cbn. intros; lia. }
    destruct call as [c|]; [|exact Hrest].
    constructor; [|exact Hrest]. rewrite (Hi c eq_refl). lia.
Qed.

Lemma drawLoop_flag_below (comps : list BuildingComponent) (start j : nat)
      (g : Globals) :
  (j < start)%nat ->
  nth j (componentDisappeared (fst (drawLoop start comps g))) false =
  nth j (componentDisappeared g) false.
Proof.
  revert start g. induction comps as [|comp rest IH]; intros start g Hj; cbn.
  - reflexivity.
  - pose proof (drawComponent_flag_other start j comp g) as H1.
    destruct (drawComponent start comp g) as [g1 call]. cbn in H1.
    specialize (IH (S start) g1).
    destruct (drawLoop (S start) rest g1) as [g2 calls]. cbn in *.
    rewrite IH by lia. apply H1. lia.
Qed.

Lemma find_index_above (i : nat) (calls : list DrawCall) :
  Forall (fun c => (S i <= index c)%nat) calls ->
  find (fun c => Nat.eqb (index c) i) calls = None.
Proof.
  induction 1 as [|c rest Hc _ IH]; cbn; [reflexivity|].
  destruct (Nat.eqb_spec (index c) i); [lia | exact IH].
Qed.

(** Iteration [start + i] of the loop sees the globals it started from, but
    for the flags of other pieces. *)
Lemma drawLoop_at (comps : list BuildingComponent) (start i : nat)
      (g : Globals) (comp : BuildingComponent) :
  nth_error comps i = Some comp ->
  find (fun c => Nat.eqb (index c) (start + i))
       (snd (drawLoop start comps g)) =
  snd (drawComponent (start + i) comp g) /\
  nth (start + i) (componentDisappeared (fst (drawLoop start comps g)))
      false =
  nth (start + i)
      (componentDisappeared (fst (drawComponent (start + i) comp g))) false.
Proof.
  revert start i g.
  induction comps as [|c rest IH]; intros start i g Hnth.
  - destruct i; discriminate.
  - cbn [drawLoop].
    pose proof (drawComponent_index start c g) as Hidx.
    pose proof (drawComponent_globals start c g) as Hg1.
    pose proof (drawComponent_length start c g) as Hlen.
    pose proof (fun j => drawComponent_flag_other start j c g) as Hoth.
    destruct (drawComponent start c g) as [g1 call] eqn:E1.
    cbn [fst snd] in *.
    pose proof (drawLoop_indices rest (S start) g1) as Hind.
    pose proof (fun j => drawLoop_flag_below rest (S start) j g1) as Hbel.
    destruct i as [|i].
    + cbn in Hnth. injection Hnth as ->. rewrite Nat.add_0_r.
      specialize (Hbel start).
      destruct (drawLoop (S start) rest g1) as [g2 calls].
      cbn [fst snd] in *. rewrite E1. cbn [fst snd].
      split; [|apply Hbel; lia].
      destruct call as [d|].
      * cbn [find]. rewrite (Hidx d eq_refl), Nat.eqb_refl. reflexivity.
      * now apply find_index_above.
    + cbn in Hnth. specialize (IH (S start) i g1 Hnth).
      replace (S start + i)%nat with (start + S i)%nat in IH by lia.
      destruct (drawLoop (S start) rest g1) as [g2 calls].
      cbn [fst snd] in *.
      assert (Hext := drawComponent_ext (start + S i) comp g
                        (componentDisappeared g1)).
      rewrite <- Hg1 in Hext.
      destruct Hext as [Hs Hf]; [apply Hoth; lia | exact Hlen |].
      destruct IH as [IH1 IH2]. rewrite <- Hs, <- Hf.
      split; [|exact IH2].
      destruct call as [d|]; [|exact IH1].
      cbn [find]. rewrite (Hidx d eq_refl).
      destruct (Nat.eqb_spec start (start + S i)); [lia | exact IH1].
Qed.

Lemma frame_draws (inp : Input) (m : Machine) :
  draws (snd (frame inp m)) =
  snd (drawLoop 0 buildingComponents (beforeDraw inp m)) /\
  componentDisappeared (globals (fst (frame inp m))) =
  componentDisappeared
    (fst (drawLoop 0 buildingComponents (beforeDraw inp m))).
Proof.
  unfold frame. fold (beforeDraw inp m).
  destruct (drawLoop 0 buildingComponents (beforeDraw inp m)) as [g' calls].
  split; reflexivity.
Qed.

(** What a frame does with piece [i]: the draw call and the flag are those
    of the loop iteration for [i], run on the globals the loop started
    from. *)
Lemma frame_piece (inp : Input) (m : Machine) (i : nat)
      (comp : BuildingComponent) :
  nth_error buildingComponents i = Some comp ->
  let g := beforeDraw inp m in
  drawnAs i (snd (frame inp m)) = snd (drawComponent i comp g) /\
  nth i (componentDisappeared (globals (fst (frame inp m)))) false =
  nth i (componentDisappeared (fst (drawComponent i comp g))) false.
Proof.
  intro Hnth. cbv zeta. unfold drawnAs.
  destruct (frame_draws inp m) as [-> ->].
  exact (drawLoop_at buildingComponents 0 i (beforeDraw inp m) comp Hnth).
Qed.

(** *** Progress of a disappearing piece *)

Lemma half_div (t : Q) : t / 0.5 == 2 * t.
Proof. unfold Qdiv. change (/ 0.5) with (10 # 5). lra. Qed.

Lemma vanishes_iff (g : Globals) (comp : BuildingComponent) :
  vanishes g comp = true <->
  boomStarted g = true /\ disappearTime comp + 0.5 <= boomTimer g.
Proof.
  unfold vanishes. rewrite !andb_true_iff, ltb_lt, geb_le.
  set (t := boomTimer g - disappearTime comp).
  assert (Ht : t == boomTimer g - disappearTime comp) by reflexivity.
  clearbody t. unfold min.
  split.
  - intros [[H0 Hb] H1]. split; [exact Hb|].
    destruct (ltb 1 (t / 0.5)) eqn:E.
    + apply ltb_lt in E. rewrite half_div in E. lra.
    + rewrite half_div in H1. lra.
  - intros [Hb H]. repeat split; [lra | exact Hb |].
    destruct (ltb 1 (t / 0.5)) eqn:E; [lra|].
    rewrite half_div. lra.
Qed.

Lemma vanishes_false (g : Globals) (comp : BuildingComponent) :
  boomTimer g - disappearTime comp < 0.5 -> vanishes g comp = false.
Proof.
  intro H. destruct (vanishes g comp) eqn:E; [|reflexivity].
  apply vanishes_iff in E. lra.
Qed.

Lemma progress_uncapped (t : Q) : t < 0.5 -> min (t / 0.5) 1 = t / 0.5.
Proof. intro H. apply min_left. rewrite half_div. lra. Qed.

(** *** Flags and collapse stay consistent *)

Lemma nth_map_false (i : nat) (flags : list bool) :
  nth i (map (fun _ => false) flags) false = false.
Proof.
  revert i. induction flags as [|b rest IH]; intros [|i]; cbn; auto.
Qed.

Lemma nth_repeat_false (i n : nat) : nth i (repeat false n) false = false.
Proof.
  revert i. induction n as [|n IH]; intros [|i]; cbn; auto.
Qed.

Lemma flagsConsistent_processInput (inp : Input) (m : Machine) :
  flagsConsistent (globals m) ->
  flagsConsistent (globals (processInput inp m)).
Proof.
  intro H. rewrite processInput_globals. cbv zeta.
  destruct (resets inp m).
  - rewrite resetGame_eq. split; cbn; [discriminate|].
    intros i comp _ Hf. rewrite nth_map_false in Hf. discriminate.
  - destruct (boosts inp m); exact H.
Qed.

Lemma flagsConsistent_updateGameLogic (dt : Q) (g : Globals) :
  flagsConsistent g -> flagsConsistent (updateGameLogic dt g).
Proof.
  intros HC.
  destruct (gameActive g) eqn:Ha.
  2: { rewrite updateGameLogic_idle; auto. }
  destruct (boomStarted g) eqn:Hb.
  1: { rewrite updateGameLogic_idle; auto. }
  destruct HC as [H1 H2].
  assert (Hnone : forall i comp,
             nth_error buildingComponents i = Some comp ->
             nth i (componentDisappeared g) false = true -> False).
  { intros i comp Hn Hf. destruct (H2 i comp Hn Hf) as [? _]. congruence. }
  destruct (anyBelow_or_allAtLeast OPACITY_THRESHOLD
              (decay dt (pillarOpacity g))) as [Hany|Hall].
  - rewrite (updateGameLogic_lose dt g Ha Hb Hany). split; cbn; [auto|].
    intros i comp Hn Hf. destruct (Hnone i comp Hn Hf).
  - rewrite (updateGameLogic_survive dt g Ha Hb Hall). split; cbn;
      [discriminate|].
    intros i comp Hn Hf. destruct (Hnone i comp Hn Hf).
Qed.

Lemma flagsConsistent_set_bg (r gr b : Q) (g : Globals) :
  flagsConsistent g -> flagsConsistent (set_bg r gr b g).
Proof. intro H. exact H. Qed.

Lemma flagsConsistent_updateBoomAnimation (dt : Q) (g : Globals) :
  0 <= dt -> flagsConsistent g ->
  flagsConsistent (updateBoomAnimation dt g).
Proof.
  intros Hdt [H1 H2]. unfold updateBoomAnimation.
  cbn [set_boomTimer boomTimer].
  destruct (geb (boomTimer g + dt) BOOM_DURATION).
  - split; cbn; [discriminate|].
    intros i comp Hn Hf. destruct (H2 i comp Hn Hf) as [Ha _].
    split; [exact Ha | discriminate].
  - split; cbn; [exact H1|].
    intros i comp Hn Hf. destruct (H2 i comp Hn Hf) as [Ha Ht].
    split; [exact Ha|]. intro Hb. specialize (Ht Hb). lra.
Qed.

Lemma flagsConsistent_beforeDraw (inp : Input) (m : Machine) :
  0 <= deltaTime inp -> flagsConsistent (globals m) ->
  flagsConsistent (beforeDraw inp m).
Proof.
  intros Hdt H. rewrite beforeDraw_eq. cbv zeta.
  apply flagsConsistent_set_bg.
  apply (flagsConsistent_processInput inp) in H.
  apply (flagsConsistent_updateGameLogic (deltaTime inp)) in H.
  destruct (boomStarted _); [|exact H].
  now apply flagsConsistent_updateBoomAnimation.
Qed.

Lemma flagsConsistent_frame (inp : Input) (m : Machine) :
  0 <= deltaTime inp -> flagsConsistent (globals m) ->
  flagsConsistent (globals (fst (frame inp m))).
Proof.
  intros Hdt H. apply (flagsConsistent_beforeDraw inp m Hdt) in H.
  destruct H as [H1 H2]. rewrite frame_globals.
  split; cbn [set_componentDisappeared boomStarted gameActive boomTimer
              componentDisappeared]; [exact H1|].
  intros i comp Hn Hf.
  destruct (frame_piece inp m i comp Hn) as [_ Hflag]. cbv zeta in Hflag.
  rewrite Hflag, drawComponent_fst in Hf.
  destruct (vanishes (beforeDraw inp m) comp) eqn:Ev.
  - apply vanishes_iff in Ev. destruct Ev as [Hb Ht]. auto.
  - exact (H2 i comp Hn Hf).
Qed.

(** Every machine the game reaches over frames with non-negative
    [deltaTime] has consistent flags and one flag per piece. *)
Lemma reachable_consistent (inputs : list Input) :
  nonnegTicks inputs ->
  let m := run inputs initialMachine in
  flagsConsistent (globals m) /\
  List.length (componentDisappeared (globals m)) =
  List.length buildingComponents.
Proof.
  intro Hdt. cbv zeta.
  apply (run_invariant (fun inp => 0 <= deltaTime inp)
           (fun m => flagsConsistent (globals m) /\
                     List.length (componentDisappeared (globals m)) =
                     List.length buildingComponents)).
  - intros inp m Hi [Hc Hl]. split.
    + now apply flagsConsistent_frame.
    + now rewrite frame_length.
  - exact Hdt.
  - split; [|reflexivity]. split; [discriminate|].
    intros i comp _ Hf.
    change (componentDisappeared (globals initialMachine))
      with (repeat false (List.length buildingComponents)) in Hf.
    rewrite nth_repeat_false in Hf. discriminate.
Qed.

(** *** A removed piece stays removed *)

Lemma beforeDraw_flags_quiet (inp : Input) (m : Machine) :
  resets inp m = false ->
  componentDisappeared (beforeDraw inp m) = componentDisappeared (globals m).
Proof.
  intro Hr. rewrite beforeDraw_flags, processInput_globals, Hr. cbv zeta.
  destruct (boosts inp m); reflexivity.
Qed.

Lemma frame_removed (inp : Input) (m : Machine) (i : nat)
      (comp : BuildingComponent) :
  flagsConsistent (globals m) -> 0 <= deltaTime inp ->
  resets inp m = false ->
  nth_error buildingComponents i = Some comp ->
  nth i (componentDisappeared (globals m)) false = true ->
  drawnAs i (snd (frame inp m)) = None /\
  nth i (componentDisappeared (globals (fst (frame inp m)))) false = true.
Proof.
  intros HC Hdt Hr Hn Hf.
  apply (flagsConsistent_beforeDraw inp m Hdt) in HC.
  rewrite <- (beforeDraw_flags_quiet inp m Hr) in Hf.
  destruct (frame_piece inp m i comp Hn) as [-> ->].
  set (g := beforeDraw inp m) in *.
  rewrite drawComponent_snd, drawComponent_fst. cbv zeta.
  destruct (vanishes g comp) eqn:Ev.
  - split; [reflexivity|]. cbn. apply nth_assign_same.
    destruct (Nat.lt_ge_cases i (List.length (componentDisappeared g)))
      as [|Hge]; [assumption|].
    rewrite nth_overflow in Hf by exact Hge. discriminate.
  - assert (Hb : boomStarted g = false).
    { destruct (boomStarted g) eqn:Hb; [|reflexivity].
      destruct HC as [_ H2]. destruct (H2 i comp Hn Hf) as [_ Ht].
      assert (vanishes g comp = true) by (apply vanishes_iff; auto).
      congruence. }
    rewrite Hb, andb_false_r, Hf. auto.
Qed.

Lemma removed_never_drawn (later : list Input) (m : Machine) (i : nat)
      (comp : BuildingComponent) :
  quietTicks later ->
  flagsConsistent (globals m) ->
  nth_error buildingComponents i = Some comp ->
  nth i (componentDisappeared (globals m)) false = true ->
  neverDrawn i (snd (mainLoop later m)).
Proof.
  revert m. induction later as [|inp rest IH]; intros m Hq HC Hn Hf.
  - constructor.
  - cbn [mainLoop]. destruct (windowShouldClose m); [constructor|].
    inversion Hq as [|? ? [Hr Hdt] Hq']; subst.
    assert (Hres : resets inp m = false) by (unfold resets; now rewrite Hr).
    destruct (frame_removed inp m i comp HC Hdt Hres Hn Hf) as [Hd Hf'].
    pose proof (flagsConsistent_frame inp m Hdt HC) as HC'.
    destruct (frame inp m) as [m1 out]. cbn [fst snd] in *.
    specialize (IH m1 Hq' HC' Hn Hf').
    destruct (mainLoop rest m1) as [m2 outs]. cbn [fst snd] in *.
    constructor; assumption.
Qed.

(** C3. Take a frame of a run from the initial state in which the collapse
    is running when the drawing loop starts, with collapse clock
    [boomTimer g], and a piece [comp] at index [i] of the scene; let
    [t = boomTimer g - disappearTime comp].
    - If [0 < t < 0.5] the piece is drawn with progress [t / 0.5]: its model
      is built by translate, shake, rotate, uniform scale [1 - progress * 0.8],
      scale [(width, height)].
    - At [boomTimer g = disappearTime comp + 0.5 * 0.5] the progress is 0.5
      and the uniform scale factor is [1 - 0.5 * 0.8 = 0.6].
    - If [0.5 <= t] the piece is flagged and not drawn, in this frame and in
      every later frame until R is pressed. *)
Theorem disappearing_piece (inputs later : list Input) (inp : Input)
        (i : nat) (comp : BuildingComponent) :
  nonnegTicks (inputs ++ [inp]) ->
  quietTicks later ->
  nth_error buildingComponents i = Some comp ->
  let m := run inputs initialMachine in
  let g := beforeDraw inp m in
  let out := snd (frame inp m) in
  let t := boomTimer g - disappearTime comp in
  boomStarted g = true ->
  (0 < t -> t < 0.5 ->
   exists c, drawnAs i out = Some c /\ index c = i /\
             model c = dissolving (boomTimer g) (t / 0.5) comp) /\
  (boomTimer g == disappearTime comp + 0.5 * 0.5 ->
   t / 0.5 == 0.5 /\ 1 - t / 0.5 * 0.8 == 1 - 0.5 * 0.8 /\
   1 - t / 0.5 * 0.8 == 0.6 /\
   exists c, drawnAs i out = Some c /\
             model c =
             [ Translate (x comp) (y comp);
               TranslateShake (boomTimer g * 20) (boomTimer g * 25)
                              ((1 - t / 0.5) * 0.1);
               Rotate (t / 0.5 * 3.14159 * 2);
               Scale (1 - t / 0.5 * 0.8) (1 - t / 0.5 * 0.8);
               Scale (width comp) (height comp) ]) /\
  (0.5 <= t ->
   drawnAs i out = None /\
   nth i (componentDisappeared (globals (fst (frame inp m)))) false = true /\
   neverDrawn i (snd (mainLoop later (fst (frame inp m))))).
Proof.
  intros Hdt Hq Hn. cbv zeta. intro Hb.
  unfold nonnegTicks in Hdt. apply Forall_app in Hdt.
  destruct Hdt as [Hdt Hinp]. inversion Hinp as [|? ? Hdt0 _]; subst.
  destruct (reachable_consistent inputs Hdt) as [HC Hlen]. cbv zeta in *.
  set (m := run inputs initialMachine) in *.
  destruct (frame_piece inp m i comp Hn) as [Hd Hflag]. cbv zeta in *.
  set (g := beforeDraw inp m) in *.
  set (t := boomTimer g - disappearTime comp) in *.
  assert (Hdraw : 0 < t -> t < 0.5 ->
            drawnAs i (snd (frame inp m)) =
            Some (mkDrawCall i (dissolving (boomTimer g) (t / 0.5) comp)
                             (pieceColor g i comp))).
  { intros H0 H1. rewrite Hd, drawComponent_snd. cbv zeta. fold t.
    rewrite (vanishes_false g comp H1), Hb.
    assert (E : ltb 0 t = true) by now apply ltb_lt.
    rewrite E. cbn [andb]. now rewrite progress_uncapped. }
  split; [|split].
  - intros H0 H1. eexists. split; [exact (Hdraw H0 H1)|]. split; reflexivity.
  - intro Heq.
    assert (Ht : t == 0.25) by (unfold t; rewrite Heq; lra).
    assert (Hp : t / 0.5 == 0.5) by (rewrite half_div, Ht; reflexivity).
    split; [exact Hp|]. split; [now rewrite Hp|].
    split; [rewrite Hp; reflexivity|].
    eexists. split; [apply Hdraw; lra|]. reflexivity.
  - intro Hge.
    assert (Ev : vanishes g comp = true).
    { apply vanishes_iff. split; [exact Hb|]. unfold t in Hge. lra. }
    assert (Hi : (i < List.length (componentDisappeared g))%nat).
    { unfold g. rewrite beforeDraw_flags, processInput_length, Hlen.
      apply nth_error_Some. congruence. }
    assert (Hset : nth i (componentDisappeared (globals (fst (frame inp m))))
                       false = true).
    { rewrite Hflag, drawComponent_fst, Ev. cbn.
      now apply nth_assign_same. }
    split; [|split].
    + now rewrite Hd, drawComponent_snd, Ev.
    + exact Hset.
    + apply (removed_never_drawn later _ i comp Hq); auto.
      now apply flagsConsistent_frame.
Qed.

(** The theorem on the frame that loses the round 0.6 seconds after the
    opacities reached the threshold, for the first piece of the scene, whose
    [disappearTime] is 0.35: its progress is 0.5 and its scale 0.6. *)
Lemma disappearing_piece_witness :
  nth_error buildingComponents 0 =
    Some (mkComponent (-3.0) 0.5 2.0 5.0 (0.8, 0.4, 0.2) 0.35) /\
  boomStarted (beforeDraw crossing atThreshold) = true /\
  (boomTimer (beforeDraw crossing atThreshold) - 0.35) / 0.5 == 0.5 /\
  1 - (boomTimer (beforeDraw crossing atThreshold) - 0.35) / 0.5 * 0.8
  == 0.6.
Proof.
  assert (Hdt : nonnegTicks ([mkInput 2.25 false false false] ++ [crossing])).
  { repeat constructor; cbn; lra. }
  assert (Hq : quietTicks []) by constructor.
  assert (Hb : boomStarted (beforeDraw crossing atThreshold) = true)
    by reflexivity.
  destruct (disappearing_piece _ _ _ 0%nat _ Hdt Hq eq_refl Hb)
    as (_ & Hmid & _).
  destruct Hmid as (Hp & _ & Hs & _).
  - vm_compute. reflexivity.
  - repeat split; assumption.
Defined.

(** *** The boost latch *)

Lemma frame_spacePressed (inp : Input) (m : Machine) :
  spacePressed (fst (frame inp m)) =
  keySpace inp &&
  (spacePressed m
   || (gameActive (globals m) && negb (boomStarted (globals m)))).
Proof.
  destruct (frame_latches inp m) as (-> & _ & _).
  apply processInput_spacePressed.
Qed.

Lemma boosts_latched (inp : Input) (m : Machine) :
  spacePressed m = true -> boosts inp m = false.
Proof.
  intro H. unfold boosts. rewrite H. cbn. now rewrite andb_false_r.
Qed.

Lemma boosts_arms_latch (inp : Input) (m : Machine) :
  boosts inp m = true -> spacePressed (fst (frame inp m)) = true.
Proof.
  unfold boosts. intro H. rewrite !andb_true_iff in H.
  destruct H as [[[Hk _] Ha] Hb].
  rewrite frame_spacePressed, Hk, Ha, Hb. apply orb_true_r.
Qed.

Lemma held_latched_no_boost (hold : list Input) (m : Machine) :
  held hold -> spacePressed m = true ->
  Forall (eq false) (boostTrace hold m).
Proof.
  revert m. induction hold as [|inp rest IH]; intros m Hh Hl; cbn.
  - constructor.
  - destruct (windowShouldClose m); [constructor|].
    inversion Hh as [|? ? Hk Hh']; subst.
    constructor.
    + symmetry. now apply boosts_latched.
    + apply IH; [exact Hh'|]. rewrite frame_spacePressed, Hk, Hl.
      reflexivity.
Qed.

Lemma count_all_false (l : list bool) :
  Forall (eq false) l -> count_occ Bool.bool_dec l true = 0%nat.
Proof.
  induction 1 as [|b l Hb _ IH]; cbn; [reflexivity|].
  subst b. destruct (Bool.bool_dec false true); [discriminate | exact IH].
Qed.

Lemma held_boosts_at_most_once (hold : list Input) (m : Machine) :
  held hold ->
  (count_occ Bool.bool_dec (boostTrace hold m) true <= 1)%nat.
Proof.
  revert m. induction hold as [|inp rest IH]; intros m Hh; cbn.
  - lia.
  - destruct (windowShouldClose m); cbn; [lia|].
    inversion Hh as [|? ? Hk Hh']; subst.
    destruct (boosts inp m) eqn:Eb.
    + destruct (Bool.bool_dec true true); [|congruence].
      rewrite count_all_false; [lia|].
      apply held_latched_no_boost; [exact Hh'|].
      now apply boosts_arms_latch.
    + destruct (Bool.bool_dec false true); [discriminate|]. apply IH, Hh'.
Qed.

(** The latch of the boost.  Over consecutive frames with SPACE down the boost
    loop runs at most once; it runs on the first of them, and on no other,
    when that frame finds the latch clear (as after any frame with SPACE up),
    the round active and no collapse running; and a frame that finds the
    round over or the collapse running does not boost and leaves the latch
    as it was, whether or not SPACE has just gone down. *)
Theorem boost_is_latched (first : Input) (rest : list Input) (m : Machine) :
  held (first :: rest) -> windowShouldClose m = false ->
  (count_occ Bool.bool_dec (boostTrace (first :: rest) m) true <= 1)%nat /\
  (spacePressed m = false -> gameActive (globals m) = true ->
   boomStarted (globals m) = false ->
   boosts first m = true /\
   Forall (eq false) (boostTrace rest (fst (frame first m)))) /\
  (gameActive (globals m) = false \/ boomStarted (globals m) = true ->
   boosts first m = false /\
   spacePressed (processInput first m) = spacePressed m /\
   (resets first m = false -> globals (processInput first m) = globals m))
  /\
  (forall prev m0,
      keySpace prev = false -> spacePressed (fst (frame prev m0)) = false).
Proof.
  intros Hh Hc. inversion Hh as [|? ? Hk Hh']; subst.
  split; [now apply held_boosts_at_most_once|].
  split; [|split].
  - intros Hl Ha Hb.
    assert (E : boosts first m = true).
    { unfold boosts. now rewrite Hk, Hl, Ha, Hb. }
    split; [exact E|].
    apply held_latched_no_boost; [exact Hh'|].
    now apply boosts_arms_latch.
  - intro Hover.
    assert (E : gameActive (globals m) && negb (boomStarted (globals m))
                = false).
    { destruct Hover as [-> | ->]; [reflexivity | apply andb_false_r]. }
    assert (Eb : boosts first m = false).
    { unfold boosts. rewrite <- !andb_assoc, E. now rewrite !andb_false_r. }
    split; [exact Eb|]. split.
    + rewrite processInput_spacePressed, Hk, E.
      now rewrite orb_false_r.
    + intro Hr. now rewrite processInput_globals, Eb, Hr.
  - intros prev m0 Hp. now rewrite frame_spacePressed, Hp.
Qed.

(** The theorem on the initial machine with SPACE held for three frames. *)
Lemma boost_is_latched_witness :
  (count_occ Bool.bool_dec
     (boostTrace [press; press; press] initialMachine) true <= 1)%nat /\
  boosts press initialMachine = true /\
  Forall (eq false)
         (boostTrace [press; press] (fst (frame press initialMachine))).
Proof.
  assert (Hh : held [press; press; press]) by (repeat constructor).
  destruct (boost_is_latched press [press; press] initialMachine Hh eq_refl)
    as (Hc & Hedge & _).
  destruct (Hedge eq_refl eq_refl eq_refl) as [Hb Hrest].
  auto.
Defined.

(** In [heldThroughReset] SPACE is up in frame 1 and down in frames 2, 3
    and 4; the round is lost in frame 1 and reset in frame 3.  The boost
    loop runs in frame 4 only, and it raises an opacity that frame 3 left at
    0.99. *)
Lemma heldThroughReset_trace :
  map keySpace heldThroughReset = [false; true; true; true] /\
  boostTrace heldThroughReset initialMachine = [false; false; false; true] /\
  at0 (pillarOpacity (globals (run (firstn 3 heldThroughReset)
                                   initialMachine))) == 0.99 /\
  at0 (pillarOpacity
         (globals (processInput (mkInput 0.05 true false false)
                                (run (firstn 3 heldThroughReset)
                                     initialMachine)))) == 1.
Proof.
  split; [reflexivity|]. split; [vm_compute; reflexivity|].
  split; vm_compute; reflexivity.
Qed.

(** The boost is not triggered by the rising edge only.  In
    [heldThroughReset] the rising edge of SPACE is
    frame 2, where the round is over, and the boost loop runs in frame 4,
    with SPACE down since frame 2. *)
Lemma boost_off_the_rising_edge : ~ specEdgeTriggered.
Proof.
  intro H. destruct heldThroughReset_trace as (Hk & Hb & _).
  destruct (H heldThroughReset 3%nat) as [_ [H0 | H1]].
  - now rewrite Hb.
  - discriminate H0.
  - rewrite Hk in H1. discriminate H1.
Qed.

(** C4.  The claim fails on a hold of SPACE that starts while the round is
    over.  In [heldAcrossReset] the round is lost in frame 1; SPACE goes
    down in frame 2, its rising edge, and stays down; frames 2 and 3 leave
    the latch [spacePressed] clear, because [processInput] sets it only
    where it boosts, while [rPressed] is set by the key alone; R restarts
    the round in frame 3, which leaves the four opacities at 0.7.  In
    frame 4, with SPACE down since frame 2, [processInput] raises the four
    opacities from 0.7 to 0.95; in frames 2 and 3 it raises nothing. *)
Theorem boost_inside_a_hold :
  let m1 := run (firstn 1 heldAcrossReset) initialMachine in
  let m2 := run (firstn 2 heldAcrossReset) initialMachine in
  let m3 := run (firstn 3 heldAcrossReset) initialMachine in
  map keySpace heldAcrossReset = [false; true; true; true] /\
  outcome (globals m1) = Some Lost /\
  pillarOpacity (globals (processInput (mkInput 0.05 true false false) m1)) =
  pillarOpacity (globals m1) /\
  spacePressed m2 = false /\ rPressed m3 = true /\ spacePressed m3 = false /\
  outcome (globals m3) = Some InProgress /\
  allEqual 0.7 (pillarOpacity (globals m3)) /\
  allEqual 0.95
    (pillarOpacity (globals (processInput (mkInput 0.05 true false false)
                                          m3))) /\
  allEqual 0.94 (pillarOpacity (globals (run heldAcrossReset initialMachine))).
Proof.
  cbv zeta.
  split; [reflexivity|]. split; [vm_compute; reflexivity|].
  split; [vm_compute; reflexivity|]. split; [vm_compute; reflexivity|].
  split; [vm_compute; reflexivity|]. split; [vm_compute; reflexivity|].
  split; [vm_compute; reflexivity|].
  split; [|split]; vm_compute; repeat split; reflexivity.
Qed.

(** *** The flash of the collapse *)

Lemma frame_clears (inp : Input) (m : Machine) :
  clears (snd (frame inp m)) =
  let g := beforeDraw inp m in
  if boomStarted g
  then [ Plain (bgRed g) (bgGreen g) (bgBlue g);
         Flash (boomTimer g * 6.28 * 5) ]
  else [ Plain (bgRed g) (bgGreen g) (bgBlue g) ].
Proof.
  unfold frame. fold (beforeDraw inp m).
  destruct (drawLoop 0 buildingComponents (beforeDraw inp m)) as [g' calls].
  reflexivity.
Qed.

Lemma frame_collapse (inp : Input) (m : Machine) :
  boomStarted (globals (fst (frame inp m))) = boomStarted (beforeDraw inp m)
  /\
  boomTimer (globals (fst (frame inp m))) = boomTimer (beforeDraw inp m) /\
  gameLost (globals (fst (frame inp m))) = gameLost (beforeDraw inp m).
Proof. rewrite frame_globals. repeat split; reflexivity. Qed.

Lemma collapseMeansLost_logic (inp : Input) (m : Machine) :
  collapseMeansLost (globals m) ->
  collapseMeansLost
    (updateGameLogic (deltaTime inp) (globals (processInput inp m))).
Proof.
  intro H.
  assert (H1 : collapseMeansLost (globals (processInput inp m))).
  { rewrite processInput_globals. cbv zeta. destruct (resets inp m).
    - rewrite resetGame_eq. intro Hb. discriminate Hb.
    - destruct (boosts inp m); exact H. }
  set (g := globals (processInput inp m)) in *.
  destruct (gameActive g) eqn:Ha.
  2: { rewrite updateGameLogic_idle; auto. }
  destruct (boomStarted g) eqn:Hb.
  1: { rewrite updateGameLogic_idle; auto. }
  destruct (anyBelow_or_allAtLeast OPACITY_THRESHOLD
              (decay (deltaTime inp) (pillarOpacity g))) as [Hany|Hall].
  - rewrite (updateGameLogic_lose _ g Ha Hb Hany). intros _. reflexivity.
  - rewrite (updateGameLogic_survive _ g Ha Hb Hall). intro Hc.
    discriminate Hc.
Qed.

Lemma collapseMeansLost_frame (inp : Input) (m : Machine) :
  collapseMeansLost (globals m) ->
  collapseMeansLost (globals (fst (frame inp m))).
Proof.
  intro H. apply (collapseMeansLost_logic inp) in H.
  unfold collapseMeansLost in *.
  destruct (frame_collapse inp m) as (-> & _ & ->).
  rewrite beforeDraw_eq. cbv zeta.
  set (g := updateGameLogic _ _) in *.
  destruct (boomStarted g) eqn:Hb.
  - intros _. rewrite updateBoomAnimation_frame. cbn. now apply H.
  - cbn [set_bg boomStarted gameLost]. intro Hc. congruence.
Qed.

Lemma flashColor_blend (s : Q) :
  colorEq (flashColor s) (mix (0.5, 0.2, 0.2) (1, 0.5, 0.5) (s * 0.5 + 0.5)).
Proof. unfold colorEq, flashColor, mix. cbn. repeat split; lra. Qed.

(** C9, as the code has it.  In every frame of every run from the initial
    state: if the collapse is running once the frame's updates are done,
    the frame clears the screen with the lost colour [(1, 0.2, 0.2)] and
    then again with the flash, whose intensity is [sin (boomTimer * 6.28 * 5)
    * 0.5 + 0.5]; otherwise it clears once, with the background colour.  The
    flash colour is the blend of [(0.5, 0.2, 0.2)] and [(1, 0.5, 0.5)] by
    that intensity.  Which pieces have disappeared plays no part. *)
Theorem flash_while_collapsing (inputs : list Input) (inp : Input) :
  let m := run inputs initialMachine in
  let m' := fst (frame inp m) in
  let out := snd (frame inp m) in
  (boomStarted (globals m') = true ->
   clears out =
   [ Plain 1 0.2 0.2; Flash (boomTimer (globals m') * 6.28 * 5) ] /\
   background out = Some (Flash (boomTimer (globals m') * 6.28 * 5))) /\
  (boomStarted (globals m') = false ->
   clears out =
   [ Plain (bgRed (globals m')) (bgGreen (globals m')) (bgBlue (globals m')) ]
   /\
   background out =
   Some (Plain (bgRed (globals m')) (bgGreen (globals m'))
               (bgBlue (globals m')))) /\
  (forall s : Q,
      colorEq (flashColor s)
              (mix (0.5, 0.2, 0.2) (1, 0.5, 0.5) (s * 0.5 + 0.5)) /\
      (-1 <= s <= 1 ->
       between (0.5, 0.2, 0.2) (1, 0.5, 0.5) (flashColor s))).
Proof.
  cbv zeta. set (m := run inputs initialMachine).
  assert (HL : collapseMeansLost (globals m)).
  { apply (run_invariant (fun _ => True)
             (fun m => collapseMeansLost (globals m))).
    - intros i m0 _. apply collapseMeansLost_frame.
    - apply Forall_True.
    - intro Hb. discriminate Hb. }
  pose proof (collapseMeansLost_logic inp m HL) as HL'.
  unfold background. rewrite frame_clears. cbv zeta.
  rewrite frame_globals.
  cbn [set_componentDisappeared boomStarted boomTimer bgRed bgGreen bgBlue].
  split; [|split].
  - intro Hb. rewrite Hb.
    assert (Hbg : bgRed (beforeDraw inp m) = 1 /\
                  bgGreen (beforeDraw inp m) = 0.2 /\
                  bgBlue (beforeDraw inp m) = 0.2).
    { rewrite beforeDraw_eq in Hb |- *. cbv zeta in *.
      set (g := updateGameLogic _ _) in *.
      cbn [set_bg boomStarted bgRed bgGreen bgBlue] in *.
      assert (Hg : boomStarted g = true).
      { destruct (boomStarted g) eqn:E; [reflexivity | congruence]. }
      specialize (HL' Hg). unfold updateBackgroundColor.
      rewrite HL'. cbn. auto. }
    destruct Hbg as (-> & -> & ->). split; reflexivity.
  - intro Hb. rewrite Hb. split; reflexivity.
  - intro s. split; [apply flashColor_blend|].
    intro Hs. exists (s * 0.5 + 0.5). split; [lra | apply flashColor_blend].
Qed.

(** C9, as the specification has it, fails: the flash is not a blend of the
    lost colour [(1, 0.2, 0.2)] and a brighter variant of it.  Such a blend
    has red 1 or more; where the sine is 0 the flash is [(0.75, 0.35,
    0.35)]. *)
Lemma flash_not_from_lost_color : ~ specFlash.
Proof.
  intros (bright & (Hr & _ & _) & H).
  assert (Hs : -1 <= 0 <= 1) by (split; lra).
  destruct (H 0 Hs) as (f & [Hf0 Hf1] & (Hred & _ & _)).
  unfold flashColor, mix, lostColor in Hr, Hred. cbn in Hr, Hred.
  assert (Hpos : 0 <= f * (fst (fst bright) - 1)).
  { apply Qmult_le_0_compat; lra. }
  lra.
Qed.

(** *** The state machine as a whole *)

Lemma outcome_cases (g : Globals) :
  outcome g <> None ->
  outcome g = Some InProgress \/ outcome g = Some Won \/
  outcome g = Some Lost.
Proof.
  intro H. destruct (outcome g) as [[| |]|]; auto. congruence.
Qed.

Lemma boost_allAtLeast (v : float4) :
  allAtLeast OPACITY_THRESHOLD v -> allAtLeast OPACITY_THRESHOLD (boost v).
Proof.
  unfold allAtLeast, boost, map4, OPACITY_THRESHOLD, OPACITY_GAIN_RATE.
  cbn. intros (H0 & H1 & H2 & H3).
  repeat split; apply min_lower; lra.
Qed.

Lemma roundConsistent_processInput (inp : Input) (m : Machine) :
  roundConsistent (globals m) ->
  roundConsistent (globals (processInput inp m)).
Proof.
  intro H. rewrite processInput_globals. cbv zeta.
  destruct (resets inp m).
  - rewrite resetGame_eq. unfold roundConsistent, outcome. cbn.
    split; [discriminate|]. split.
    { split; [discriminate|]. unfold GAME_DURATION. lra. }
    split; [discriminate|]. split; [reflexivity|]. split.
    { intros _. unfold allAtLeast, OPACITY_THRESHOLD. cbn.
      repeat split; lra. }
    intros i comp _ Hf. rewrite nth_map_false in Hf. discriminate.
  - destruct (boosts inp m); [|exact H].
    destruct H as (Ho & Hw & Hb & Ht & Ha & Hf).
    unfold roundConsistent, outcome in *. cbn.
    split; [exact Ho|]. split; [exact Hw|]. split; [exact Hb|].
    split; [exact Ht|]. split; [|exact Hf].
    intro Hl. apply boost_allAtLeast. auto.
Qed.

Lemma roundConsistent_updateGameLogic (dt : Q) (g : Globals) :
  roundConsistent g -> roundConsistent (updateGameLogic dt g).
Proof.
  intro HC.
  destruct (gameActive g) eqn:Ha.
  2: { rewrite updateGameLogic_idle; auto. }
  destruct (boomStarted g) eqn:Hb.
  1: { rewrite updateGameLogic_idle; auto. }
  destruct HC as (Ho & Hw & Hbl & Ht & Hal & Hf).
  assert (Hwl : gameWon g = false /\ gameLost g = false).
  { unfold outcome in Ho. rewrite Ha in Ho.
    destruct (gameWon g), (gameLost g); auto; congruence. }
  destruct Hwl as [Hwon Hlost].
  assert (Hlt : gameTimer g < GAME_DURATION).
  { apply Qnot_le_lt. intro Hge. apply Hw in Hge. congruence. }
  destruct (anyBelow_or_allAtLeast OPACITY_THRESHOLD
              (decay dt (pillarOpacity g))) as [Hany|Hall].
  - rewrite (updateGameLogic_lose dt g Ha Hb Hany).
    unfold roundConsistent, outcome. cbn. rewrite Hwon.
    split; [discriminate|]. split.
    { split; [discriminate|]. intro Hge. exfalso.
      apply (Qlt_not_le _ _ Hlt Hge). }
    split; [reflexivity|]. split; [discriminate|].
    split; [discriminate|]. reflexivity.
  - rewrite (updateGameLogic_survive dt g Ha Hb Hall). cbv zeta.
    unfold roundConsistent, outcome. cbn. rewrite Hwon, Hlost.
    destruct (geb (gameTimer g + dt) GAME_DURATION) eqn:Eg; cbn.
    + split; [discriminate|]. split.
      { split; [intros _; now apply geb_le | reflexivity]. }
      split; [discriminate|]. split; [intros _; now apply Ht|].
      split; [intros _; exact Hall|].
      intros i comp Hn Hfl. rewrite <- Hlost. exact (Hf i comp Hn Hfl).
    + split; [discriminate|]. split.
      { split; [discriminate|]. intro Hge. apply geb_le in Hge. congruence. }
      split; [discriminate|]. split; [intros _; now apply Ht|].
      split; [intros _; exact Hall|].
      intros i comp Hn Hfl. rewrite <- Hlost. exact (Hf i comp Hn Hfl).
Qed.

Lemma roundConsistent_updateBoomAnimation (dt : Q) (g : Globals) :
  boomStarted g = true -> roundConsistent g ->
  roundConsistent (updateBoomAnimation dt g).
Proof.
  intros Hb (Ho & Hw & Hbl & Ht & Hal & Hf).
  unfold updateBoomAnimation. cbn [set_boomTimer boomTimer].
  destruct (geb (boomTimer g + dt) BOOM_DURATION);
    unfold roundConsistent, outcome in *; cbn;
    (split; [exact Ho|]); (split; [exact Hw|]);
    (split; [auto|]); (split; [congruence || reflexivity|]);
    (split; [exact Hal | exact Hf]).
Qed.

Lemma roundConsistent_beforeDraw (inp : Input) (m : Machine) :
  roundConsistent (globals m) -> roundConsistent (beforeDraw inp m).
Proof.
  intro H. rewrite beforeDraw_eq. cbv zeta.
  apply (roundConsistent_processInput inp) in H.
  apply (roundConsistent_updateGameLogic (deltaTime inp)) in H.
  set (g := updateGameLogic _ _) in *.
  assert (H' : roundConsistent
                 (if boomStarted g
                  then updateBoomAnimation (deltaTime inp) g else g)).
  { destruct (boomStarted g) eqn:Hb; [|exact H].
    now apply roundConsistent_updateBoomAnimation. }
  exact H'.
Qed.

Lemma roundConsistent_frame (inp : Input) (m : Machine) :
  roundConsistent (globals m) ->
  roundConsistent (globals (fst (frame inp m))).
Proof.
  intro H. apply (roundConsistent_beforeDraw inp) in H.
  destruct H as (Ho & Hw & Hbl & Ht & Hal & Hf).
  rewrite frame_globals.
  unfold roundConsistent, outcome in *.
  cbn [set_componentDisappeared boomStarted gameActive boomTimer gameWon
       gameLost gameTimer pillarOpacity componentDisappeared].
  split; [exact Ho|]. split; [exact Hw|]. split; [exact Hbl|].
  split; [exact Ht|]. split; [exact Hal|].
  intros i comp Hn Hfl.
  destruct (frame_piece inp m i comp Hn) as [_ Hflag]. cbv zeta in Hflag.
  rewrite Hflag, drawComponent_fst in Hfl.
  destruct (vanishes (beforeDraw inp m) comp) eqn:Ev.
  - apply vanishes_iff in Ev. destruct Ev as [Hb _]. auto.
  - exact (Hf i comp Hn Hfl).
Qed.

Lemma roundConsistent_initial : roundConsistent initialGlobals.
Proof.
  unfold roundConsistent, outcome. cbn.
  split; [discriminate|]. split.
  { split; [discriminate|]. unfold GAME_DURATION. lra. }
  split; [discriminate|]. split; [reflexivity|]. split.
  { intros _. unfold allAtLeast, OPACITY_THRESHOLD. cbn. repeat split; lra. }
  intros i comp _ Hf.
  change (nth i (repeat false (List.length buildingComponents)) false = true)
    in Hf.
  rewrite nth_repeat_false in Hf. discriminate.
Qed.

Lemma reachable_roundConsistent (inputs : list Input) :
  roundConsistent (globals (run inputs initialMachine)).
Proof.
  apply (run_invariant (fun _ => True)
           (fun m => roundConsistent (globals m))).
  - intros inp m _. apply roundConsistent_frame.
  - apply Forall_True.
  - apply roundConsistent_initial.
Qed.

(** After any run of the game, whatever the keys and the frame times: the
    round is in exactly one of the three outcomes; it is won exactly when
    the timer has reached 10; a collapse runs only in a lost round; the
    collapse clock is 0 when no collapse runs; unless the round is lost,
    every pillar opacity is at the threshold or above. *)
Theorem reachable_state_machine (inputs : list Input) :
  let g := globals (run inputs initialMachine) in
  (outcome g = Some InProgress \/ outcome g = Some Won \/
   outcome g = Some Lost) /\
  (outcome g = Some Won <-> GAME_DURATION <= gameTimer g) /\
  (boomStarted g = true -> outcome g = Some Lost) /\
  (boomStarted g = false -> boomTimer g = 0) /\
  (outcome g <> Some Lost -> allAtLeast OPACITY_THRESHOLD (pillarOpacity g)).
Proof.
  cbv zeta. set (g := globals (run inputs initialMachine)).
  destruct (reachable_roundConsistent inputs)
    as (Ho & Hw & Hbl & Ht & Hal & _).
  fold g in Ho, Hw, Hbl, Ht, Hal.
  pose proof (outcome_cases g Ho) as Hc.
  split; [exact Hc|]. split; [|split; [|split]].
  - rewrite <- Hw. split.
    + intro H. apply outcome_Won in H. tauto.
    + intro H. destruct Hc as [Hc|[Hc|Hc]]; [|exact Hc|].
      * apply outcome_InProgress in Hc. destruct Hc as (_ & ? & _).
        congruence.
      * apply outcome_Lost in Hc. destruct Hc as (_ & ? & _). congruence.
  - intro Hb. specialize (Hbl Hb).
    destruct Hc as [Hc|[Hc|Hc]]; [| |exact Hc].
    + apply outcome_InProgress in Hc. destruct Hc as (_ & _ & ?). congruence.
    + apply outcome_Won in Hc. destruct Hc as (_ & _ & ?). congruence.
  - exact Ht.
  - intro Hn. apply Hal. destruct (gameLost g) eqn:El; [|reflexivity].
    exfalso. apply Hn. destruct Hc as [Hc|[Hc|Hc]]; [| |exact Hc].
    + apply outcome_InProgress in Hc. destruct Hc as (_ & _ & ?). congruence.
    + apply outcome_Won in Hc. destruct Hc as (_ & _ & ?). congruence.
Qed.

(** *** A round that is over *)

Lemma frame_round_over (inp : Input) (m : Machine) :
  gameActive (globals m) = false -> resets inp m = false ->
  sameRound (globals m) (globals (fst (frame inp m))).
Proof.
  intros Ha Hr. rewrite frame_logic. cbv zeta.
  assert (E : globals (processInput inp m) = globals m).
  { rewrite processInput_globals, Hr. unfold boosts. rewrite Ha.
    now rewrite andb_false_r. }
  rewrite E, updateGameLogic_idle by (now left).
  unfold sameRound.
  destruct (boomStarted (globals m));
    [rewrite updateBoomAnimation_frame|]; cbn; repeat split; reflexivity.
Qed.

(** Once the round is over, won or lost, nothing but R changes it: over any
    run without the R key the opacities, the timer, the three outcome flags
    and the status message stay as they are, whatever SPACE does and
    whatever the frame times. *)
Theorem round_over_is_frozen (inputs : list Input) (m : Machine) :
  gameActive (globals m) = false ->
  Forall (fun inp => keyR inp = false) inputs ->
  sameRound (globals m) (globals (run inputs m)).
Proof.
  intros Ha Hr.
  apply (run_invariant (fun inp => keyR inp = false)
           (fun m' => sameRound (globals m) (globals m'))).
  - intros inp m' Hk (Hp & Ht & Hact & Hw & Hl & Hs).
    assert (Hres : resets inp m' = false) by (unfold resets; now rewrite Hk).
    assert (Ha' : gameActive (globals m') = false) by congruence.
    destruct (frame_round_over inp m' Ha' Hres)
      as (Hp' & Ht' & Hact' & Hw' & Hl' & Hs').
    unfold sameRound. repeat split; congruence.
  - exact Hr.
  - unfold sameRound. repeat split; reflexivity.
Qed.

(** The theorem on the machine that has just lost, over frames that tap
    SPACE. *)
Lemma round_over_is_frozen_witness :
  sameRound (globals collapsing)
            (globals (run [press; release; press] collapsing)).
Proof.
  apply round_over_is_frozen; [reflexivity | repeat constructor].
Defined.

(** *** The collapse clock *)

Lemma frame_boomTimer_range (inp : Input) (m : Machine) :
  0 <= deltaTime inp ->
  0 <= boomTimer (globals m) < BOOM_DURATION ->
  0 <= boomTimer (globals (fst (frame inp m))) < BOOM_DURATION.
Proof.
  intros Hdt H. rewrite frame_logic. cbv zeta.
  cbn [set_componentDisappeared set_bg boomTimer].
  assert (H1 : 0 <= boomTimer (globals (processInput inp m))
               < BOOM_DURATION).
  { rewrite processInput_globals. cbv zeta. destruct (resets inp m).
    - rewrite resetGame_eq. cbn. unfold BOOM_DURATION. lra.
    - destruct (boosts inp m); exact H. }
  set (g1 := globals (processInput inp m)) in *.
  assert (H2 : 0 <= boomTimer (updateGameLogic (deltaTime inp) g1)
               < BOOM_DURATION).
  { destruct (gameActive g1) eqn:Ha.
    2: { rewrite updateGameLogic_idle; auto. }
    destruct (boomStarted g1) eqn:Hb.
    1: { rewrite updateGameLogic_idle; auto. }
    destruct (anyBelow_or_allAtLeast OPACITY_THRESHOLD
                (decay (deltaTime inp) (pillarOpacity g1))) as [Hany|Hall].
    - rewrite (updateGameLogic_lose _ g1 Ha Hb Hany). cbn.
      unfold BOOM_DURATION. lra.
    - rewrite (updateGameLogic_survive _ g1 Ha Hb Hall). exact H1. }
  set (g := updateGameLogic (deltaTime inp) g1) in *.
  destruct (boomStarted g); [|exact H2].
  unfold updateBoomAnimation. cbn [set_boomTimer boomTimer].
  destruct (geb (boomTimer g + deltaTime inp) BOOM_DURATION) eqn:E; cbn.
  - unfold BOOM_DURATION. lra.
  - apply geb_lt in E. lra.
Qed.

(** After every frame of a run with non-negative frame times the collapse
    clock lies in [[0, 2.5)]: a collapse that reaches its duration is over
    in that very frame. *)
Theorem collapse_clock_in_range (inputs : list Input) :
  nonnegTicks inputs ->
  0 <= boomTimer (globals (run inputs initialMachine)) < BOOM_DURATION.
Proof.
  intro Hdt.
  apply (run_invariant (fun inp => 0 <= deltaTime inp)
           (fun m => 0 <= boomTimer (globals m) < BOOM_DURATION)).
  - intros inp m. apply frame_boomTimer_range.
  - exact Hdt.
  - cbn. unfold BOOM_DURATION. lra.
Qed.

(** The theorem on a losing frame of 2.4 seconds followed by a frame of 0.2
    seconds, which ends the collapse. *)
Lemma collapse_clock_in_range_witness :
  0 <= boomTimer
         (globals (run [mkInput 2.4 false false false;
                        mkInput 0.2 false false false] initialMachine))
  < BOOM_DURATION.
Proof.
  apply collapse_clock_in_range. repeat constructor; cbn; lra.
Defined.

(** *** Frames that draw the whole scene *)

Lemma drawLoop_resting (comps : list BuildingComponent) (start : nat)
      (g : Globals) :
  boomStarted g = false ->
  (forall j comp, nth_error comps j = Some comp ->
                  nth (start + j) (componentDisappeared g) false = false) ->
  drawLoop start comps g = (g, restingFrom start comps g).
Proof.
  intro Hb. revert start.
  induction comps as [|c rest IH]; intros start Hf; [reflexivity|].
  cbn [drawLoop restingFrom].
  assert (E : drawComponent start c g =
              (g, Some (mkDrawCall start
                          [ Translate (x c) (y c);
                            Scale (width c) (height c) ]
                          (pieceColor g start c)))).
  { unfold drawComponent. rewrite Hb, andb_false_r.
    specialize (Hf 0%nat c eq_refl). rewrite Nat.add_0_r in Hf.
    now rewrite Hf. }
  rewrite E, IH; [reflexivity|].
  intros j comp Hn. specialize (Hf (S j) comp Hn).
  now replace (S start + j)%nat with (start + S j)%nat by lia.
Qed.

Lemma restingFrom_ext (comps : list BuildingComponent) (start : nat)
      (g : Globals) (flags : list bool) :
  restingFrom start comps (set_componentDisappeared flags g) =
  restingFrom start comps g.
Proof.
  revert start. induction comps as [|c rest IH]; intro start; cbn;
    [reflexivity|]. now rewrite IH.
Qed.

Lemma restingFrom_length (comps : list BuildingComponent) (start : nat)
      (g : Globals) :
  List.length (restingFrom start comps g) = List.length comps.
Proof.
  revert start. induction comps as [|c rest IH]; intro start; cbn;
    [reflexivity|]. now rewrite IH.
Qed.

(** A frame whose drawing loop starts with no collapse running and no piece
    flagged draws the whole scene at rest and clears the screen once. *)
Lemma frame_resting (inp : Input) (m : Machine) :
  boomStarted (beforeDraw inp m) = false ->
  (forall j comp, nth_error buildingComponents j = Some comp ->
                  nth j (componentDisappeared (beforeDraw inp m)) false
                  = false) ->
  let g' := globals (fst (frame inp m)) in
  draws (snd (frame inp m)) = restingScene g' /\
  clears (snd (frame inp m)) = [ Plain (bgRed g') (bgGreen g') (bgBlue g') ]
  /\
  g' = beforeDraw inp m.
Proof.
  intros Hb Hf. cbv zeta.
  assert (E : drawLoop 0 buildingComponents (beforeDraw inp m) =
              (beforeDraw inp m,
               restingFrom 0 buildingComponents (beforeDraw inp m))).
  { apply drawLoop_resting; [exact Hb | exact Hf]. }
  assert (Hg : globals (fst (frame inp m)) = beforeDraw inp m).
  { rewrite frame_globals. destruct (frame_draws inp m) as [_ ->].
    rewrite E. cbn [fst]. now destruct (beforeDraw inp m). }
  rewrite Hg. split; [|split; [|reflexivity]].
  - destruct (frame_draws inp m) as [-> _]. now rewrite E.
  - rewrite frame_clears. cbv zeta. now rewrite Hb.
Qed.

Lemma unflagged_unless_lost (g : Globals) :
  roundConsistent g -> gameLost g = false ->
  boomStarted g = false /\
  forall j comp, nth_error buildingComponents j = Some comp ->
                 nth j (componentDisappeared g) false = false.
Proof.
  intros (_ & _ & Hbl & _ & _ & Hf) Hl. split.
  - destruct (boomStarted g); [|reflexivity]. specialize (Hbl eq_refl).
    congruence.
  - intros j comp Hn.
    destruct (nth j (componentDisappeared g) false) eqn:E; [|reflexivity].
    specialize (Hf j comp Hn E). congruence.
Qed.

(** In every frame of every run that leaves the round not lost (in progress
    or won), all 29 pieces are drawn, in scene order, each translated to its
    centre and scaled to its size, and the screen is cleared once, with the
    background colour. *)
Theorem unlost_frame_draws_scene (inputs : list Input) (inp : Input) :
  let m := run inputs initialMachine in
  let g' := globals (fst (frame inp m)) in
  let out := snd (frame inp m) in
  gameLost g' = false ->
  draws out = restingScene g' /\
  List.length (draws out) = 29%nat /\
  clears out = [ Plain (bgRed g') (bgGreen g') (bgBlue g') ].
Proof.
  cbv zeta. set (m := run inputs initialMachine). intro Hl.
  pose proof (reachable_roundConsistent inputs) as HC. fold m in HC.
  apply (roundConsistent_beforeDraw inp) in HC.
  destruct (frame_collapse inp m) as (_ & _ & El). rewrite El in Hl.
  destruct (unflagged_unless_lost _ HC Hl) as [Hb Hf].
  destruct (frame_resting inp m Hb Hf) as (Hd & Hc & _).
  split; [exact Hd|]. split; [|exact Hc].
  rewrite Hd. unfold restingScene. now rewrite restingFrom_length.
Qed.

(** The theorem on the first frame of the game. *)
Lemma unlost_frame_draws_scene_witness :
  draws (snd (frame press initialMachine)) =
  restingScene (globals (fst (frame press initialMachine))).
Proof.
  exact (proj1 (unlost_frame_draws_scene [] press eq_refl)).
Defined.

(** *** A frame longer than the collapse *)

Lemma reachable_unitRange (inputs : list Input) :
  nonnegTicks inputs ->
  unitRange (pillarOpacity (globals (run inputs initialMachine))).
Proof.
  intro Hdt.
  apply (run_invariant (fun inp => 0 <= deltaTime inp)
           (fun m => unitRange (pillarOpacity (globals m)))).
  - intros inp m. apply frame_unitRange.
  - exact Hdt.
  - unfold unitRange. cbn. repeat split; lra.
Qed.

Lemma processInput_in_progress (inp : Input) (m : Machine) :
  outcome (globals m) = Some InProgress ->
  boomStarted (globals m) = false ->
  (forall j comp, nth_error buildingComponents j = Some comp ->
                  nth j (componentDisappeared (globals m)) false = false) ->
  let g1 := globals (processInput inp m) in
  gameActive g1 = true /\ boomStarted g1 = false /\
  forall j comp, nth_error buildingComponents j = Some comp ->
                 nth j (componentDisappeared g1) false = false.
Proof.
  intros Ho Hb Hf. apply outcome_InProgress in Ho.
  destruct Ho as (Ha & _ & _). cbv zeta.
  rewrite processInput_globals. cbv zeta. destruct (resets inp m).
  - rewrite resetGame_eq. cbn. repeat split.
    intros j comp _. apply nth_map_false.
  - destruct (boosts inp m); cbn; auto.
Qed.

(** A frame of 2.5 seconds or more, taken while the round is in progress,
    loses the round and shows no collapse at all: the fade of 0.2 per second
    brings every opacity to 0.5 or below, the collapse is started and is
    over within the same frame, so the frame clears the screen once with the
    lost colour, no piece is flagged and the whole scene is drawn at
    rest. *)
Theorem long_frame_skips_collapse (inputs : list Input) (inp : Input) :
  nonnegTicks inputs ->
  let m := run inputs initialMachine in
  let g' := globals (fst (frame inp m)) in
  let out := snd (frame inp m) in
  outcome (globals m) = Some InProgress ->
  BOOM_DURATION <= deltaTime inp ->
  outcome g' = Some Lost /\ boomStarted g' = false /\
  clears out = [ Plain 1 0.2 0.2 ] /\
  draws out = restingScene g' /\
  (forall j comp, nth_error buildingComponents j = Some comp ->
                  nth j (componentDisappeared g') false = false).
Proof.
  intro Hdt. cbv zeta. set (m := run inputs initialMachine).
  intros Ho Hlong.
  pose proof (reachable_roundConsistent inputs) as HC. fold m in HC.
  pose proof (reachable_unitRange inputs Hdt) as Hu. fold m in Hu.
  assert (Hl : gameLost (globals m) = false)
    by (apply outcome_InProgress in Ho; tauto).
  destruct (unflagged_unless_lost _ HC Hl) as [Hb Hf].
  destruct (processInput_in_progress inp m Ho Hb Hf) as (Ha1 & Hb1 & Hf1).
  cbv zeta in Ha1, Hb1, Hf1.
  apply (processInput_unitRange inp) in Hu.
  apply (roundConsistent_processInput inp) in HC.
  set (g1 := globals (processInput inp m)) in *.
  assert (Hany : anyBelow OPACITY_THRESHOLD
                          (decay (deltaTime inp) (pillarOpacity g1))).
  { left. unfold decay, map4. cbn [at0].
    destruct Hu as ((_ & H1) & _).
    apply (Qle_lt_trans _ 0.5); [|unfold OPACITY_THRESHOLD; lra].
    apply max_upper; unfold OPACITY_FADE_RATE, BOOM_DURATION in *; lra. }
  pose proof (updateGameLogic_lose (deltaTime inp) g1 Ha1 Hb1 Hany) as E.
  assert (Hw1 : gameWon g1 = false).
  { destruct HC as (Hout & _). unfold outcome in Hout. rewrite Ha1 in Hout.
    destruct (gameWon g1); [|reflexivity].
    destruct (gameLost g1); congruence. }
  assert (Eb : beforeDraw inp m =
               {| pillarOpacity := decay (deltaTime inp) (pillarOpacity g1);
                  gameTimer := gameTimer g1;
                  gameActive := false;
                  gameWon := false;
                  gameLost := true;
                  gameStatus := "LOST! Pillars collapsed!";
                  boomStarted := false;
                  boomTimer := 0;
                  componentDisappeared := componentDisappeared g1;
                  bgRed := 1;
                  bgGreen := 0.2;
                  bgBlue := 0.2 |}).
  { rewrite beforeDraw_eq. cbv zeta. fold g1. rewrite E, Hw1.
    cbn [boomStarted]. unfold updateBoomAnimation, updateBackgroundColor.
    cbn [set_boomTimer boomTimer gameLost gameActive negb andb].
    assert (Eg : geb (0 + deltaTime inp) BOOM_DURATION = true).
    { apply geb_le. lra. }
    rewrite Eg. reflexivity. }
  assert (Hbd : boomStarted (beforeDraw inp m) = false) by now rewrite Eb.
  assert (Hfd : forall j comp,
             nth_error buildingComponents j = Some comp ->
             nth j (componentDisappeared (beforeDraw inp m)) false = false).
  { rewrite Eb. exact Hf1. }
  destruct (frame_resting inp m Hbd Hfd) as (Hd & Hc & Hg).
  cbv zeta in Hd, Hc, Hg. rewrite Hc, Hd, Hg, Eb.
  repeat split; try reflexivity. exact Hf1.
Qed.

(** The theorem on a first frame of three seconds. *)
Lemma long_frame_skips_collapse_witness :
  outcome (globals (fst (frame (mkInput 3 false false false)
                               initialMachine))) = Some Lost /\
  clears (snd (frame (mkInput 3 false false false) initialMachine)) =
  [ Plain 1 0.2 0.2 ] /\
  draws (snd (frame (mkInput 3 false false false) initialMachine)) =
  restingScene (globals (fst (frame (mkInput 3 false false false)
                                    initialMachine))).
Proof.
  assert (Hdt : nonnegTicks []) by constructor.
  assert (Hlong : BOOM_DURATION <= 3) by (unfold BOOM_DURATION; lra).
  destruct (long_frame_skips_collapse [] (mkInput 3 false false false)
              Hdt eq_refl Hlong) as (Ho & _ & Hc & Hd & _).
  auto.
Defined.

(** *** R restarts the round *)

(** A frame in which R goes down restarts the round from any state
    whatever, collapsed or not.  The frame's own decay then runs on four
    opacities of 1; if what it computes is at the threshold or above, the
    round is in progress after the frame, no collapse runs, the opacities
    are that decay of 1, the timer is [0 + dt], and the whole scene is drawn
    at rest. *)
Theorem reset_restarts_round (inp : Input) (m : Machine) :
  resets inp m = true ->
  allAtLeast OPACITY_THRESHOLD (decay (deltaTime inp) (mkFloat4 1 1 1 1)) ->
  let g' := globals (fst (frame inp m)) in
  let out := snd (frame inp m) in
  outcome g' = Some InProgress /\ boomStarted g' = false /\
  gameTimer g' = 0 + deltaTime inp /\
  pillarOpacity g' = decay (deltaTime inp) (mkFloat4 1 1 1 1) /\
  draws out = restingScene g'.
Proof.
  intros Hr Hall0. cbv zeta.
  set (g0 := if boosts inp m
             then set_pillarOpacity (boost (pillarOpacity (globals m)))
                                    (globals m)
             else globals m).
  assert (E1 : globals (processInput inp m) = resetGame g0).
  { rewrite processInput_globals. cbv zeta. now rewrite Hr. }
  assert (Hdt : deltaTime inp <= 2.25).
  { destruct Hall0 as (H0 & _). unfold decay, map4 in H0. cbn [at0] in H0.
    assert (Hpos : 0 < OPACITY_THRESHOLD) by (unfold OPACITY_THRESHOLD; lra).
    rewrite (max_left_above _ 0 _ Hpos H0) in H0.
    unfold OPACITY_THRESHOLD, OPACITY_FADE_RATE in H0. lra. }
  assert (Hall : allAtLeast OPACITY_THRESHOLD
                   (decay (deltaTime inp) (pillarOpacity (resetGame g0)))).
  { rewrite resetGame_eq. exact Hall0. }
  pose proof (updateGameLogic_survive (deltaTime inp) (resetGame g0)) as E.
  rewrite resetGame_eq in E, Hall. specialize (E eq_refl eq_refl Hall).
  cbv zeta in E. cbn [gameTimer pillarOpacity gameWon gameLost gameStatus
                      boomTimer componentDisappeared bgRed bgGreen bgBlue]
    in E.
  assert (Eg : geb (0 + deltaTime inp) GAME_DURATION = false).
  { apply geb_lt. unfold GAME_DURATION. lra. }
  rewrite Eg in E. cbn [negb] in E.
  assert (Eb : exists r gr b,
             beforeDraw inp m =
             {| pillarOpacity := decay (deltaTime inp) (mkFloat4 1 1 1 1);
                gameTimer := 0 + deltaTime inp;
                gameActive := true;
                gameWon := false;
                gameLost := false;
                gameStatus := "Keep Clicking!";
                boomStarted := false;
                boomTimer := 0;
                componentDisappeared :=
                  map (fun _ => false) (componentDisappeared g0);
                bgRed := r; bgGreen := gr; bgBlue := b |}).
  { rewrite beforeDraw_eq. cbv zeta. rewrite E1, resetGame_eq, E.
    cbn [boomStarted]. do 3 eexists. reflexivity. }
  destruct Eb as (r & gr & b & Eb).
  assert (Hbd : boomStarted (beforeDraw inp m) = false) by now rewrite Eb.
  assert (Hfd : forall j comp,
             nth_error buildingComponents j = Some comp ->
             nth j (componentDisappeared (beforeDraw inp m)) false = false).
  { rewrite Eb. intros j comp _. apply nth_map_false. }
  destruct (frame_resting inp m Hbd Hfd) as (Hd & _ & Hg).
  cbv zeta in Hd, Hg. rewrite Hd, Hg, Eb. cbn.
  repeat split; reflexivity.
Qed.

(** The theorem on the collapsing machine: R brings the scene back. *)
Lemma reset_restarts_round_witness :
  outcome (globals (fst (frame (mkInput 0.05 false true false)
                               collapsing))) = Some InProgress /\
  draws (snd (frame (mkInput 0.05 false true false) collapsing)) =
  restingScene (globals (fst (frame (mkInput 0.05 false true false)
                                    collapsing))).
Proof.
  assert (Hall : allAtLeast OPACITY_THRESHOLD
                   (decay 0.05 (mkFloat4 1 1 1 1))).
  { vm_compute. repeat split; intro H; discriminate H. }
  destruct (reset_restarts_round (mkInput 0.05 false true false) collapsing
              eq_refl Hall) as (Ho & _ & _ & _ & Hd).
  auto.
Defined.

(** *** The end of a collapse *)

Lemma drawLoop_indices_lt (comps : list BuildingComponent) (start : nat)
      (g : Globals) :
  Forall (fun c => (index c < start + List.length comps)%nat)
         (snd (drawLoop start comps g)).
Proof.
  revert start g. induction comps as [|comp rest IH]; intros start g; cbn.
  - constructor.
  - pose proof (drawComponent_index start comp g) as Hi.
    destruct (drawComponent start comp g) as [g1 call]. cbn in Hi.
    specialize (IH (S start) g1).
    destruct (drawLoop (S start) rest g1) as [g2 calls]. cbn in *.
    assert (Hrest : Forall (fun c => (index c < start + S (List.length rest))
                                     %nat) calls).
    { eapply Forall_impl; [|exact IH]. cbn. intros; lia. }
    destruct call as [c|]; [|exact Hrest].
    constructor; [|exact Hrest]. rewrite (Hi c eq_refl). lia.
Qed.

(** A frame in which no piece of the scene is drawn has no draw call. *)
Lemma frame_draws_nothing (inp : Input) (m : Machine) :
  (forall i comp, nth_error buildingComponents i = Some comp ->
                  drawnAs i (snd (frame inp m)) = None) ->
  draws (snd (frame inp m)) = [].
Proof.
  intro H. destruct (draws (snd (frame inp m))) as [|c rest] eqn:E;
    [reflexivity|]. exfalso.
  assert (Hi : (index c < List.length buildingComponents)%nat).
  { destruct (frame_draws inp m) as [Hd _]. rewrite E in Hd.
    pose proof (drawLoop_indices_lt buildingComponents 0
                  (beforeDraw inp m)) as Hlt.
    rewrite <- Hd in Hlt. inversion Hlt; subst. assumption. }
  destruct (nth_error buildingComponents (index c)) as [comp|] eqn:En.
  - specialize (H (index c) comp En). unfold drawnAs in H.
    rewrite E in H. cbn in H. rewrite Nat.eqb_refl in H. discriminate.
  - apply nth_error_None in En. lia.
Qed.

Lemma scene_windows_close :
  Forall (fun comp => disappearTime comp + 0.5 <= 1.39) buildingComponents.
Proof. unfold buildingComponents. repeat constructor; cbn; lra. Qed.

Lemma collapseFlagged_frame (inp : Input) (m : Machine) :
  List.length (componentDisappeared (globals m)) =
  List.length buildingComponents ->
  collapseFlagged (globals (fst (frame inp m))).
Proof.
  intros Hlen Hb i comp Hn Ht.
  destruct (frame_collapse inp m) as (Eb & Et & _).
  rewrite Eb in Hb. rewrite Et in Ht.
  destruct (frame_piece inp m i comp Hn) as [_ ->].
  rewrite drawComponent_fst.
  assert (Ev : vanishes (beforeDraw inp m) comp = true)
    by (apply vanishes_iff; auto).
  rewrite Ev. cbn. apply nth_assign_same.
  rewrite beforeDraw_flags, processInput_length, Hlen.
  apply nth_error_Some. congruence.
Qed.

Lemma reachable_collapseFlagged (inputs : list Input) :
  collapseFlagged (globals (run inputs initialMachine)) /\
  List.length (componentDisappeared (globals (run inputs initialMachine))) =
  List.length buildingComponents.
Proof.
  apply (run_invariant (fun _ => True)
           (fun m => collapseFlagged (globals m) /\
                     List.length (componentDisappeared (globals m)) =
                     List.length buildingComponents)).
  - intros inp m _ [_ Hl]. split.
    + now apply collapseFlagged_frame.
    + now rewrite frame_length.
  - apply Forall_True.
  - split; [|reflexivity]. intro Hb. discriminate Hb.
Qed.

(** When frames last at most 1.11 seconds a collapse leaves nothing of the
    scene: in the frame whose time takes the collapse clock to 2.5 or
    beyond, without R, the collapse ends, every piece of the scene is
    flagged, nothing is drawn and the screen is cleared once, with the lost
    colour. *)
Theorem collapse_completes (inputs : list Input) (inp : Input) :
  nonnegTicks (inputs ++ [inp]) ->
  let m := run inputs initialMachine in
  let g' := globals (fst (frame inp m)) in
  let out := snd (frame inp m) in
  boomStarted (globals m) = true -> resets inp m = false ->
  deltaTime inp <= 1.11 ->
  BOOM_DURATION <= boomTimer (globals m) + deltaTime inp ->
  boomStarted g' = false /\ boomTimer g' = 0 /\ allFlagged g' /\
  draws out = [] /\ clears out = [ Plain 1 0.2 0.2 ].
Proof.
  intro Hdt. cbv zeta. set (m := run inputs initialMachine).
  intros Hb Hr Hshort Hend.
  unfold nonnegTicks in Hdt. apply Forall_app in Hdt.
  destruct Hdt as [Hdt Hinp]. inversion Hinp as [|? ? Hdt0 _]; subst.
  destruct (reachable_consistent inputs Hdt) as [HC Hlen].
  cbv zeta in HC, Hlen. fold m in HC, Hlen.
  destruct (reachable_collapseFlagged inputs) as [HJ _]. fold m in HJ.
  pose proof (reachable_roundConsistent inputs) as HR. fold m in HR.
  assert (Hall : allFlagged (globals m)).
  { intros i comp Hn. apply (HJ Hb i comp Hn).
    pose proof scene_windows_close as Hs. rewrite Forall_forall in Hs.
    specialize (Hs comp (nth_error_In _ _ Hn)). cbv beta in Hs.
    unfold BOOM_DURATION in Hend. lra. }
  assert (Hlost : gameLost (globals m) = true)
    by (destruct HR as (_ & _ & Hbl & _); auto).
  assert (Hact : gameActive (globals m) = false)
    by (destruct HC as [H1 _]; auto).
  assert (Eg : globals (processInput inp m) = globals m).
  { rewrite processInput_globals, Hr. unfold boosts. rewrite Hact.
    now rewrite andb_false_r. }
  assert (Hbd : boomStarted (beforeDraw inp m) = false /\
                boomTimer (beforeDraw inp m) = 0 /\
                bgRed (beforeDraw inp m) = 1 /\
                bgGreen (beforeDraw inp m) = 0.2 /\
                bgBlue (beforeDraw inp m) = 0.2).
  { rewrite beforeDraw_eq. cbv zeta. rewrite Eg.
    rewrite updateGameLogic_idle by (now left). rewrite Hb.
    unfold updateBackgroundColor, updateBoomAnimation.
    rewrite Hlost. cbn [negb andb set_boomTimer boomTimer].
    apply geb_le in Hend. rewrite Hend. cbn. auto. }
  destruct Hbd as (Hb' & Ht' & Hr' & Hg' & Hbl').
  destruct (frame_collapse inp m) as (Eb & Et & _).
  rewrite Eb, Et. split; [exact Hb'|]. split; [exact Ht'|].
  assert (Hrem : forall i comp,
             nth_error buildingComponents i = Some comp ->
             drawnAs i (snd (frame inp m)) = None /\
             nth i (componentDisappeared (globals (fst (frame inp m))))
                 false = true).
  { intros i comp Hn.
    exact (frame_removed inp m i comp HC Hdt0 Hr Hn (Hall i comp Hn)). }
  split; [|split].
  - intros i comp Hn. exact (proj2 (Hrem i comp Hn)).
  - apply frame_draws_nothing. intros i comp Hn.
    exact (proj1 (Hrem i comp Hn)).
  - rewrite frame_clears. cbv zeta. now rewrite Hb', Hr', Hg', Hbl'.
Qed.

(** The theorem on a collapse stepped in frames of one second: it starts
    after 2.25 seconds at the threshold and a crossing frame of 0.6
    seconds, and the second frame of one second ends it. *)
Lemma collapse_completes_witness :
  boomStarted
    (globals
       (fst (frame (mkInput 1 false false false)
                   (run [mkInput 2.25 false false false; crossing;
                         mkInput 1 false false false] initialMachine))))
  = false /\
  draws
    (snd (frame (mkInput 1 false false false)
                (run [mkInput 2.25 false false false; crossing;
                      mkInput 1 false false false] initialMachine))) = [].
Proof.
  assert (Hdt : nonnegTicks
                  ([mkInput 2.25 false false false; crossing;
                    mkInput 1 false false false]
                   ++ [mkInput 1 false false false])).
  { repeat constructor; cbn; lra. }
  assert (Hs : 1 <= 1.11) by lra.
  assert (He : BOOM_DURATION <=
               boomTimer
                 (globals (run [mkInput 2.25 false false false; crossing;
                                mkInput 1 false false false]
                               initialMachine)) + 1).
  { vm_compute. intro H. discriminate H. }
  destruct (collapse_completes _ _ Hdt eq_refl eq_refl Hs He)
    as (Hb & _ & _ & Hd & _).
  split; [exact Hb | exact Hd].
Defined.

(** *** The keys ESCAPE and R *)

Lemma frame_windowShouldClose (inp : Input) (m : Machine) :
  windowShouldClose (fst (frame inp m)) =
  keyEscape inp || windowShouldClose m.
Proof.
  destruct (frame_latches inp m) as (_ & _ & ->).
  apply processInput_windowShouldClose.
Qed.

(** ESCAPE ends the driver loop after the frame that reads it, which is
    still run in full; and the loop does not stop on its own: over frames
    without ESCAPE it runs one frame per input. *)
Theorem escape_ends_loop (inp : Input) (inputs : list Input) (m : Machine) :
  windowShouldClose m = false ->
  (keyEscape inp = true ->
   mainLoop (inp :: inputs) m = (fst (frame inp m), [snd (frame inp m)])) /\
  (Forall (fun i => keyEscape i = false) inputs ->
   List.length (snd (mainLoop inputs m)) = List.length inputs /\
   windowShouldClose (run inputs m) = false).
Proof.
  intro Hc. split.
  - intro He. cbn [mainLoop]. rewrite Hc.
    pose proof (frame_windowShouldClose inp m) as Hw. rewrite He in Hw.
    destruct (frame inp m) as [m1 out]. cbn [fst snd] in *.
    destruct inputs as [|i rest]; [reflexivity|].
    cbn [mainLoop]. now rewrite Hw.
  - revert m Hc. induction inputs as [|i rest IH]; intros m Hc He.
    + split; [reflexivity | exact Hc].
    + inversion He as [|? ? Hi He']; subst.
      rewrite run_cons. cbn [mainLoop]. rewrite Hc.
      pose proof (frame_windowShouldClose i m) as Hw.
      rewrite Hi, Hc in Hw. cbn in Hw.
      destruct (frame i m) as [m1 out]. cbn [fst snd] in *.
      destruct (IH m1 Hw He') as [Hl Hr].
      destruct (mainLoop rest m1) as [m2 outs]. cbn [fst snd] in *.
      split; [cbn [List.length]; now f_equal | exact Hr].
Qed.

(** The theorem on the initial machine: ESCAPE in the first of three
    frames. *)
Lemma escape_ends_loop_witness :
  mainLoop [mkInput 0.5 true false true; press; release] initialMachine =
  (fst (frame (mkInput 0.5 true false true) initialMachine),
   [snd (frame (mkInput 0.5 true false true) initialMachine)]).
Proof.
  exact (proj1 (escape_ends_loop (mkInput 0.5 true false true)
                  [press; release] initialMachine eq_refl) eq_refl).
Defined.

Lemma frame_rPressed (inp : Input) (m : Machine) :
  rPressed (fst (frame inp m)) = keyR inp.
Proof.
  destruct (frame_latches inp m) as (_ & -> & _).
  apply processInput_rPressed.
Qed.

Lemma last_cons_default {A : Type} (a d : A) (l : list A) :
  last (a :: l) d = last l a.
Proof.
  revert a d. induction l as [|b l IH]; intros a d; [reflexivity|].
  change (last (a :: b :: l) d) with (last (b :: l) d).
  rewrite IH. symmetry. apply IH.
Qed.

(** While the loop runs, the latch of R is the R key of the frame before. *)
Lemma run_rPressed (inputs : list Input) (m : Machine) :
  windowShouldClose m = false ->
  Forall (fun i => keyEscape i = false) inputs ->
  rPressed (run inputs m) = keyRBefore (rPressed m) inputs.
Proof.
  unfold keyRBefore.
  revert m. induction inputs as [|inp rest IH]; intros m Hc He;
    [reflexivity|].
  inversion He as [|? ? Hi He']; subst.
  rewrite run_cons, Hc. cbn [map]. rewrite last_cons_default.
  rewrite <- (frame_rPressed inp m). apply IH; [|exact He'].
  now rewrite frame_windowShouldClose, Hi, Hc.
Qed.

(** The R key is triggered by its rising edge and by nothing else.  In
    every frame the loop runs, whatever the state of the round,
    [processInput] leaves the globals reset by [resetGame] (four opacities
    of 1, timer 0, round in progress, no collapse, no piece flagged)
    exactly when R is down and was not down in the frame before; in every
    other frame it leaves the timer, the flags of the round and the flags
    of the pieces as they were, and the opacities too unless SPACE boosts
    them. *)
Theorem reset_on_rising_edges (inputs : list Input) (inp : Input)
        (m : Machine) :
  windowShouldClose m = false ->
  Forall (fun i => keyEscape i = false) inputs ->
  let m' := run inputs m in
  let edge := keyR inp && negb (keyRBefore (rPressed m) inputs) in
  let g :=
    if boosts inp m'
    then set_pillarOpacity (boost (pillarOpacity (globals m'))) (globals m')
    else globals m' in
  let g1 := globals (processInput inp m') in
  g1 = (if edge then resetGame g else g) /\
  (edge = true ->
   pillarOpacity g1 = mkFloat4 1 1 1 1 /\ gameTimer g1 = 0 /\
   outcome g1 = Some InProgress /\ boomStarted g1 = false /\
   boomTimer g1 = 0 /\
   componentDisappeared g1 =
   repeat false (List.length (componentDisappeared (globals m')))) /\
  (edge = false ->
   gameTimer g1 = gameTimer (globals m') /\
   outcome g1 = outcome (globals m') /\
   boomStarted g1 = boomStarted (globals m') /\
   boomTimer g1 = boomTimer (globals m') /\
   componentDisappeared g1 = componentDisappeared (globals m') /\
   (boosts inp m' = false ->
    pillarOpacity g1 = pillarOpacity (globals m'))).
Proof.
  intros Hc He. cbv zeta.
  rewrite <- (run_rPressed inputs m Hc He).
  fold (resets inp (run inputs m)).
  rewrite processInput_globals. cbv zeta.
  set (m' := run inputs m).
  destruct (resets inp m') eqn:Hr.
  - split; [reflexivity|]. split; [|intro H; discriminate H].
    intros _. rewrite resetGame_eq.
    cbn [pillarOpacity gameTimer boomStarted boomTimer componentDisappeared].
    repeat split.
    rewrite map_false_repeat. destruct (boosts inp m'); reflexivity.
  - split; [reflexivity|]. split; [intro H; discriminate H|].
    intros _. destruct (boosts inp m'); cbn; repeat split; try reflexivity.
    intro H; discriminate H.
Qed.

(** The theorem on the run that holds SPACE through a reset: R goes down in
    its third frame, in a lost round. *)
Lemma reset_on_rising_edges_witness :
  pillarOpacity
    (globals (processInput (mkInput 0.05 true true false)
                (run [mkInput 2.4 false false false;
                      mkInput 0.05 true false false] initialMachine))) =
  mkFloat4 1 1 1 1 /\
  outcome
    (globals (processInput (mkInput 0.05 true true false)
                (run [mkInput 2.4 false false false;
                      mkInput 0.05 true false false] initialMachine))) =
  Some InProgress.
Proof.
  assert (He : Forall (fun i => keyEscape i = false)
                 [mkInput 2.4 false false false;
                  mkInput 0.05 true false false])
    by (repeat constructor).
  destruct (reset_on_rising_edges _ (mkInput 0.05 true true false)
              initialMachine eq_refl He) as (_ & Hedge & _).
  destruct (Hedge eq_refl) as (Hp & _ & Ho & _).
  split; [exact Hp | exact Ho].
Defined.

(** *** The gradient of the background *)

Lemma max_monotone (a b c : Q) : a <= b -> max a c <= max b c.
Proof.
  intro H. unfold max.
  destruct (ltb a c) eqn:Ea; destruct (ltb b c) eqn:Eb;
    try apply ltb_lt in Ea; try apply ltb_lt in Eb;
    try apply ltb_ge in Ea; try apply ltb_ge in Eb; lra.
Qed.

(** While the round is in progress the background is [(1, c, c)] with
    [c >= 0], and [c] grows with the average opacity: the lower the
    average, the redder the screen. *)
Theorem background_reddens (g1 g2 : Globals) :
  outcome g1 = Some InProgress -> outcome g2 = Some InProgress ->
  avgOpacity (pillarOpacity g1) <= avgOpacity (pillarOpacity g2) ->
  let c1 := updateBackgroundColor g1 in
  let c2 := updateBackgroundColor g2 in
  bgRed c1 = 1 /\ bgBlue c1 = bgGreen c1 /\ 0 <= bgGreen c1 /\
  bgGreen c1 <= bgGreen c2.
Proof.
  intros H1 H2 Havg. cbv zeta.
  apply outcome_InProgress in H1. destruct H1 as (Ha1 & _ & Hl1).
  apply outcome_InProgress in H2. destruct H2 as (Ha2 & _ & Hl2).
  unfold updateBackgroundColor. rewrite Ha1, Hl1, Ha2, Hl2.
  cbn [negb andb set_bg bgRed bgGreen bgBlue].
  split; [reflexivity|]. split; [reflexivity|]. split.
  - apply max_lower.
  - apply max_monotone. unfold OPACITY_THRESHOLD.
    unfold Qdiv. apply Qmult_le_compat_r; [lra|].
    change (/ (1 - 0.55)) with (100 # 45). lra.
Qed.

(** The theorem on the machine at the threshold and the initial machine. *)
Lemma background_reddens_witness :
  bgGreen (updateBackgroundColor (globals atThreshold)) <=
  bgGreen (updateBackgroundColor initialGlobals).
Proof.
  assert (Havg : avgOpacity (pillarOpacity (globals atThreshold)) <=
                 avgOpacity (pillarOpacity initialGlobals)).
  { vm_compute. intro H. discriminate H. }
  exact (proj2 (proj2 (proj2
           (background_reddens (globals atThreshold) initialGlobals
              eq_refl eq_refl Havg)))).
Defined.

(** *** Playing: the frame of a running round *)

(** A frame whose [updateGameLogic] finds the round running: the
    opacities decay; the round is lost if one of them is then below the
    threshold, and otherwise the timer advances and the round is won once
    it reaches the round duration. *)
Lemma frame_playing (inp : Input) (m : Machine) :
  let g1 := globals (processInput inp m) in
  gameActive g1 = true -> boomStarted g1 = false ->
  let p2 := decay (deltaTime inp) (pillarOpacity g1) in
  let won := geb (gameTimer g1 + deltaTime inp) GAME_DURATION in
  let g' := globals (fst (frame inp m)) in
  pillarOpacity g' = p2 /\
  (anyBelow OPACITY_THRESHOLD p2 ->
   gameLost g' = true /\ gameActive g' = false /\ gameWon g' = gameWon g1) /\
  (allAtLeast OPACITY_THRESHOLD p2 ->
   gameTimer g' = gameTimer g1 + deltaTime inp /\
   gameLost g' = gameLost g1 /\ gameActive g' = negb won /\
   boomStarted g' = false /\
   gameWon g' = (if won then true else gameWon g1) /\
   gameStatus g' =
   if won then "WON! Campus Saved!"%string else gameStatus g1).
Proof.
  cbv zeta. set (g1 := globals (processInput inp m)). intros Ha1 Hb1.
  split.
  { rewrite frame_opacity, updateGameLogic_opacity. fold g1.
    now rewrite Ha1, Hb1. }
  split.
  - intro Hany.
    pose proof (updateGameLogic_lose (deltaTime inp) g1 Ha1 Hb1 Hany) as E.
    rewrite frame_logic. cbv zeta. fold g1. rewrite E.
    cbn [boomStarted]. rewrite updateBoomAnimation_frame.
    cbn. auto.
  - intro Hall.
    pose proof (updateGameLogic_survive (deltaTime inp) g1 Ha1 Hb1 Hall) as E.
    cbv zeta in E.
    rewrite frame_logic. cbv zeta. fold g1. rewrite E.
    cbn [boomStarted]. cbn. auto 10.
Qed.

(** What a frame's [processInput] leaves of the round when R does not
    fire. *)
Lemma processInput_no_reset (inp : Input) (m : Machine) :
  resets inp m = false ->
  let g := globals m in
  let g1 := globals (processInput inp m) in
  gameActive g1 = gameActive g /\ boomStarted g1 = boomStarted g /\
  gameTimer g1 = gameTimer g /\ gameWon g1 = gameWon g /\
  gameLost g1 = gameLost g /\
  pillarOpacity g1 =
  if boosts inp m then boost (pillarOpacity g) else pillarOpacity g.
Proof.
  intro Hr. cbv zeta. rewrite processInput_globals, Hr. cbv zeta.
  destruct (boosts inp m); cbn; auto 10.
Qed.

(** C5.  The round is won on the tick on which the accumulated time reaches
    the round duration, and on no earlier one.  After any run of the game,
    take a frame without a reset that finds the round in progress and ends
    with every pillar at the threshold or above after its decay.  The timer
    was below the round duration before the frame, and the frame adds its
    [deltaTime] to it.  If that sum is the round duration or more (the
    comparison is inclusive: exactly 10 wins) the round is won after the
    frame, with the status message of a win; if the sum is still below the
    round duration the round stays in progress.  The accumulated time is
    the timer as the code adds it up, frame by frame. *)
Theorem win_when_duration_reached (inputs : list Input) (inp : Input) :
  let m := run inputs initialMachine in
  let g' := globals (fst (frame inp m)) in
  resets inp m = false ->
  outcome (globals m) = Some InProgress ->
  allAtLeast OPACITY_THRESHOLD (pillarOpacity g') ->
  gameTimer (globals m) < GAME_DURATION /\
  gameTimer g' = gameTimer (globals m) + deltaTime inp /\
  (GAME_DURATION <= gameTimer (globals m) + deltaTime inp ->
   outcome g' = Some Won /\ gameStatus g' = "WON! Campus Saved!"%string) /\
  (gameTimer (globals m) + deltaTime inp < GAME_DURATION ->
   outcome g' = Some InProgress).
Proof.
  cbv zeta. set (m := run inputs initialMachine). intros Hr Ho Hall.
  pose proof (reachable_roundConsistent inputs) as HC. fold m in HC.
  destruct HC as (_ & Hwon & Hbl & _).
  apply outcome_InProgress in Ho. destruct Ho as (Ha & Hw & Hl).
  assert (Hb : boomStarted (globals m) = false).
  { destruct (boomStarted (globals m)); [|reflexivity].
    specialize (Hbl eq_refl). congruence. }
  assert (Hlt : gameTimer (globals m) < GAME_DURATION).
  { apply Qnot_le_lt. intro Hge. apply Hwon in Hge. congruence. }
  destruct (processInput_no_reset inp m Hr) as (Ea & Eb & Et & Ew & El & _).
  cbv zeta in Ea, Eb, Et, Ew, El.
  rewrite Ha in Ea. rewrite Hb in Eb.
  destruct (frame_playing inp m Ea Eb) as (Hp & _ & Hsurv).
  rewrite <- Hp in Hsurv.
  destruct (Hsurv Hall) as (Ht' & Hl' & Ha' & _ & Hw' & Hs').
  rewrite Et in Ht', Ha', Hw', Hs'. rewrite Ew in Hw'. rewrite El in Hl'.
  split; [exact Hlt|]. split; [exact Ht'|]. split.
  - intro Hge. apply geb_le in Hge. rewrite Hge in Ha', Hw', Hs'.
    split; [|exact Hs'].
    apply outcome_Won. cbn [negb] in Ha'. repeat split; congruence.
  - intro Hlt'. apply geb_lt in Hlt'. rewrite Hlt' in Ha', Hw'.
    apply outcome_InProgress. cbn [negb] in Ha'. repeat split; congruence.
Qed.

(** The theorem on twenty half-second frames: SPACE is tapped every other
    frame, which keeps every opacity at 0.8 or above; the timer is 9.5
    before the twentieth frame, which brings it to exactly 10. *)
Lemma win_when_duration_reached_witness :
  outcome (globals (run tapping initialMachine)) = Some InProgress /\
  gameTimer (globals (run tapping initialMachine)) + deltaTime release
  == GAME_DURATION /\
  outcome (globals (fst (frame release (run tapping initialMachine)))) =
  Some Won.
Proof.
  assert (Ho : outcome (globals (run tapping initialMachine)) =
               Some InProgress) by (vm_compute; reflexivity).
  assert (Hall : allAtLeast OPACITY_THRESHOLD
                   (pillarOpacity
                      (globals (fst (frame release
                                           (run tapping initialMachine))))))
    by (vm_compute; repeat split; intro H; discriminate H).
  assert (Heq : gameTimer (globals (run tapping initialMachine))
                + deltaTime release == GAME_DURATION)
    by (vm_compute; reflexivity).
  assert (Hge : GAME_DURATION <=
                gameTimer (globals (run tapping initialMachine))
                + deltaTime release)
    by (rewrite Heq; apply Qle_refl).
  destruct (win_when_duration_reached tapping release eq_refl Ho Hall)
    as (_ & _ & Hwin & _).
  destruct (Hwin Hge) as (Hw & _).
  split; [exact Ho|]. split; [exact Heq | exact Hw].
Defined.

(** *** Only SPACE and R raise a pillar *)

(** A frame without a boost and without a reset raises no opacity. *)
Lemma frame_noHigher (inp : Input) (m : Machine) :
  keySpace inp = false -> keyR inp = false -> 0 <= deltaTime inp ->
  unitRange (pillarOpacity (globals m)) ->
  noHigher (pillarOpacity (globals (fst (frame inp m))))
           (pillarOpacity (globals m)).
Proof.
  intros Hs Hr Hdt Hu.
  assert (Hres : resets inp m = false) by (unfold resets; now rewrite Hr).
  assert (Hboo : boosts inp m = false) by (unfold boosts; now rewrite Hs).
  rewrite frame_opacity, updateGameLogic_opacity.
  rewrite processInput_globals, Hres, Hboo. cbv zeta.
  destruct (negb (gameActive (globals m)) || boomStarted (globals m)).
  - unfold noHigher. repeat split; apply Qle_refl.
  - destruct Hu as ((L0 & _) & (L1 & _) & (L2 & _) & (L3 & _)).
    unfold noHigher, decay, map4, OPACITY_FADE_RATE. cbn [at0 at1 at2 at3].
    repeat split; apply max_upper; lra.
Qed.

Lemma noHigher_trans (u v w : float4) :
  noHigher u v -> noHigher v w -> noHigher u w.
Proof.
  unfold noHigher. intros (A0 & A1 & A2 & A3) (B0 & B1 & B2 & B3).
  repeat split; eapply Qle_trans; eassumption.
Qed.

(** Only SPACE and R raise a pillar.  Continue any run of the game by
    frames in which neither SPACE nor R is down, all frame times being
    non-negative: however long the continuation and whatever the state of
    the round, no pillar opacity is higher after it than before it. *)
Theorem opacity_never_recovers (inputs rest : list Input) :
  nonnegTicks inputs -> idleTicks rest ->
  noHigher (pillarOpacity (globals (run (inputs ++ rest) initialMachine)))
           (pillarOpacity (globals (run inputs initialMachine))).
Proof.
  intros Hdt Hid. rewrite run_app.
  set (m0 := run inputs initialMachine).
  assert (H : unitRange (pillarOpacity (globals (run rest m0))) /\
              noHigher (pillarOpacity (globals (run rest m0)))
                       (pillarOpacity (globals m0))).
  { apply (run_invariant
             (fun inp => keySpace inp = false /\ keyR inp = false /\
                         0 <= deltaTime inp)
             (fun m => unitRange (pillarOpacity (globals m)) /\
                       noHigher (pillarOpacity (globals m))
                                (pillarOpacity (globals m0)))).
    - intros inp m (Hs & Hr & Hd) (Hu & Hn). split.
      + now apply frame_unitRange.
      + eapply noHigher_trans; [|exact Hn]. now apply frame_noHigher.
    - exact Hid.
    - split; [now apply reachable_unitRange|].
      unfold noHigher. repeat split; apply Qle_refl. }
  exact (proj2 H).
Qed.

(** The theorem on a boost followed by two idle frames. *)
Lemma opacity_never_recovers_witness :
  noHigher
    (pillarOpacity (globals (run ([press] ++ [release; release])
                                 initialMachine)))
    (pillarOpacity (globals (run [press] initialMachine))).
Proof.
  apply opacity_never_recovers.
  - repeat constructor; cbn; lra.
  - repeat (constructor; [repeat split; try reflexivity; cbn; lra|]).
    constructor.
Defined.

(** *** How transparent a piece is drawn *)

Lemma pieceColor_range (g : Globals) (i : nat) (comp : BuildingComponent)
      (lo : Q) :
  lo <= 1 ->
  (gameActive g = true -> boomStarted g = false ->
   allAtLeast lo (pillarOpacity g) /\ unitRange (pillarOpacity g)) ->
  lo <= snd (pieceColor g i comp) <= 1.
Proof.
  intros Hlo Hg. unfold pieceColor. destruct (color comp) as [[r gr] b].
  destruct (gameActive g); [|rewrite andb_false_r; cbn; lra].
  destruct (boomStarted g); [rewrite andb_false_r; cbn; lra|].
  destruct (Hg eq_refl eq_refl) as ((L0 & L1 & L2 & L3) & (U0 & U1 & U2 & U3)).
  destruct ((5 <=? i)%nat && (i <=? 8)%nat); cbn [andb negb snd];
    [|lra].
  unfold get4. destruct (i - 5)%nat as [|[|[|k]]]; lra.
Qed.

Lemma drawComponent_alpha (i : nat) (comp : BuildingComponent) (g : Globals)
      (c : DrawCall) :
  snd (drawComponent i comp g) = Some c ->
  alpha c = snd (pieceColor g i comp).
Proof.
  rewrite drawComponent_snd. cbv zeta.
  destruct (vanishes g comp); [discriminate|].
  destruct (ltb 0 _ && boomStarted g).
  - intro H. injection H as <-. reflexivity.
  - destruct (nth i (componentDisappeared g) false); [discriminate|].
    intro H. injection H as <-. reflexivity.
Qed.

Lemma drawLoop_alpha (lo : Q) (comps : list BuildingComponent) :
  lo <= 1 ->
  forall (i : nat) (g : Globals),
    (gameActive g = true -> boomStarted g = false ->
     allAtLeast lo (pillarOpacity g) /\ unitRange (pillarOpacity g)) ->
    Forall (fun c => lo <= alpha c <= 1) (snd (drawLoop i comps g)).
Proof.
  intro Hlo. induction comps as [|comp rest IH]; intros i g Hg;
    [constructor|].
  cbn [drawLoop].
  pose proof (drawComponent_alpha i comp g) as Ha.
  pose proof (drawComponent_globals i comp g) as Hg1.
  destruct (drawComponent i comp g) as [g1 call]. cbn [fst snd] in *.
  assert (Hg' : gameActive g1 = true -> boomStarted g1 = false ->
                allAtLeast lo (pillarOpacity g1) /\
                unitRange (pillarOpacity g1)).
  { rewrite Hg1. exact Hg. }
  specialize (IH (S i) g1 Hg').
  destruct (drawLoop (S i) rest g1) as [g2 calls]. cbn [fst snd] in *.
  destruct call as [c|]; [|exact IH].
  constructor; [|exact IH].
  rewrite (Ha c eq_refl). now apply pieceColor_range.
Qed.

(** No piece is ever drawn more transparent than the threshold.  In every
    frame of every run with non-negative frame times, whatever the keys,
    the alpha of every draw call lies between 0.55 and 1: a pillar carries
    its opacity only while the round runs, when it is at the threshold or
    above, and everything else is opaque. *)
Theorem drawn_alpha_range (inputs : list Input) (inp : Input) :
  nonnegTicks inputs -> 0 <= deltaTime inp ->
  Forall (fun c => OPACITY_THRESHOLD <= alpha c <= 1)
         (draws (snd (frame inp (run inputs initialMachine)))).
Proof.
  intros Hdt Hinp.
  set (m := run inputs initialMachine).
  destruct (frame_draws inp m) as [-> _].
  apply drawLoop_alpha; [unfold OPACITY_THRESHOLD; lra|].
  intros Ha Hb.
  pose proof (roundConsistent_beforeDraw inp m
                (reachable_roundConsistent inputs)) as HC.
  destruct HC as (Hout & _ & _ & _ & Hal & _).
  split.
  - apply Hal. unfold outcome in Hout. rewrite Ha in Hout.
    destruct (gameLost (beforeDraw inp m)); [|reflexivity].
    destruct (gameWon (beforeDraw inp m)); congruence.
  - rewrite beforeDraw_opacity, <- frame_opacity.
    apply frame_unitRange; [exact Hinp|].
    now apply reachable_unitRange.
Qed.

(** The theorem on the frame after the 2.25 seconds that bring every pillar
    to the threshold: a boost in a frame of half a second. *)
Lemma drawn_alpha_range_witness :
  Forall (fun c => OPACITY_THRESHOLD <= alpha c <= 1)
         (draws (snd (frame press
                        (run [mkInput 2.25 false false false]
                             initialMachine)))).
Proof.
  apply drawn_alpha_range.
  - repeat constructor; cbn; lra.
  - cbn; lra.
Defined.

(** *** Further properties *)

(** The end-to-end scenario of the specification: with no boost, six ticks
    of one second lose the round at the third tick, when every opacity is
    0.4; the timer stops at 2. *)
Lemma lost_at_third_second :
  outcomes sixSeconds =
  [ Some InProgress; Some InProgress; Some InProgress;
    Some Lost; Some Lost; Some Lost; Some Lost ] /\
  at0 (pillarOpacity (globals (run (firstn 3 sixSeconds) initialMachine)))
  == 0.4 /\
  gameTimer (globals (run sixSeconds initialMachine)) == 2.
Proof. split; [|split]; vm_compute; reflexivity. Qed.

(** The colour sent with a piece is opaque, except that a pillar (indices 5
    to 8) carries its opacity while the round is active and no collapse
    runs. *)
Lemma pieceColor_alpha (g : Globals) (i : nat) (comp : BuildingComponent) :
  fst (pieceColor g i comp) = color comp /\
  snd (pieceColor g i comp) =
  if (5 <=? i)%nat && (i <=? 8)%nat && gameActive g && negb (boomStarted g)
  then get4 (pillarOpacity g) (i - 5)
  else 1.
Proof.
  unfold pieceColor. destruct (color comp) as [[r gr] b].
  destruct ((5 <=? i)%nat && (i <=? 8)%nat && gameActive g
            && negb (boomStarted g)); split; reflexivity.
Qed.

End ClickerProofs.

(** ** The Bresenham line: properties *)

Module LineProofs.

Import Line.
Open Scope Z_scope.

(** One iteration never steps past an end of the line and always steps. *)
Lemma step_within (dx dy a b : Z) :
  0 <= a <= dx -> 0 <= b <= dy -> a < dx \/ b < dy ->
  let e2 := 2 * errAt dx dy a b in
  let a' := if e2 >? - dy then a + 1 else a in
  let b' := if e2 <? dx then b + 1 else b in
  a <= a' <= dx /\ b <= b' <= dy /\ a + b < a' + b'.
Proof.
  intros Ha Hb Hnot. cbv zeta. unfold errAt.
  rewrite Z.gtb_ltb.
  destruct (Z.ltb_spec (- dy) (2 * ((b + 1) * dx - (a + 1) * dy)));
    destruct (Z.ltb_spec (2 * ((b + 1) * dx - (a + 1) * dy)) dx);
    repeat split; try lia; try nia.
Qed.

(** The error term after one iteration is the error term of the new
    position. *)
Lemma step_err (dx dy a b : Z) :
  let e2 := 2 * errAt dx dy a b in
  let a' := if e2 >? - dy then a + 1 else a in
  let b' := if e2 <? dx then b + 1 else b in
  errAt dx dy a' b' =
  (if e2 <? dx then dx else 0)
  + ((if e2 >? - dy then - dy else 0) + errAt dx dy a b).
Proof.
  cbv zeta. unfold errAt.
  destruct (_ >? _); destruct (_ <? _); ring.
Qed.

Lemma at_end (X0 s d a : Z) :
  s = 1 \/ s = -1 -> (X0 + s * a =? X0 + s * d) = (a =? d).
Proof.
  intro Hs. destruct (Z.eqb_spec a d) as [->|Hn].
  - apply Z.eqb_refl.
  - apply Z.eqb_neq. destruct Hs as [-> | ->]; lia.
Qed.

Lemma firstVertex_app (x y : Z) (mid : list Q) :
  firstVertex (vertex x y ++ mid) = vertex x y.
Proof. reflexivity. Qed.

Lemma lastVertex_app (front : list Q) (x y : Z) :
  lastVertex (front ++ vertex x y) = vertex x y.
Proof.
  unfold lastVertex. rewrite length_app. cbn [vertex List.length].
  replace (List.length front + 3 - 3)%nat with (List.length front) by lia.
  rewrite skipn_app, skipn_all, Nat.sub_diag. reflexivity.
Qed.

(** *** No overflow for small coordinates *)

Lemma checked_in (v : Z) : - 2 ^ 31 <= v < 2 ^ 31 -> checked v = Some v.
Proof.
  intro H. unfold checked, inInt.
  destruct (Z.leb_spec (- 2 ^ 31) v); destruct (Z.ltb_spec v (2 ^ 31));
    try lia. reflexivity.
Qed.

(** Twice the error term stays between [- 3 * dy] and [3 * dx]. *)
Lemma step_bound (dx dy err : Z) :
  0 <= dx -> 0 <= dy -> - 3 * dy <= 2 * err <= 3 * dx ->
  let err' :=
    (if 2 * err <? dx then dx else 0)
    + ((if 2 * err >? - dy then - dy else 0) + err) in
  - 3 * dy <= 2 * err' <= 3 * dx.
Proof.
  intros Hdx Hdy Herr. cbv zeta. rewrite Z.gtb_ltb.
  destruct (Z.ltb_spec (2 * err) dx); destruct (Z.ltb_spec (- dy) (2 * err));
    lia.
Qed.

Lemma loopChecked_exact (dx dy sx sy X0 Y0 : Z) :
  sx = 1 \/ sx = -1 -> sy = 1 \/ sy = -1 ->
  0 <= dx <= 2 ^ 29 -> 0 <= dy <= 2 ^ 29 ->
  small X0 -> small Y0 -> small (X0 + sx * dx) -> small (Y0 + sy * dy) ->
  forall (fuel : nat) (a b : Z) (pts : list Q),
    0 <= a <= dx -> 0 <= b <= dy ->
    - 3 * dy <= 2 * errAt dx dy a b <= 3 * dx ->
    loopChecked fuel dx dy sx sy (X0 + sx * dx) (Y0 + sy * dy)
                (errAt dx dy a b) (X0 + sx * a) (Y0 + sy * b) pts =
    asResult (loop fuel dx dy sx sy (X0 + sx * dx) (Y0 + sy * dy)
                   (errAt dx dy a b) (X0 + sx * a) (Y0 + sy * b) pts).
Proof.
  intros Hsx Hsy Hdx Hdy HX0 HY0 HX1 HY1 fuel. unfold small in *.
  induction fuel as [|fuel IH]; intros a b pts Ha Hb Herr; [reflexivity|].
  cbn [loop loopChecked].
  rewrite (at_end X0 sx dx a Hsx), (at_end Y0 sy dy b Hsy).
  destruct ((a =? dx) && (b =? dy)) eqn:Eend; [reflexivity|].
  assert (Hnot : a < dx \/ b < dy).
  { apply andb_false_iff in Eend. destruct Eend as [E|E];
      apply Z.eqb_neq in E; lia. }
  pose proof (step_within dx dy a b Ha Hb Hnot) as Hs.
  pose proof (step_err dx dy a b) as He.
  pose proof (step_bound dx dy (errAt dx dy a b) (proj1 Hdx) (proj1 Hdy) Herr)
    as Hbd.
  cbv zeta in Hs, He, Hbd. rewrite <- He in Hbd. clear He.
  pose proof (step_err dx dy a b) as He. cbv zeta in He.
  rewrite (checked_in (2 * errAt dx dy a b)) by lia.
  rewrite (checked_in (- dy)) by lia.
  assert (Hxa : forall a', 0 <= a' <= dx -> small (X0 + sx * a')).
  { intros a' Ha'. unfold small. destruct Hsx as [-> | ->]; lia. }
  assert (Hyb : forall b', 0 <= b' <= dy -> small (Y0 + sy * b')).
  { intros b' Hb'. unfold small. destruct Hsy as [-> | ->]; lia. }
  unfold small in Hxa, Hyb.
  destruct (2 * errAt dx dy a b >? - dy);
    destruct (2 * errAt dx dy a b <? dx);
    cbv beta iota in Hs, He, Hbd; destruct Hs as (Ha' & Hb' & Hm).
  - pose proof (Hxa (a + 1) ltac:(lia)). pose proof (Hyb (b + 1) ltac:(lia)).
    replace (X0 + sx * a + sx) with (X0 + sx * (a + 1)) by ring.
    replace (Y0 + sy * b + sy) with (Y0 + sy * (b + 1)) by ring.
    rewrite (checked_in (errAt dx dy a b - dy)) by lia.
    rewrite (checked_in (X0 + sx * (a + 1))) by lia.
    rewrite (checked_in (errAt dx dy a b - dy + dx)) by lia.
    rewrite (checked_in (Y0 + sy * (b + 1))) by lia.
    replace (errAt dx dy a b - dy + dx) with (errAt dx dy (a + 1) (b + 1))
      by lia.
    apply IH; lia.
  - pose proof (Hxa (a + 1) ltac:(lia)).
    replace (X0 + sx * a + sx) with (X0 + sx * (a + 1)) by ring.
    rewrite (checked_in (errAt dx dy a b - dy)) by lia.
    rewrite (checked_in (X0 + sx * (a + 1))) by lia.
    replace (errAt dx dy a b - dy) with (errAt dx dy (a + 1) b) by lia.
    apply IH; lia.
  - pose proof (Hyb (b + 1) ltac:(lia)).
    replace (Y0 + sy * b + sy) with (Y0 + sy * (b + 1)) by ring.
    rewrite (checked_in (errAt dx dy a b + dx)) by lia.
    rewrite (checked_in (Y0 + sy * (b + 1))) by lia.
    replace (errAt dx dy a b + dx) with (errAt dx dy a (b + 1)) by lia.
    apply IH; lia.
  - lia.
Qed.

(** On rounded coordinates of magnitude at most [2 ^ 28] no [int] operation
    of [Bresenham] leaves the range of [int]: the machine run returns what
    the loop on integers returns. *)
Theorem rasterChecked_exact (fuel : nat) (X0 Y0 X1 Y1 : Z) :
  small X0 -> small Y0 -> small X1 -> small Y1 ->
  rasterChecked fuel X0 Y0 X1 Y1 =
  asResult
    (loop fuel (Z.abs (X1 - X0)) (Z.abs (Y1 - Y0))
          (if X0 <? X1 then 1 else -1) (if Y0 <? Y1 then 1 else -1)
          X1 Y1 (Z.abs (X1 - X0) - Z.abs (Y1 - Y0)) X0 Y0 []).
Proof.
  intros HX0 HY0 HX1 HY1. unfold rasterChecked. unfold small in *.
  rewrite (checked_in (X1 - X0)) by lia.
  rewrite (checked_in (Y1 - Y0)) by lia.
  rewrite (checked_in (Z.abs (X1 - X0))) by lia.
  rewrite (checked_in (Z.abs (Y1 - Y0))) by lia.
  rewrite (checked_in (Z.abs (X1 - X0) - Z.abs (Y1 - Y0))) by lia.
  set (dx := Z.abs (X1 - X0)). set (dy := Z.abs (Y1 - Y0)).
  set (sx := if X0 <? X1 then 1 else -1).
  set (sy := if Y0 <? Y1 then 1 else -1).
  assert (Hsx : sx = 1 \/ sx = -1) by (unfold sx; destruct (X0 <? X1); auto).
  assert (Hsy : sy = 1 \/ sy = -1) by (unfold sy; destruct (Y0 <? Y1); auto).
  assert (HX : X1 = X0 + sx * dx).
  { unfold sx, dx. destruct (Z.ltb_spec X0 X1); lia. }
  assert (HY : Y1 = Y0 + sy * dy).
  { unfold sy, dy. destruct (Z.ltb_spec Y0 Y1); lia. }
  pose proof (loopChecked_exact dx dy sx sy X0 Y0 Hsx Hsy) as H.
  rewrite <- HX, <- HY in H.
  specialize (H ltac:(unfold dx; lia) ltac:(unfold dy; lia)
                HX0 HY0 HX1 HY1 fuel 0 0 []).
  replace (errAt dx dy 0 0) with (dx - dy) in H by (unfold errAt; ring).
  replace (X0 + sx * 0) with X0 in H by ring.
  replace (Y0 + sy * 0) with Y0 in H by ring.
  apply H; unfold dx, dy; lia.
Qed.

(** The call of [main], [Bresenham(-0.8f, -0.8f, 0.8f, 0.8f)]: on machine
    integers it returns the 1601 points of the diagonal. *)
Lemma rasterChecked_exact_witness :
  small (-800) /\ small 800 /\
  rasterChecked 1601 (-800) (-800) 800 800 =
  asResult (Bresenham 1601 (-0.8) (-0.8) 0.8 0.8).
Proof.
  assert (Hm : small (-800)) by (unfold small; lia).
  assert (Hp : small 800) by (unfold small; lia).
  split; [exact Hm|]. split; [exact Hp|].
  exact (rasterChecked_exact 1601 (-800) (-800) 800 800 Hm Hm Hp Hp).
Defined.

(** *** The walk along the longer extent *)

Lemma positions_step (dx dy sx sy X0 Y0 : Z) (fuel : nat) (a b : Z) :
  sx = 1 \/ sx = -1 -> sy = 1 \/ sy = -1 ->
  let e2 := 2 * errAt dx dy a b in
  let a' := if e2 >? - dy then a + 1 else a in
  let b' := if e2 <? dx then b + 1 else b in
  positions (S fuel) dx dy sx sy (X0 + sx * dx) (Y0 + sy * dy)
            (errAt dx dy a b) (X0 + sx * a) (Y0 + sy * b) =
  if (a =? dx) && (b =? dy) then Some [(X0 + sx * a, Y0 + sy * b)]
  else option_map (cons (X0 + sx * a, Y0 + sy * b))
         (positions fuel dx dy sx sy (X0 + sx * dx) (Y0 + sy * dy)
                    (errAt dx dy a' b') (X0 + sx * a') (Y0 + sy * b')).
Proof.
  intros Hsx Hsy. cbv zeta. cbn [positions].
  rewrite (at_end X0 sx dx a Hsx), (at_end Y0 sy dy b Hsy).
  destruct ((a =? dx) && (b =? dy)); [reflexivity|].
  pose proof (step_err dx dy a b) as He. cbv zeta in He.
  destruct (2 * errAt dx dy a b >? - dy);
    destruct (2 * errAt dx dy a b <? dx); cbv beta iota in *;
    rewrite He; do 2 f_equal; ring.
Qed.

(** With the position off the ideal line by at most half the longer extent,
    the walk is at its end exactly when the steps along the longer extent
    are used up. *)
Lemma end_major (dx dy a b : Z) :
  0 <= a <= dx -> 0 <= b <= dy ->
  2 * Z.abs (offAt dx dy a b) <= Z.max dx dy ->
  major dx dy a b = Z.max dx dy -> a = dx /\ b = dy.
Proof.
  intros Ha Hb Hoff Hm. unfold offAt, major in *.
  destruct (Z.leb_spec dy dx) as [Hle|Hlt].
  - rewrite Z.max_l in * by lia. subst a. split; [reflexivity|].
    destruct (Z.eq_dec b dy) as [|Hn]; [assumption|exfalso].
    assert (H1 : (dy - b) * dx >= 1 * dx) by nia.
    lia.
  - rewrite Z.max_r in * by lia. subst b. split; [|reflexivity].
    destruct (Z.eq_dec a dx) as [|Hn]; [assumption|exfalso].
    assert (H1 : (dx - a) * dy >= 1 * dy) by nia.
    lia.
Qed.

(** One iteration keeps the position within half the longer extent of the
    ideal line and always steps along the longer extent. *)
Lemma step_major (dx dy a b : Z) :
  0 <= a <= dx -> 0 <= b <= dy ->
  2 * Z.abs (offAt dx dy a b) <= Z.max dx dy ->
  a < dx \/ b < dy ->
  let e2 := 2 * errAt dx dy a b in
  let a' := if e2 >? - dy then a + 1 else a in
  let b' := if e2 <? dx then b + 1 else b in
  2 * Z.abs (offAt dx dy a' b') <= Z.max dx dy /\
  major dx dy a' b' = major dx dy a b + 1.
Proof.
  intros Ha Hb Hoff Hnot. cbv zeta. unfold errAt, offAt, major in *.
  rewrite Z.gtb_ltb.
  destruct (Z.leb_spec dy dx) as [Hle|Hlt].
  - rewrite Z.max_l in * by lia.
    destruct (Z.eq_dec dx dy) as [E|E].
    + subst dy.
      assert (Hab : a = b).
      { assert (dx > 0) by lia.
        assert (-1 <= 2 * (b - a) <= 1) by nia. lia. }
      subst b.
      destruct (Z.ltb_spec (- dx) (2 * ((a + 1) * dx - (a + 1) * dx)));
        destruct (Z.ltb_spec (2 * ((a + 1) * dx - (a + 1) * dx)) dx);
        split; try lia.
    + destruct (Z.ltb_spec (- dy) (2 * ((b + 1) * dx - (a + 1) * dy)));
        destruct (Z.ltb_spec (2 * ((b + 1) * dx - (a + 1) * dy)) dx);
        split; try lia.
  - rewrite Z.max_r in * by lia.
    destruct (Z.ltb_spec (- dy) (2 * ((b + 1) * dx - (a + 1) * dy)));
      destruct (Z.ltb_spec (2 * ((b + 1) * dx - (a + 1) * dy)) dx);
      split; try lia.
Qed.

Lemma major_range (dx dy a b : Z) :
  0 <= a <= dx -> 0 <= b <= dy -> 0 <= major dx dy a b <= Z.max dx dy.
Proof. intros Ha Hb. unfold major. destruct (Z.leb_spec dy dx); lia. Qed.

Lemma not_at_end (dx dy a b : Z) :
  (a =? dx) && (b =? dy) = false -> a <> dx \/ b <> dy.
Proof.
  intro E. apply andb_false_iff in E.
  destruct E as [E|E]; apply Z.eqb_neq in E; auto.
Qed.

(** With too little fuel the loop does not reach its [break]. *)
Lemma positions_short (dx dy sx sy X0 Y0 : Z) :
  sx = 1 \/ sx = -1 -> sy = 1 \/ sy = -1 ->
  forall (fuel : nat) (a b : Z),
    0 <= a <= dx -> 0 <= b <= dy ->
    2 * Z.abs (offAt dx dy a b) <= Z.max dx dy ->
    (fuel <= Z.to_nat (Z.max dx dy - major dx dy a b))%nat ->
    positions fuel dx dy sx sy (X0 + sx * dx) (Y0 + sy * dy)
              (errAt dx dy a b) (X0 + sx * a) (Y0 + sy * b) = None.
Proof.
  intros Hsx Hsy fuel.
  induction fuel as [|fuel IH]; intros a b Ha Hb Hoff Hfuel; [reflexivity|].
  rewrite (positions_step dx dy sx sy X0 Y0 fuel a b Hsx Hsy). cbv zeta.
  destruct ((a =? dx) && (b =? dy)) eqn:Eend.
  - apply andb_true_iff in Eend. destruct Eend as [E1 E2].
    apply Z.eqb_eq in E1, E2. subst a b.
    unfold major in Hfuel. destruct (Z.leb_spec dy dx); lia.
  - apply not_at_end in Eend.
    assert (Hnot : a < dx \/ b < dy) by lia.
    pose proof (step_within dx dy a b Ha Hb Hnot) as (Ha' & Hb' & _).
    pose proof (step_major dx dy a b Ha Hb Hoff Hnot) as (Hoff' & Hm').
    cbv zeta in Ha', Hb', Hoff', Hm'.
    rewrite IH; [reflexivity | lia | lia | exact Hoff' |].
    rewrite Hm'. lia.
Qed.

(** With enough fuel the loop returns one position for every step along the
    longer extent, starting where it is and ending at the end point; every
    position is on track and next to the one before it. *)
Lemma positions_spec (dx dy sx sy X0 Y0 : Z) :
  sx = 1 \/ sx = -1 -> sy = 1 \/ sy = -1 ->
  forall (fuel : nat) (a b : Z),
    0 <= a <= dx -> 0 <= b <= dy ->
    2 * Z.abs (offAt dx dy a b) <= Z.max dx dy ->
    (Z.to_nat (Z.max dx dy - major dx dy a b) < fuel)%nat ->
    exists ps : list (Z * Z),
      positions fuel dx dy sx sy (X0 + sx * dx) (Y0 + sy * dy)
                (errAt dx dy a b) (X0 + sx * a) (Y0 + sy * b) =
      Some ((X0 + sx * a, Y0 + sy * b) :: ps) /\
      List.length ps = Z.to_nat (Z.max dx dy - major dx dy a b) /\
      last ((X0 + sx * a, Y0 + sy * b) :: ps) (0, 0) =
      (X0 + sx * dx, Y0 + sy * dy) /\
      Forall (onTrack dx dy sx sy X0 Y0)
             ((X0 + sx * a, Y0 + sy * b) :: ps) /\
      connected ((X0 + sx * a, Y0 + sy * b) :: ps).
Proof.
  intros Hsx Hsy fuel.
  induction fuel as [|fuel IH]; intros a b Ha Hb Hoff Hfuel; [lia|].
  rewrite (positions_step dx dy sx sy X0 Y0 fuel a b Hsx Hsy). cbv zeta.
  assert (Hhere : onTrack dx dy sx sy X0 Y0 (X0 + sx * a, Y0 + sy * b)).
  { exists a, b. auto. }
  destruct ((a =? dx) && (b =? dy)) eqn:Eend.
  - apply andb_true_iff in Eend. destruct Eend as [E1 E2].
    apply Z.eqb_eq in E1, E2. subst a b.
    exists []. split; [reflexivity|]. split.
    { unfold major. destruct (Z.leb_spec dy dx); cbn [List.length]; lia. }
    split; [reflexivity|]. split; [|exact I].
    constructor; [exact Hhere | constructor].
  - apply not_at_end in Eend.
    assert (Hnot : a < dx \/ b < dy) by lia.
    pose proof (step_within dx dy a b Ha Hb Hnot) as (Ha' & Hb' & Hmove).
    pose proof (step_major dx dy a b Ha Hb Hoff Hnot) as (Hoff' & Hm').
    pose proof (major_range dx dy a b Ha Hb) as Hr.
    cbv zeta in Ha', Hb', Hmove, Hoff', Hm'.
    set (a' := if 2 * errAt dx dy a b >? - dy then a + 1 else a) in *.
    set (b' := if 2 * errAt dx dy a b <? dx then b + 1 else b) in *.
    assert (Ha1 : a' <= a + 1)
      by (unfold a'; destruct (2 * errAt dx dy a b >? - dy); lia).
    assert (Hb1 : b' <= b + 1)
      by (unfold b'; destruct (2 * errAt dx dy a b <? dx); lia).
    assert (Hr' : major dx dy a' b' <= Z.max dx dy).
    { apply major_range; lia. }
    destruct (IH a' b') as (ps & E & Hlen & Hlast & Hall & Hcon);
      [lia | lia | exact Hoff' | lia |].
    rewrite E. cbn [option_map].
    exists ((X0 + sx * a', Y0 + sy * b') :: ps).
    split; [reflexivity|]. split.
    { cbn [List.length]. rewrite Hlen, Hm'. lia. }
    split; [exact Hlast|]. split; [now constructor|].
    split; [|exact Hcon]. cbn [fst snd].
    destruct Hsx as [-> | ->]; destruct Hsy as [-> | ->]; lia.
Qed.

(** The floats of [loop] are those of the positions it visits. *)
Lemma loop_positions (dx dy sx sy X1 Y1 : Z) (fuel : nat) :
  forall (err x y : Z) (pts : list Q),
    loop fuel dx dy sx sy X1 Y1 err x y pts =
    option_map (fun ps => pts ++ vertices ps)
               (positions fuel dx dy sx sy X1 Y1 err x y).
Proof.
  induction fuel as [|fuel IH]; intros err x y pts; [reflexivity|].
  cbn [loop positions].
  destruct ((x =? X1) && (y =? Y1)).
  { cbn [option_map vertices flat_map fst snd]. now rewrite app_nil_r. }
  destruct (2 * err >? - dy); destruct (2 * err <? dx);
    rewrite IH;
    match goal with
    | |- context [positions ?f ?a ?b ?c ?d ?e ?g ?h ?i ?j] =>
        destruct (positions f a b c d e g h i j) as [ps|]
    end; cbn [option_map vertices flat_map fst snd];
    try reflexivity; now rewrite <- app_assoc.
Qed.

Lemma positions_more_fuel (dx dy sx sy X1 Y1 : Z) (n m : nat) :
  (n <= m)%nat ->
  forall err x y r,
    positions n dx dy sx sy X1 Y1 err x y = Some r ->
    positions m dx dy sx sy X1 Y1 err x y = Some r.
Proof.
  revert m. induction n as [|n IH]; intros m Hle err x y r H;
    [discriminate|].
  destruct m as [|m]; [lia|].
  cbn [positions] in *.
  destruct ((x =? X1) && (y =? Y1)); [exact H|].
  destruct (2 * err >? - dy); destruct (2 * err <? dx);
    match type of H with
    | context [positions n ?a ?b ?c ?d ?e ?g ?h ?i ?j] =>
        destruct (positions n a b c d e g h i j) as [ps|] eqn:E;
        [|discriminate];
        rewrite (IH m ltac:(lia) _ _ _ _ E)
    end; exact H.
Qed.

(** The walk of [raster], with everything the loop keeps along it. *)
Lemma raster_spec (X0 Y0 X1 Y1 : Z) :
  let dx := Z.abs (X1 - X0) in
  let dy := Z.abs (Y1 - Y0) in
  let sx := if X0 <? X1 then 1 else -1 in
  let sy := if Y0 <? Y1 then 1 else -1 in
  let n := Z.to_nat (extent X0 Y0 X1 Y1) in
  (forall fuel : nat, (fuel <= n)%nat -> raster fuel X0 Y0 X1 Y1 = None) /\
  exists ps : list (Z * Z),
    (forall fuel : nat,
        (n < fuel)%nat -> raster fuel X0 Y0 X1 Y1 = Some ((X0, Y0) :: ps)) /\
    List.length ps = n /\
    last ((X0, Y0) :: ps) (0, 0) = (X1, Y1) /\
    Forall (onTrack dx dy sx sy X0 Y0) ((X0, Y0) :: ps) /\
    connected ((X0, Y0) :: ps).
Proof.
  cbv zeta. unfold raster, extent.
  set (dx := Z.abs (X1 - X0)). set (dy := Z.abs (Y1 - Y0)).
  set (sx := if X0 <? X1 then 1 else -1).
  set (sy := if Y0 <? Y1 then 1 else -1).
  assert (Hsx : sx = 1 \/ sx = -1) by (unfold sx; destruct (X0 <? X1); auto).
  assert (Hsy : sy = 1 \/ sy = -1) by (unfold sy; destruct (Y0 <? Y1); auto).
  assert (HX : X1 = X0 + sx * dx).
  { unfold sx, dx. destruct (Z.ltb_spec X0 X1); lia. }
  assert (HY : Y1 = Y0 + sy * dy).
  { unfold sy, dy. destruct (Z.ltb_spec Y0 Y1); lia. }
  assert (Hdx : 0 <= 0 <= dx) by (unfold dx; lia).
  assert (Hdy : 0 <= 0 <= dy) by (unfold dy; lia).
  assert (Hoff : 2 * Z.abs (offAt dx dy 0 0) <= Z.max dx dy)
    by (unfold offAt; lia).
  assert (Hm : major dx dy 0 0 = 0) by (unfold major; now destruct (dy <=? dx)).
  assert (Herr : errAt dx dy 0 0 = dx - dy) by (unfold errAt; ring).
  assert (Hx0 : X0 + sx * 0 = X0) by ring.
  assert (Hy0 : Y0 + sy * 0 = Y0) by ring.
  split.
  - intros fuel Hfuel.
    pose proof (positions_short dx dy sx sy X0 Y0 Hsx Hsy fuel 0 0
                  Hdx Hdy Hoff) as H.
    rewrite Hm, Z.sub_0_r, Herr, Hx0, Hy0, <- HX, <- HY in H.
    now apply H.
  - destruct (positions_spec dx dy sx sy X0 Y0 Hsx Hsy
                (S (Z.to_nat (Z.max dx dy))) 0 0 Hdx Hdy Hoff)
      as (ps & E & Hlen & Hlast & Hall & Hcon).
    { rewrite Hm, Z.sub_0_r. lia. }
    rewrite Hm, Z.sub_0_r in Hlen.
    rewrite Herr, Hx0, Hy0, <- HX, <- HY in *.
    exists ps. split; [|auto].
    intros fuel Hfuel.
    apply (positions_more_fuel dx dy sx sy X1 Y1
             (S (Z.to_nat (Z.max dx dy))) fuel); [lia | exact E].
Qed.

Lemma vertices_length (ps : list (Z * Z)) :
  List.length (vertices ps) = (3 * List.length ps)%nat.
Proof.
  induction ps as [|p ps IH]; [reflexivity|].
  cbn [vertices flat_map List.length app vertex] in *.
  unfold vertices in IH. rewrite IH. lia.
Qed.

Lemma vertices_snoc (ps : list (Z * Z)) (q : Z * Z) :
  vertices (ps ++ [q]) = vertices ps ++ vertex (fst q) (snd q).
Proof.
  unfold vertices. rewrite flat_map_app. cbn [flat_map].
  now rewrite app_nil_r.
Qed.

Lemma vertices_last (p : Z * Z) (ps : list (Z * Z)) (q : Z * Z) :
  last (p :: ps) (0, 0) = q ->
  lastVertex (vertices (p :: ps)) = vertex (fst q) (snd q).
Proof.
  intro H.
  assert (Hne : p :: ps <> []) by discriminate.
  rewrite (app_removelast_last (0, 0) Hne), H, vertices_snoc.
  apply lastVertex_app.
Qed.

(** A position on track is near the ideal line and inside the bounding box
    of the endpoints. *)
Lemma onTrack_near (X0 Y0 X1 Y1 : Z) (p : Z * Z) :
  onTrack (Z.abs (X1 - X0)) (Z.abs (Y1 - Y0))
          (if X0 <? X1 then 1 else -1) (if Y0 <? Y1 then 1 else -1)
          X0 Y0 p ->
  nearLine X0 Y0 X1 Y1 p /\ inBox X0 Y0 X1 Y1 p.
Proof.
  intros (a & b & -> & Ha & Hb & Hoff).
  unfold nearLine, inBox, offLine, extent, offAt in *. cbn [fst snd].
  destruct (Z.ltb_spec X0 X1); destruct (Z.ltb_spec Y0 Y1);
    rewrite ?(Z.abs_eq (X1 - X0)), ?(Z.abs_neq (X1 - X0)),
      ?(Z.abs_eq (Y1 - Y0)), ?(Z.abs_neq (Y1 - Y0)) in * by lia;
    split; try lia;
    match goal with
    | |- 2 * Z.abs ?u <= _ =>
        match type of Hoff with
        | 2 * Z.abs ?v <= _ =>
            first [ replace u with v by ring
                  | replace u with (- v) by ring; rewrite Z.abs_opp ]
        end
    end; exact Hoff.
Qed.

(** *** What [Bresenham] returns on machine integers *)

(** On rounded coordinates of magnitude at most [2 ^ 28] the machine run is
    the walk of [raster]: it returns the floats of the positions, or has not
    returned yet. *)
Lemma rasterChecked_raster (fuel : nat) (X0 Y0 X1 Y1 : Z) :
  small X0 -> small Y0 -> small X1 -> small Y1 ->
  rasterChecked fuel X0 Y0 X1 Y1 =
  match raster fuel X0 Y0 X1 Y1 with
  | Some ps => Returned (vertices ps)
  | None => OutOfFuel
  end.
Proof.
  intros HX0 HY0 HX1 HY1. unfold rasterChecked, raster. unfold small in *.
  rewrite (checked_in (X1 - X0)) by lia.
  rewrite (checked_in (Y1 - Y0)) by lia.
  rewrite (checked_in (Z.abs (X1 - X0))) by lia.
  rewrite (checked_in (Z.abs (Y1 - Y0))) by lia.
  rewrite (checked_in (Z.abs (X1 - X0) - Z.abs (Y1 - Y0))) by lia.
  cbv zeta.
  set (dx := Z.abs (X1 - X0)). set (dy := Z.abs (Y1 - Y0)).
  set (sx := if X0 <? X1 then 1 else -1).
  set (sy := if Y0 <? Y1 then 1 else -1).
  assert (Hsx : sx = 1 \/ sx = -1) by (unfold sx; destruct (X0 <? X1); auto).
  assert (Hsy : sy = 1 \/ sy = -1) by (unfold sy; destruct (Y0 <? Y1); auto).
  assert (HX : X1 = X0 + sx * dx).
  { unfold sx, dx. destruct (Z.ltb_spec X0 X1); lia. }
  assert (HY : Y1 = Y0 + sy * dy).
  { unfold sy, dy. destruct (Z.ltb_spec Y0 Y1); lia. }
  pose proof (loopChecked_exact dx dy sx sy X0 Y0 Hsx Hsy) as H.
  rewrite <- HX, <- HY in H.
  specialize (H ltac:(unfold dx; lia) ltac:(unfold dy; lia)
                HX0 HY0 HX1 HY1 fuel 0 0 []).
  replace (errAt dx dy 0 0) with (dx - dy) in H by (unfold errAt; ring).
  replace (X0 + sx * 0) with X0 in H by ring.
  replace (Y0 + sy * 0) with Y0 in H by ring.
  rewrite H by (unfold dx, dy; lia).
  rewrite loop_positions.
  destruct (positions fuel dx dy sx sy X1 Y1 (dx - dy) X0 Y0) as [ps|];
    reflexivity.
Qed.

(** The machine run on small coordinates, with everything the loop keeps
    along its walk. *)
Lemma rasterChecked_spec (X0 Y0 X1 Y1 : Z) :
  small X0 -> small Y0 -> small X1 -> small Y1 ->
  let n := Z.to_nat (extent X0 Y0 X1 Y1) in
  (forall fuel : nat,
      (fuel <= n)%nat -> rasterChecked fuel X0 Y0 X1 Y1 = OutOfFuel) /\
  exists ps : list (Z * Z),
    (forall fuel : nat,
        (n < fuel)%nat ->
        rasterChecked fuel X0 Y0 X1 Y1 =
        Returned (vertices ((X0, Y0) :: ps))) /\
    List.length ps = n /\
    last ((X0, Y0) :: ps) (0, 0) = (X1, Y1) /\
    Forall (fun p => nearLine X0 Y0 X1 Y1 p /\ inBox X0 Y0 X1 Y1 p)
           ((X0, Y0) :: ps) /\
    connected ((X0, Y0) :: ps).
Proof.
  intros HX0 HY0 HX1 HY1. cbv zeta.
  destruct (raster_spec X0 Y0 X1 Y1)
    as (Hshort & ps & Hret & Hlen & Hlast & Hall & Hcon).
  split.
  - intros fuel Hfuel.
    rewrite (rasterChecked_raster fuel X0 Y0 X1 Y1 HX0 HY0 HX1 HY1).
    now rewrite (Hshort fuel Hfuel).
  - exists ps. split; [|split; [exact Hlen|]].
    + intros fuel Hfuel.
      rewrite (rasterChecked_raster fuel X0 Y0 X1 Y1 HX0 HY0 HX1 HY1).
      now rewrite (Hret fuel Hfuel).
    + split; [exact Hlast|]. split; [|exact Hcon].
      eapply Forall_impl; [|exact Hall].
      intros p Hp. now apply onTrack_near.
Qed.

Lemma small_1000 (v : Z) : -1000 <= v <= 1000 -> small v.
Proof. unfold small. lia. Qed.

(** The call [Bresenham(0, 0, 1500000, 0)]: the end point rounds to the
    [int] 1500000000, and the first [2 * err] of the loop leaves the range of
    [int]. *)
Lemma overflowing_call (fuel : nat) (pts : list Q) :
  round (1500000 * inject_Z scale) = 1500000000 /\
  rasterChecked fuel 0 0 1500000000 0 <> Returned pts.
Proof.
  split; [reflexivity|].
  destruct fuel as [|fuel]; vm_compute; intro H; discriminate H.
Qed.

(** C10, as the specification has it, fails: for an end point that rounds to
    1500000000 the loop overflows in its first iteration and the function
    does not return a point list. *)
Lemma Bresenham_overflows : ~ specTerminates.
Proof.
  intro H.
  destruct (H 0 0 1500000000 0 eq_refl eq_refl eq_refl eq_refl)
    as (fuel & pts & E & _).
  exact (proj2 (overflowing_call fuel pts) E).
Qed.

(** C10, as the code has it.  When the four rounded endpoints have magnitude
    at most [2 ^ 28], as all normalized coordinates do, [Bresenham] on
    machine integers terminates: its loop reaches [(X1, Y1)] after one
    iteration for each grid step of the longer extent and one more, every
    larger amount of fuel returns the same list, and that list starts with
    the scaled start point and ends with the scaled end point. *)
Theorem Bresenham_terminates (X0 Y0 X1 Y1 : Z) :
  small X0 -> small Y0 -> small X1 -> small Y1 ->
  exists pts : list Q,
    (forall fuel : nat,
        (Z.to_nat (extent X0 Y0 X1 Y1) < fuel)%nat ->
        rasterChecked fuel X0 Y0 X1 Y1 = Returned pts) /\
    firstVertex pts = vertex X0 Y0 /\
    lastVertex pts = vertex X1 Y1.
Proof.
  intros HX0 HY0 HX1 HY1.
  destruct (rasterChecked_spec X0 Y0 X1 Y1 HX0 HY0 HX1 HY1)
    as (_ & ps & Hret & _ & Hlast & _).
  exists (vertices ((X0, Y0) :: ps)). split; [exact Hret|]. split.
  - reflexivity.
  - rewrite (vertices_last _ _ _ Hlast). reflexivity.
Qed.

(** The theorem on the call of [main], [Bresenham(-0.8f, -0.8f, 0.8f, 0.8f)],
    whose endpoints round to -800 and 800. *)
Lemma Bresenham_terminates_witness :
  exists pts : list Q,
    rasterChecked 1601 (-800) (-800) 800 800 = Returned pts /\
    firstVertex pts = vertex (-800) (-800) /\
    lastVertex pts = vertex 800 800.
Proof.
  assert (Hm : small (-800)) by (apply small_1000; lia).
  assert (Hp : small 800) by (apply small_1000; lia).
  destruct (Bresenham_terminates (-800) (-800) 800 800 Hm Hm Hp Hp)
    as (pts & Hret & Hf & Hl).
  exists pts. split; [|split; assumption].
  apply Hret. vm_compute. lia.
Defined.

(** On rounded endpoints of magnitude at most [2 ^ 28], [Bresenham] on
    machine integers runs its loop exactly once for every grid step of the
    longer extent and once more: with less fuel it has not returned, with
    more it returns one and the same list, and the list holds three floats
    for each of these [n + 1] iterations, so that [line.size() / 3] is
    [n + 1]. *)
Theorem Bresenham_vertex_count (X0 Y0 X1 Y1 : Z) :
  small X0 -> small Y0 -> small X1 -> small Y1 ->
  let n := Z.to_nat (extent X0 Y0 X1 Y1) in
  (forall fuel : nat,
      (fuel <= n)%nat -> rasterChecked fuel X0 Y0 X1 Y1 = OutOfFuel) /\
  exists pts : list Q,
    (forall fuel : nat,
        (n < fuel)%nat -> rasterChecked fuel X0 Y0 X1 Y1 = Returned pts) /\
    List.length pts = (3 * (n + 1))%nat.
Proof.
  intros HX0 HY0 HX1 HY1. cbv zeta.
  destruct (rasterChecked_spec X0 Y0 X1 Y1 HX0 HY0 HX1 HY1)
    as (Hshort & ps & Hret & Hlen & _).
  split; [exact Hshort|].
  exists (vertices ((X0, Y0) :: ps)). split; [exact Hret|].
  rewrite vertices_length. cbn [List.length]. rewrite Hlen. lia.
Qed.

(** The theorem on the line from (0, 0) to (5, 2): five iterations do not
    return, six return 18 floats. *)
Lemma Bresenham_vertex_count_witness :
  rasterChecked 5 0 0 5 2 = OutOfFuel /\
  exists pts : list Q,
    rasterChecked 6 0 0 5 2 = Returned pts /\ List.length pts = 18%nat.
Proof.
  assert (H0 : small 0) by (apply small_1000; lia).
  assert (H5 : small 5) by (apply small_1000; lia).
  assert (H2 : small 2) by (apply small_1000; lia).
  destruct (Bresenham_vertex_count 0 0 5 2 H0 H0 H5 H2)
    as (Hshort & pts & Hret & Hlen).
  split.
  - apply Hshort. vm_compute. lia.
  - exists pts. split; [|exact Hlen].
    apply Hret. vm_compute. lia.
Defined.

(** On rounded endpoints of magnitude at most [2 ^ 28], every vertex
    [Bresenham] returns on machine integers is the float image of a grid
    position that lies in the bounding box of the rounded endpoints and
    within half a grid step of the ideal line through them, measured along
    the shorter extent: twice its cross product with the direction of the
    line is at most the longer extent. *)
Theorem Bresenham_near_line (X0 Y0 X1 Y1 : Z) :
  small X0 -> small Y0 -> small X1 -> small Y1 ->
  exists ps : list (Z * Z),
    (forall fuel : nat,
        (Z.to_nat (extent X0 Y0 X1 Y1) < fuel)%nat ->
        rasterChecked fuel X0 Y0 X1 Y1 = Returned (vertices ps)) /\
    Forall (fun p => nearLine X0 Y0 X1 Y1 p /\ inBox X0 Y0 X1 Y1 p) ps.
Proof.
  intros HX0 HY0 HX1 HY1.
  destruct (rasterChecked_spec X0 Y0 X1 Y1 HX0 HY0 HX1 HY1)
    as (_ & ps & Hret & _ & _ & Hall & _).
  exists ((X0, Y0) :: ps). split; [exact Hret | exact Hall].
Qed.

(** The theorem on the line from (0, 0) to (-7, 3). *)
Lemma Bresenham_near_line_witness :
  exists ps : list (Z * Z),
    rasterChecked 8 0 0 (-7) 3 = Returned (vertices ps) /\
    Forall (fun p => nearLine 0 0 (-7) 3 p /\ inBox 0 0 (-7) 3 p) ps.
Proof.
  assert (H0 : small 0) by (apply small_1000; lia).
  assert (H7 : small (-7)) by (apply small_1000; lia).
  assert (H3 : small 3) by (apply small_1000; lia).
  destruct (Bresenham_near_line 0 0 (-7) 3 H0 H0 H7 H3)
    as (ps & Hret & Hall).
  exists ps. split; [|exact Hall].
  apply Hret. vm_compute. lia.
Defined.

(** On rounded endpoints of magnitude at most [2 ^ 28], the grid positions
    [Bresenham] returns on machine integers form an unbroken chain from the
    rounded start point to the rounded end point: each position is one of
    the eight neighbours of the one before it. *)
Theorem Bresenham_connected (X0 Y0 X1 Y1 : Z) :
  small X0 -> small Y0 -> small X1 -> small Y1 ->
  exists ps : list (Z * Z),
    (forall fuel : nat,
        (Z.to_nat (extent X0 Y0 X1 Y1) < fuel)%nat ->
        rasterChecked fuel X0 Y0 X1 Y1 = Returned (vertices ps)) /\
    hd_error ps = Some (X0, Y0) /\ last ps (0, 0) = (X1, Y1) /\
    connected ps.
Proof.
  intros HX0 HY0 HX1 HY1.
  destruct (rasterChecked_spec X0 Y0 X1 Y1 HX0 HY0 HX1 HY1)
    as (_ & ps & Hret & _ & Hlast & _ & Hcon).
  exists ((X0, Y0) :: ps). split; [exact Hret|].
  split; [reflexivity|]. split; [exact Hlast | exact Hcon].
Qed.

(** The theorem on the steep line from (2, 3) to (4, 9). *)
Lemma Bresenham_connected_witness :
  exists ps : list (Z * Z),
    rasterChecked 7 2 3 4 9 = Returned (vertices ps) /\
    hd_error ps = Some (2, 3) /\ last ps (0, 0) = (4, 9) /\
    connected ps.
Proof.
  assert (H2 : small 2) by (apply small_1000; lia).
  assert (H3 : small 3) by (apply small_1000; lia).
  assert (H4 : small 4) by (apply small_1000; lia).
  assert (H9 : small 9) by (apply small_1000; lia).
  destruct (Bresenham_connected 2 3 4 9 H2 H3 H4 H9)
    as (ps & Hret & Hhd & Hlast & Hcon).
  exists ps. split; [|auto].
  apply Hret. vm_compute. lia.
Defined.

End LineProofs.
